(** * wpt-sync: the upstream synchroniser (sync/upstream.py, sync/command.py)

    A shallow embedding of the upstream half of wpt-sync: backout
    cancellation, grouping of a push into syncs to create and to update,
    the replay of gecko commits onto the wpt side branch, the pull-request
    reconciler, the landing attempt and the status state machine.

    Python values are modelled as the code has them: hashes, bug ids and
    statuses are strings, [set] is [gset], [dict] is [gmap], a pull-request
    id is an integer.  Calls that leave the process (the PR host, Bugzilla,
    git pushes, the worktree) are recorded in a trace; what they answer is
    read from an environment record. *)

From stdpp Require Import gmap strings list fin_maps pretty.
From Stdlib Require Import ZArith.

Open Scope string_scope.

(** ** Gecko commits (sync/commit.py is used through these attributes) *)

(** One entry of [commit.wpt_commits_backed_out()[0]]: a backed-out gecko
    commit, of which the upstream code reads [sha1] and [bug]. *)
Record BackedOut := {
  bo_sha1 : string;
  bo_bug : option string
}.

Record GeckoCommit := {
  sha1 : string;
  canonical_rev : string;
  bug : option string;
  is_backout : bool;
  (** [wpt_commits_backed_out()] returns [(commits, bugs)] *)
  wpt_commits_backed_out : list BackedOut * list string;
  is_downstream : bool;
  is_landing : bool;
  (** [commit.upstream_sync(git_gecko, git_wpt) is not None] *)
  has_upstream_sync : bool;
  (** [commit.metadata.get("wptsync-skip")], as a truth value *)
  wptsync_skip : bool;
  (** [DownstreamSync.has_metadata(commit.msg)] *)
  has_downstream_metadata : bool;
  email : string
}.

#[global] Instance BackedOut_eq_dec : EqDecision BackedOut.
Proof. solve_decision. Defined.

#[global] Instance GeckoCommit_eq_dec : EqDecision GeckoCommit.
Proof. solve_decision. Defined.

(** ** Backout cancellation *)

Module Backouts.

(** [{item.sha1 for item in backed_out}] *)
Definition backed_out_shas (commit : GeckoCommit) : gset string :=
  list_to_set (bo_sha1 <$> (wpt_commits_backed_out commit).1).

(** One iteration of the loop of [remove_complete_backouts]: a backout
    whose targets are all remaining removes them and [continue]s, every
    other commit is added. *)
Definition remove_step (commits_remaining : gset string) (commit : GeckoCommit)
  : gset string :=
  if is_backout commit then
    let backed_out := backed_out_shas commit in
    if bool_decide (backed_out ⊆ commits_remaining)
    then commits_remaining ∖ backed_out
    else commits_remaining ∪ {[ sha1 commit ]}
  else commits_remaining ∪ {[ sha1 commit ]}.

Definition commits_remaining_after (commits : list GeckoCommit) : gset string :=
  foldl remove_step ∅ commits.

Definition remove_complete_backouts (commits : list GeckoCommit)
  : list GeckoCommit :=
  let commits_remaining := commits_remaining_after commits in
  filter (λ item, sha1 item ∈ commits_remaining) commits.

(** The cancellation law in the words of the specification (section 3):
    the iteration over L from a set S.  A kept backout stays in the
    output only through its hash, so keeping it puts that hash in S. *)
Inductive cancellation : gset string → list GeckoCommit → gset string → Prop :=
| cancel_end S :
    cancellation S [] S
| cancel_push S c L S' :
    is_backout c = false →
    cancellation (S ∪ {[ sha1 c ]}) L S' →
    cancellation S (c :: L) S'
| cancel_drop S c L S' :
    is_backout c = true →
    backed_out_shas c ⊆ S →
    cancellation (S ∖ backed_out_shas c) L S' →
    cancellation S (c :: L) S'
| cancel_keep S c L S' :
    is_backout c = true →
    backed_out_shas c ⊈ S →
    cancellation (S ∪ {[ sha1 c ]}) L S' →
    cancellation S (c :: L) S'.

(** The filtered output of the law: the members of L whose hash is in S,
    in the order of L. *)
Definition law_output (L : list GeckoCommit) (S : gset string) : list GeckoCommit :=
  filter (λ c, sha1 c ∈ S) L.

End Backouts.

(** ** Exceptions and results *)

Inductive Exn :=
| AbortError (msg : string)
| ValueError (msg : string)
| AssertionError
| IndexError
| KeyError
| GitCommandError
| GithubException (msg : string)
| BugsyException
| OtherException (msg : string).

Inductive outcome (A : Type) :=
| Ok (a : A)
| Raise (e : Exn).
Arguments Ok {A} a.
Arguments Raise {A} e.

#[global] Instance Exn_eq_dec : EqDecision Exn.
Proof. solve_decision. Defined.

#[global] Instance outcome_bind : MBind outcome :=
  λ A B f x, match x with Ok a => f a | Raise e => Raise e end.
#[global] Instance outcome_ret : MRet outcome := λ A a, Ok a.

(** Python truthiness of an optional string and of an optional integer:
    [None], the empty string and [0] are false. *)
Definition truthy_str (s : option string) : bool :=
  match s with Some s => negb (String.eqb s "") | None => false end.

Definition truthy_int (n : option Z) : bool :=
  match n with Some n => negb (n =? 0)%Z | None => false end.

(** ** Check runs and the CI verdict *)

Module Checks.

(** One value of the dictionary returned by [env.gh_wpt.get_check_runs];
    [conclusion] is [None] while the run is not completed. *)
Record CheckRun := {
  status : string;
  conclusion : option string;
  required : bool;
  head_sha : string;
  url : string
}.

Inductive CheckStatus := SUCCESS | PENDING | FAILURE.

#[global] Instance CheckStatus_eq_dec : EqDecision CheckStatus.
Proof. solve_decision. Defined.

(** [CheckStatus.value] *)
Definition value (s : CheckStatus) : string :=
  match s with SUCCESS => "success" | PENDING => "pending" | FAILURE => "failure" end.

(** [item["conclusion"] in ("success", "neutral")] *)
Definition conclusion_ok (item : CheckRun) : bool :=
  match conclusion item with
  | Some c => String.eqb c "success" || String.eqb c "neutral"
  | None => false
  end.

(** [itervalues(checks)] *)
Definition itervalues (checks : gmap string CheckRun) : list CheckRun :=
  (map_to_list checks).*2.

Definition commit_checks_pass (checks : gmap string CheckRun) : bool :=
  forallb (λ item, negb (required item)
                   || (String.eqb (status item) "completed" && conclusion_ok item))
          (itervalues checks).

Definition commit_checks_complete (checks : gmap string CheckRun) : bool :=
  forallb (λ item, String.eqb (status item) "completed") (itervalues checks).

(** [get_check_status], on the check runs the host returned for the PR *)
Definition get_check_status (checks : gmap string CheckRun)
  : CheckStatus * gmap string CheckRun :=
  let status :=
    if commit_checks_pass checks then SUCCESS
    else if negb (commit_checks_complete checks) then PENDING
    else FAILURE in
  (status, checks).

(** The conditions in the words of the specification (section 4.6). *)
Definition all_required_pass (checks : gmap string CheckRun) : Prop :=
  ∀ name item, checks !! name = Some item → required item = true →
    status item = "completed" ∧
    (conclusion item = Some "success" ∨ conclusion item = Some "neutral").

Definition some_not_completed (checks : gmap string CheckRun) : Prop :=
  ∃ name item, checks !! name = Some item ∧ status item ≠ "completed".

End Checks.

(** ** The sync, the environment and the trace *)

(** A commit of the wpt side branch; [gecko_commit] is
    [metadata["gecko-commit"]], absent when the key is not in the
    metadata. *)
Record WptCommit := {
  wpt_sha1 : string;
  gecko_commit : option string
}.

#[global] Instance WptCommit_eq_dec : EqDecision WptCommit.
Proof. solve_decision. Defined.

(** The fields of an [UpstreamSync] that the upstream code reads and
    writes.  [bug], [seq_id] and [status] are the components of
    [process_name]; [remote_branch], [merge_sha], [pr_status] and
    [last_pr_check] live in [data]; [gecko_commits] and [wpt_commits] are
    the commits the two ranges enumerate, parents first, and [gecko_head]
    is [gecko_commits.head]. *)
Record UpstreamSync := {
  obj_id : string;
  seq_id : string;
  status : string;
  pr : option Z;
  remote_branch : option string;
  merge_sha : option string;
  pr_status : string;
  last_pr_check : option (string * string);
  error : option string;
  gecko_commits : list GeckoCommit;
  gecko_head : GeckoCommit;
  wpt_base : string;
  wpt_commits : list WptCommit
}.

#[global] Instance UpstreamSync_eq_dec : EqDecision UpstreamSync.
Proof. solve_decision. Defined.

Definition with_status (v : string) (s : UpstreamSync) : UpstreamSync :=
  {| obj_id := obj_id s; seq_id := seq_id s; status := v; pr := pr s;
     remote_branch := remote_branch s; merge_sha := merge_sha s;
     pr_status := pr_status s; last_pr_check := last_pr_check s;
     error := error s; gecko_commits := gecko_commits s;
     gecko_head := gecko_head s; wpt_base := wpt_base s;
     wpt_commits := wpt_commits s |}.

Definition with_pr (v : option Z) (s : UpstreamSync) : UpstreamSync :=
  {| obj_id := obj_id s; seq_id := seq_id s; status := status s; pr := v;
     remote_branch := remote_branch s; merge_sha := merge_sha s;
     pr_status := pr_status s; last_pr_check := last_pr_check s;
     error := error s; gecko_commits := gecko_commits s;
     gecko_head := gecko_head s; wpt_base := wpt_base s;
     wpt_commits := wpt_commits s |}.

Definition with_remote_branch (v : option string) (s : UpstreamSync) : UpstreamSync :=
  {| obj_id := obj_id s; seq_id := seq_id s; status := status s; pr := pr s;
     remote_branch := v; merge_sha := merge_sha s;
     pr_status := pr_status s; last_pr_check := last_pr_check s;
     error := error s; gecko_commits := gecko_commits s;
     gecko_head := gecko_head s; wpt_base := wpt_base s;
     wpt_commits := wpt_commits s |}.

Definition with_merge_sha (v : option string) (s : UpstreamSync) : UpstreamSync :=
  {| obj_id := obj_id s; seq_id := seq_id s; status := status s; pr := pr s;
     remote_branch := remote_branch s; merge_sha := v;
     pr_status := pr_status s; last_pr_check := last_pr_check s;
     error := error s; gecko_commits := gecko_commits s;
     gecko_head := gecko_head s; wpt_base := wpt_base s;
     wpt_commits := wpt_commits s |}.

Definition with_pr_status (v : string) (s : UpstreamSync) : UpstreamSync :=
  {| obj_id := obj_id s; seq_id := seq_id s; status := status s; pr := pr s;
     remote_branch := remote_branch s; merge_sha := merge_sha s;
     pr_status := v; last_pr_check := last_pr_check s;
     error := error s; gecko_commits := gecko_commits s;
     gecko_head := gecko_head s; wpt_base := wpt_base s;
     wpt_commits := wpt_commits s |}.

Definition with_last_pr_check (v : option (string * string)) (s : UpstreamSync)
  : UpstreamSync :=
  {| obj_id := obj_id s; seq_id := seq_id s; status := status s; pr := pr s;
     remote_branch := remote_branch s; merge_sha := merge_sha s;
     pr_status := pr_status s; last_pr_check := v;
     error := error s; gecko_commits := gecko_commits s;
     gecko_head := gecko_head s; wpt_base := wpt_base s;
     wpt_commits := wpt_commits s |}.

Definition with_error (v : option string) (s : UpstreamSync) : UpstreamSync :=
  {| obj_id := obj_id s; seq_id := seq_id s; status := status s; pr := pr s;
     remote_branch := remote_branch s; merge_sha := merge_sha s;
     pr_status := pr_status s; last_pr_check := last_pr_check s;
     error := v; gecko_commits := gecko_commits s;
     gecko_head := gecko_head s; wpt_base := wpt_base s;
     wpt_commits := wpt_commits s |}.

Definition with_wpt (base : string) (commits : list WptCommit) (s : UpstreamSync)
  : UpstreamSync :=
  {| obj_id := obj_id s; seq_id := seq_id s; status := status s; pr := pr s;
     remote_branch := remote_branch s; merge_sha := merge_sha s;
     pr_status := pr_status s; last_pr_check := last_pr_check s;
     error := error s; gecko_commits := gecko_commits s;
     gecko_head := gecko_head s; wpt_base := base;
     wpt_commits := commits |}.

(** What [gecko_commit.move] does in the worktree: it creates a commit,
    finds the tree unchanged, or aborts on a conflict. *)
Inductive MoveResult :=
| Moved (sha : string)
| NoChange
| MoveAbort (msg : string).

(** The calls that leave the process, in the order they are made. *)
Inductive Event :=
| EvStatus (old new : string)
| EvClosePull (pr_id : Z)
| EvReopenPull (pr_id : Z)
| EvCreatePull (title head : string)
| EvMergePull (pr_id : Z)
| EvSetStatus (pr_id : Z) (state : string)
| EvPush (branch remote : string)
| EvPushDelete (remote : string)
| EvWorktreeReset
| EvWorktreeClean
| EvMove (gecko_sha : string)
| EvBzComment (bug_id text : string)
| EvBzNeedinfo (bug_id : string) (users : list string).

#[global] Instance Event_eq_dec : EqDecision Event.
Proof. solve_decision. Defined.

(** The answers of the collaborators that are not part of the upstream
    module: git, the PR host, Bugzilla and the sync index. *)
Record Env := {
  (** [git_gecko.is_ancestor(sha, env.config["gecko"]["refs"]["central"])] *)
  is_ancestor : string → bool;
  (** [git_gecko.cinnabar.hg2git] *)
  hg2git : string → string;
  (** [gecko_repo(git_gecko, head)] *)
  gecko_repo : string → option string;
  (** [os.path.exists] of the patch file of a canonical revision *)
  patch_exists : string → bool;
  (** [gecko_commit.move] on top of the given side branch *)
  move : list WptCommit → GeckoCommit → MoveResult;
  (** commits of the wpt range after [set_wpt_base] *)
  rebased : string → list WptCommit → list WptCommit;
  (** [load_sync_point(git_gecko, git_wpt)["upstream"]] *)
  sync_point_upstream : string;
  (** [env.gh_wpt.pull_state], [get_pull(pr).merged], [merge_sha] *)
  pull_state : Z → string;
  pull_merged : Z → bool;
  gh_merge_sha : Z → option string;
  gh_check_runs : option Z → gmap string Checks.CheckRun;
  is_mergeable : Z → bool;
  is_approved : Z → bool;
  (** [merge_pull]: the merge commit, or the exception it raises *)
  merge_pull : Z → Exn + string;
  create_pull : string → string → Z;
  (** heads of [git_wpt.remotes.origin.refs], as [push_required] finds
      them *)
  origin_refs : gmap string string;
  (** heads of [git_wpt.remotes.origin.refs] as [create_pr] finds them,
      after the pushes of the call, if any: a push adds the branch it
      pushes to the refs, so this is an answer of its own *)
  origin_refs_after_push : gmap string string;
  (** upstream short name of the sync branch in the gecko repository *)
  branch_upstream : option string;
  (** [pygit2_wpt.references] *)
  wpt_references : gset string;
  (** a push: [None] on success, else the summary of the failed item *)
  push_error : string → option string;
  (** a deleting push: [None] on success, else the exception raised *)
  push_delete : string → option Exn;
  (** whether updating the bug raises [BugsyException] *)
  bugsy_fails : string → bool;
  needinfo_upstream : list string;
  github_user : string;
  summary : string → string;
  (** [UpstreamSync.for_bug(..., statuses={"open", "incomplete"})] *)
  for_bug : option string → list UpstreamSync
}.

(** The state a command runs in: the sync it holds the mutation token of
    and the trace of calls made so far. *)
Record State := {
  sync : UpstreamSync;
  trace : list Event
}.

(** Commands run in a state monad whose state survives an exception. *)
Definition M (A : Type) : Type := State → outcome A * State.

#[global] Instance M_ret : MRet M := λ A a st, (Ok a, st).
#[global] Instance M_bind : MBind M :=
  λ A B f m st,
    match m st with
    | (Ok a, st') => f a st'
    | (Raise e, st') => (Raise e, st')
    end.

Definition raise {A} (e : Exn) : M A := λ st, (Raise e, st).
Definition get_sync : M UpstreamSync := λ st, (Ok (sync st), st).
Definition modify_sync (f : UpstreamSync → UpstreamSync) : M unit :=
  λ st, (Ok tt, {| sync := f (sync st); trace := trace st |}).
Definition emit (e : Event) : M unit :=
  λ st, (Ok tt, {| sync := sync st; trace := trace st ++ [e] |}).
Definition lift {A} (x : outcome A) : M A := λ st, (x, st).
Definition assert (b : bool) : M unit :=
  if b then mret tt else raise AssertionError.

(** [try: m except cls: handler], where [catches] selects the classes *)
Definition try_except {A} (m : M A) (catches : Exn → bool) (handler : Exn → M A)
  : M A :=
  λ st,
    match m st with
    | (Ok a, st') => (Ok a, st')
    | (Raise e, st') => if catches e then handler e st' else (Raise e, st')
    end.

(** [for x in l: body x] *)
Fixpoint for_each {A} (l : list A) (body : A → M unit) : M unit :=
  match l with
  | [] => mret tt
  | x :: l => body x ;; for_each l body
  end.

(** ** The status state machine *)

Definition statuses : list string :=
  ["open"; "wpt-merged"; "complete"; "incomplete"].

(** [UpstreamSync.status_transitions] *)
Definition status_transitions : list (string * string) :=
  [("open", "wpt-merged");
   ("open", "complete");
   ("open", "incomplete");
   ("incomplete", "open");
   ("wpt-merged", "complete")].

(** Modelled from the spec: the [status] setter of [SyncProcess] (sync.py,
    not among the sources).  Section 3, invariant 5, and section 4.7: a
    transition is validated against [status_transitions] and then
    persisted (the ref of the sync is renamed, which the trace records);
    section 7: a broken transition is a fatal assertion that aborts the
    command.  Assigning the status the sync already has is no transition
    and changes nothing. *)
Definition set_status (value : string) : M unit :=
  s ← get_sync;
  if String.eqb (status s) value then mret tt
  else if bool_decide ((status s, value) ∈ status_transitions) then
    modify_sync (with_status value) ;;
    emit (EvStatus (status s) value)
  else raise AssertionError.

(** Modelled from the spec: [SyncProcess.finish] (sync.py, not among the
    sources).  Section 4.7: it validates the transition and persists the
    status. *)
Definition base_finish (value : string) : M unit :=
  set_status value.

(** ** UpstreamSync *)

(** The [remote_branch] setter *)
Definition set_remote_branch (value : option string) : M unit :=
  (if truthy_str value
   then assert (negb (String.prefix "refs/" (default "" value)))
   else mret tt) ;;
  modify_sync (with_remote_branch value).

(** [path in refs] is retried with a growing suffix; among
    [S (size refs)] candidates one is free, which bounds the loop. *)
Fixpoint unused_path (refs : gset string) (initial_path : string)
    (fuel count : nat) (path : string) : option string :=
  if bool_decide (path ∈ refs) then
    match fuel with
    | O => None
    | S fuel =>
        unused_path refs initial_path fuel (S count)
          (initial_path ++ "-" ++ pretty (S count))
    end
  else Some path.

Definition get_or_create_remote_branch (env : Env) : M (option string) :=
  s ← get_sync;
  (if negb (truthy_str (remote_branch s)) then
     match branch_upstream env with
     | Some shortname =>
         if negb (String.eqb shortname "")
         then set_remote_branch (Some shortname)
         else mret tt
     | None => mret tt
     end
   else mret tt) ;;
  s ← get_sync;
  (if negb (truthy_str (remote_branch s)) then
     let refs := wpt_references env in
     let initial_path := "refs/remotes/origin/gecko/" ++ obj_id s in
     match unused_path refs initial_path (size refs) 0 initial_path with
     | Some path =>
         set_remote_branch
           (Some (String.substring 20 (String.length path - 20) path))
     | None => raise (OtherException "no unused path")
     end
   else mret tt) ;;
  s ← get_sync;
  mret (remote_branch s).

(** The gecko commits that the commits of the side branch replay, each
    given by its hash.  The source caches the list per head of the side
    branch; the cache is not modelled. *)
Definition upstreamed_gecko_commits (env : Env) (s : UpstreamSync) : list string :=
  omap (λ wpt_commit, hg2git env <$> gecko_commit wpt_commit) (wpt_commits s).

(** The loop over [reversed(self.gecko_commits)]: [matching] loses its
    last element until a commit that was upstreamed is met. *)
Fixpoint pop_unmatched (upstreamed_commits : gset string)
    (reversed : list GeckoCommit) (matching : list GeckoCommit)
  : list GeckoCommit :=
  match reversed with
  | [] => matching
  | gecko_commit :: reversed =>
      if bool_decide (sha1 gecko_commit ∈ upstreamed_commits) then matching
      else pop_unmatched upstreamed_commits reversed (removelast matching)
  end.

Definition matching_commits (env : Env) (s : UpstreamSync) : list GeckoCommit :=
  let upstreamed_commits : gset string :=
    list_to_set (upstreamed_gecko_commits env s) in
  pop_unmatched upstreamed_commits (reverse (gecko_commits s)) (gecko_commits s).

(** The [repository] property *)
Definition repository (env : Env) : M string :=
  s ← get_sync;
  match gecko_repo env (sha1 (gecko_head s)) with
  | Some repo => mret repo
  | None => raise (ValueError "Commit not part of any repository")
  end.

(** [add_commit].  The commit that [move] creates carries the metadata
    passed to it, so its [gecko-commit] is the canonical revision; the
    check that the worktree is not dirty concerns the worktree only. *)
Definition add_commit (env : Env) (commit : GeckoCommit) : M (option WptCommit) :=
  _ ← repository env;
  if patch_exists env (canonical_rev commit)
  then raise (AbortError "Skipping due to existing patch")
  else
    emit (EvMove (sha1 commit)) ;;
    s ← get_sync;
    match move env (wpt_commits s) commit with
    | MoveAbort msg => raise (AbortError msg)
    | NoChange => mret None
    | Moved sha =>
        let wpt_commit :=
          {| wpt_sha1 := sha; gecko_commit := Some (canonical_rev commit) |} in
        modify_sync (with_wpt (wpt_base s) (wpt_commits s ++ [wpt_commit])) ;;
        mret (Some wpt_commit)
    end.

(** [for commit in commits: commit = self.add_commit(commit)] *)
Definition add_commits (env : Env) (commits : list GeckoCommit) : M unit :=
  for_each commits (λ commit, _ ← add_commit env commit; mret tt).

Definition update_wpt_commits (env : Env) : M bool :=
  s ← get_sync;
  if (length (gecko_commits s) =? 0)%nat then mret false
  else
    let matching := matching_commits env s in
    if (length matching =? length (gecko_commits s))%nat
       && (length (gecko_commits s) =? length (upstreamed_gecko_commits env s))%nat
    then mret false
    else
      (if (length matching =? 0)%nat then
         modify_sync (with_wpt (wpt_base s) [])
       else if (length matching <? length (upstreamed_gecko_commits env s))%nat then
         match wpt_commits s !! (length matching - 1)%nat with
         | Some _ =>
             modify_sync (with_wpt (wpt_base s) (take (length matching) (wpt_commits s)))
         | None => raise IndexError
         end
       else mret tt) ;;
      emit EvWorktreeReset ;;
      emit EvWorktreeClean ;;
      add_commits env (drop (length matching) (gecko_commits s)) ;;
      s' ← get_sync;
      assert (length (wpt_commits s') =? length (upstreamed_gecko_commits env s'))%nat ;;
      mret true.

(** [gecko_landed]; [landed[0]] is an index into a list *)
Definition gecko_landed (env : Env) (s : UpstreamSync) : outcome bool :=
  if (length (gecko_commits s) =? 0)%nat then Ok false
  else
    let landed := (λ commit, is_ancestor env (sha1 commit)) <$> gecko_commits s in
    match landed !! 0%nat with
    | None => Raise IndexError
    | Some first =>
        if negb (forallb (λ item, Bool.eqb item first) landed) then Ok false
        else Ok first
    end.

(** [self.wpt_commits.head.sha1] *)
Definition wpt_head_sha1 (s : UpstreamSync) : string :=
  match last (wpt_commits s) with
  | Some wpt_commit => wpt_sha1 wpt_commit
  | None => wpt_base s
  end.

Definition push_required (env : Env) (s : UpstreamSync) : bool :=
  negb (truthy_str (remote_branch s)
        && match remote_branch s ≫= (λ name, origin_refs env !! name) with
           | Some hexsha => String.eqb hexsha (wpt_head_sha1 s)
           | None => false
           end).

Definition push_commits (env : Env) : M unit :=
  remote_branch ← get_or_create_remote_branch env;
  s ← get_sync;
  emit (EvPush (obj_id s) (default "" remote_branch)) ;;
  match push_error env (default "" remote_branch) with
  | Some summary => raise (AbortError summary)
  | None => mret tt
  end.

(** [create_pr]; the refs of origin are those after the pushes of the
    call, and the wait for the branch to show up at the host is not
    modelled. *)
Definition create_pr (env : Env) : M (option Z) :=
  s ← get_sync;
  if truthy_int (pr s) then mret (pr s)
  else
    match remote_branch s with
    | None => raise AssertionError
    | Some head =>
        assert (bool_decide (is_Some (origin_refs_after_push env !! head))) ;;
        match wpt_commits s !! 0%nat with
        | None => raise IndexError
        | Some first =>
            let title :=
              "[Gecko" ++ (if String.eqb (obj_id s) "" then ""
                           else " Bug " ++ obj_id s)
                       ++ "] " ++ summary env (wpt_sha1 first) in
            let pr_id := create_pull env title head in
            emit (EvCreatePull title head) ;;
            modify_sync (with_pr (Some pr_id)) ;;
            emit (EvBzComment (obj_id s) "Created web-platform-tests PR") ;;
            mret (Some pr_id)
        end
    end.

Definition set_landed_status (env : Env) : M unit :=
  s ← get_sync;
  match pr s with
  | Some pr_id =>
      if negb (truthy_int (pr s)) then mret tt
      else
        landed ← lift (gecko_landed env s);
        emit (EvSetStatus pr_id (if (landed : bool) then "success" else "failure"))
  | None => mret tt
  end.

(** [UpstreamSync.finish] *)
Definition finish (env : Env) (value : string) : M unit :=
  base_finish value ;;
  s ← get_sync;
  if bool_decide (value ∈ ["wpt-merged"; "complete"]) && truthy_str (remote_branch s)
  then
    let remote := default "" (remote_branch s) in
    emit (EvPushDelete remote) ;;
    match push_delete env remote with
    | Some GitCommandError => mret tt
    | Some e => raise e
    | None => set_remote_branch None
    end
  else mret tt.

(** [update_github]; the result of the first block tells whether the
    method returned from inside it. *)
Definition update_github (env : Env) : M unit :=
  s ← get_sync;
  returned ←
    match pr s with
    | Some pr_id =>
        if negb (truthy_int (pr s)) then mret false
        else
          let state := pull_state env pr_id in
          if (length (gecko_commits s) =? 0)%nat then
            emit (EvClosePull pr_id) ;; mret false
          else if String.eqb state "closed" then
            if negb (pull_merged env pr_id) then
              emit (EvReopenPull pr_id) ;; mret false
            else
              (if (length (upstreamed_gecko_commits env s)
                   =? length (gecko_commits s))%nat
               then
                 (if negb (bool_decide (status s ∈ ["wpt-merged"; "complete"]))
                  then emit (EvBzComment (obj_id s) "Upstream PR merged")
                  else mret tt) ;;
                 finish env "complete"
               else
                 modify_sync
                   (with_error
                      (Some "Upstream PR merged, but additional commits added after merge"))) ;;
              mret true
          else mret false
    | None => mret false
    end;
  if (returned : bool) then mret tt
  else
    s ← get_sync;
    if (length (gecko_commits s) =? 0)%nat then mret tt
    else if (length (upstreamed_gecko_commits env s) =? 0)%nat then mret tt
    else
      (if push_required env s then push_commits env else mret tt) ;;
      s ← get_sync;
      (if negb (truthy_int (pr s)) then _ ← create_pr env; mret tt else mret tt) ;;
      set_landed_status env.

(** [try_land_pr]; it returns [None], [False] or [True] *)
Definition try_land_pr (env : Env) : M (option bool) :=
  s ← get_sync;
  if negb (String.eqb (status s) "open") then mret None
  else
    landed ← lift (gecko_landed env s);
    if negb (landed : bool) then mret (Some false)
    else
      match pr s with
      | None => mret (Some false)
      | Some pr_id =>
          if negb (truthy_int (pr s)) then mret (Some false)
          else
            set_landed_status env ;;
            if truthy_str (gh_merge_sha env pr_id) then
              modify_sync (with_merge_sha (gh_merge_sha env pr_id)) ;;
              finish env "wpt-merged" ;;
              mret None
            else
              let '(check_status, _) :=
                Checks.get_check_status (gh_check_runs env (pr s)) in
              if negb (bool_decide (check_status ∈ [Checks.SUCCESS; Checks.PENDING]))
              then mret (Some false)
              else if negb (is_mergeable env pr_id) then mret (Some false)
              else if negb (is_approved env pr_id) then mret (Some false)
              else
                emit (EvMergePull pr_id) ;;
                match merge_pull env pr_id with
                | inl _ => mret (Some false)
                | inr merge_sha =>
                    emit (EvBzComment (obj_id s)
                            ("Upstream PR merged by " ++ github_user env)) ;;
                    modify_sync (with_merge_sha (Some merge_sha)) ;;
                    finish env "wpt-merged" ;;
                    mret (Some true)
                end
      end.

(** Modelled from the spec: [set_wpt_base] of [SyncProcess] (sync.py, not
    among the sources) moves the base of the wpt range; the commits the
    range then enumerates are the environment's. *)
Definition set_wpt_base (env : Env) (base : string) : M unit :=
  modify_sync (λ s, with_wpt base (rebased env base (wpt_commits s)) s).

Definition is_abort (e : Exn) : bool :=
  match e with AbortError _ => true | _ => false end.

(** [update_modified_sync]; the assertion on the lock concerns the
    mutation token, which is not modelled. *)
Definition update_modified_sync (env : Env) : M unit :=
  s ← get_sync;
  returned ←
    (if (length (gecko_commits s) =? 0)%nat then
       set_status "incomplete" ;;
       s ← get_sync;
       if negb (truthy_int (pr s)) then mret true else mret false
     else
       set_status "open" ;;
       try_except (_ ← update_wpt_commits env; mret tt) is_abort
         (λ _,
            s ← get_sync;
            if negb (truthy_int (pr s)) then
              set_wpt_base env (sync_point_upstream env) ;;
              try_except (_ ← update_wpt_commits env; mret tt) is_abort
                (λ e,
                   set_wpt_base env "origin/master" ;;
                   emit (EvBzComment (obj_id s)
                           "Failed to create upstream wpt PR due to merge conflicts. This requires fixup from a wpt sync admin.") ;;
                   emit (EvBzNeedinfo (obj_id s) (needinfo_upstream env)) ;;
                   raise e)
            else mret tt) ;;
       mret false);
  if (returned : bool) then mret tt else update_github env.

(** [update_pr], the handler of a pull-request event *)
Definition update_pr (env : Env) (action : string)
    (merge_sha base_sha : option string) (merged_by : string) : M unit :=
  s ← get_sync;
  if String.eqb action "closed" then
    if negb (truthy_str merge_sha) && negb (String.eqb (pr_status s) "closed") then
      emit (EvBzComment (obj_id s) "Upstream PR was closed without merging") ;;
      modify_sync (with_pr_status "closed")
    else
      modify_sync (with_merge_sha merge_sha) ;;
      (if (length (wpt_commits s) =? 0)%nat && truthy_str base_sha
       then set_wpt_base env (default "" base_sha)
       else mret tt) ;;
      if negb (bool_decide (status s ∈ ["complete"; "wpt-merged"])) then
        emit (EvBzComment (obj_id s) ("Upstream PR merged by " ++ merged_by)) ;;
        finish env "wpt-merged"
      else mret tt
  else if String.eqb action "reopened" || String.eqb action "open" then
    modify_sync (with_pr_status "open")
  else mret tt.

(** [commit_check_changed], the handler of a check notification; it
    returns [True], [None] or what [try_land_pr] returned.  A
    [BugsyException] is taken to be raised by the first update of the
    bug, before the comment is made. *)
Definition commit_check_changed (env : Env) : M (option bool) :=
  s ← get_sync;
  if negb (String.eqb (status s) "open") then mret (Some true)
  else
    let '(check_status, checks) :=
      Checks.get_check_status (gh_check_runs env (pr s)) in
    match Checks.itervalues checks with
    | [] => mret None
    | first :: _ =>
        let this_pr_check := (Checks.value check_status, Checks.head_sha first) in
        let last_pr_check := last_pr_check s in
        modify_sync (with_last_pr_check (Some this_pr_check)) ;;
        if bool_decide (check_status = Checks.SUCCESS) then
          modify_sync (with_error None) ;;
          landed ← lift (gecko_landed env s);
          if (landed : bool) then try_land_pr env
          else
            (if negb (bool_decide (Some this_pr_check = last_pr_check)) then
               emit (EvBzComment (obj_id s)
                       "Upstream web-platform-tests status checks passed, PR will merge once commit reaches central.")
             else mret tt) ;;
            mret (Some false)
        else if bool_decide (check_status = Checks.FAILURE)
                && negb (bool_decide (last_pr_check = Some this_pr_check)) then
          (if bugsy_fails env (obj_id s) then
             modify_sync (with_error (Some "Checks failed"))
           else
             emit (EvBzComment (obj_id s)
                     "Can't merge web-platform-tests PR due to failing upstream checks") ;;
             match gecko_commits s !! 0%nat with
             | None => raise IndexError
             | Some first_commit =>
                 if negb (String.eqb (email first_commit) "")
                 then emit (EvBzNeedinfo (obj_id s) [email first_commit])
                 else mret tt
             end) ;;
          mret (Some false)
        else mret (Some false)
    end.

(** The body of the loop of [update_sync_prs] for one sync *)
Definition update_sync_pr (env : Env) (raise_on_error : bool) : M bool :=
  λ st,
    match update_modified_sync env st with
    | (Ok _, st') => (modify_sync (with_error None) ;; mret true) st'
    | (Raise e, st') =>
        (modify_sync (with_error (Some "exception")) ;;
         if raise_on_error then raise e else mret false) st'
    end.

(** [update_sync] for one sync: [update_sync_heads] refuses a closed sync
    and leaves the head where it is; a sync is never a member of
    [failed_syncs], whose members are pairs, so landing is always tried. *)
Definition update_sync (env : Env) (raise_on_error : bool) : M unit :=
  s ← get_sync;
  if bool_decide (status s ∈ ["wpt-merged"; "complete"]) then mret tt
  else
    (if negb (bool_decide (status s ∈ ["open"; "incomplete"]))
     then raise (ValueError "Tried to modify a closed sync")
     else mret tt) ;;
    _ ← update_sync_pr env raise_on_error;
    _ ← try_land_pr env;
    mret tt.

(** [do_status] of command.py on one loaded object: [obj.status = new] *)
Definition do_status_obj (new_status : string) : M unit :=
  set_status new_status.

(** [do_status] over the objects that [load_all] returned; an exception
    ends the loop. *)
Fixpoint do_status (new_status : string) (objs : list UpstreamSync)
    (log : list Event) : outcome unit * (list UpstreamSync * list Event) :=
  match objs with
  | [] => (Ok tt, ([], log))
  | obj :: objs =>
      match do_status_obj new_status {| sync := obj; trace := log |} with
      | (Ok _, st) =>
          let '(r, (objs', log')) := do_status new_status objs (trace st) in
          (r, (sync st :: objs', log'))
      | (Raise e, st) => (Raise e, (sync st :: objs, trace st))
      end
  end.

(** The operations of the upstream module that act on one sync *)
Inductive Command :=
| CmdUpdateWptCommits
| CmdUpdateGithub
| CmdTryLandPr
| CmdFinish (value : string)
| CmdUpdateModifiedSync
| CmdUpdateSyncPr (raise_on_error : bool)
| CmdUpdateSync (raise_on_error : bool)
| CmdUpdatePr (action : string) (merge_sha base_sha : option string) (merged_by : string)
| CmdCommitCheckChanged
| CmdDoStatus (new_status : string).

Definition run (env : Env) (cmd : Command) : M unit :=
  match cmd with
  | CmdUpdateWptCommits => _ ← update_wpt_commits env; mret tt
  | CmdUpdateGithub => update_github env
  | CmdTryLandPr => _ ← try_land_pr env; mret tt
  | CmdFinish value => finish env value
  | CmdUpdateModifiedSync => update_modified_sync env
  | CmdUpdateSyncPr raise_on_error => _ ← update_sync_pr env raise_on_error; mret tt
  | CmdUpdateSync raise_on_error => update_sync env raise_on_error
  | CmdUpdatePr action merge_sha base_sha merged_by =>
      update_pr env action merge_sha base_sha merged_by
  | CmdCommitCheckChanged => _ ← commit_check_changed env; mret tt
  | CmdDoStatus new_status => do_status_obj new_status
  end.

(** ** Grouping the commits of a push *)

Module Grouping.

(** [filter_commits] *)
Definition filter_commits (commits : list GeckoCommit) : list GeckoCommit :=
  filter (λ commit,
            negb (wptsync_skip commit
                  || has_downstream_metadata commit
                  || (is_backout commit
                      && (length (wpt_commits_backed_out commit).1 =? 0)%nat))
            = true)
         commits.

(** [Endpoints]: [_first] and [_second] *)
Record Endpoints := {
  first : GeckoCommit;
  second : option GeckoCommit
}.

#[global] Instance Endpoints_eq_dec : EqDecision Endpoints.
Proof. solve_decision. Defined.

Definition new_endpoints (commit : GeckoCommit) : Endpoints :=
  {| first := commit; second := None |}.

(** The [head] property and its setter *)
Definition head (e : Endpoints) : string :=
  match second e with
  | Some commit => sha1 commit
  | None => sha1 (first e)
  end.

Definition set_head (value : GeckoCommit) (e : Endpoints) : Endpoints :=
  {| first := first e; second := Some value |}.

(** A value of [create_syncs]: a list under the key [None], one
    [Endpoints] under a bug. *)
Inductive CreateEntry :=
| Anonymous (endpoints : list Endpoints)
| ForBug (endpoints : Endpoints).

#[global] Instance CreateEntry_eq_dec : EqDecision CreateEntry.
Proof. solve_decision. Defined.

Abbreviation CreateSyncs := (gmap (option string) CreateEntry).
Abbreviation UpdateSyncs := (gmap (option string) (UpstreamSync * GeckoCommit)).

(** [commit in sync.gecko_commits] *)
Definition in_gecko_commits (commit : GeckoCommit) (sync : UpstreamSync) : bool :=
  bool_decide (sha1 commit ∈ sha1 <$> gecko_commits sync).

(** The loop of [updates_for_backout] over the backed-out commits; [None]
    is the early [return {}, {}]. *)
Fixpoint backed_out_loop (env : Env) (commit : GeckoCommit)
    (backed_out_commits : list BackedOut)
    (backed_out_commit_shas : gset string) (update_syncs : UpdateSyncs)
  : outcome (option (gset string * UpdateSyncs)) :=
  match backed_out_commits with
  | [] => Ok (Some (backed_out_commit_shas, update_syncs))
  | backed_out_commit :: rest =>
      let syncs := for_bug env (bo_bug backed_out_commit) in
      if negb (bool_decide (length syncs ∈ [0; 1]%nat)) then
        Raise (ValueError "Lookup of upstream syncs for bug returned syncs")
      else
        match last syncs with
        | Some sync =>
            if in_gecko_commits commit sync then Ok None
            else if bool_decide (bo_sha1 backed_out_commit
                                 ∈ upstreamed_gecko_commits env sync) then
              if bool_decide (bo_sha1 backed_out_commit ∈ backed_out_commit_shas)
              then
                backed_out_loop env commit rest
                  (backed_out_commit_shas ∖ {[ bo_sha1 backed_out_commit ]})
                  (<[Some (obj_id sync) := (sync, commit)]> update_syncs)
              else Raise KeyError
            else backed_out_loop env commit rest backed_out_commit_shas update_syncs
        | None =>
            backed_out_loop env commit rest backed_out_commit_shas update_syncs
        end
  end.

(** The loop over [bugs] that looks for a bug without an open sync *)
Fixpoint find_backout_bug (env : Env) (update_syncs : UpdateSyncs)
    (bugs : list string) : option string :=
  match bugs with
  | [] => None
  | bug :: bugs =>
      if bool_decide (update_syncs !! Some bug = None)
         && bool_decide (for_bug env (Some bug) = [])
      then Some bug
      else find_backout_bug env update_syncs bugs
  end.

Definition updates_for_backout (env : Env) (commit : GeckoCommit)
  : outcome (CreateSyncs * UpdateSyncs) :=
  let '(backed_out_commits, bugs) := wpt_commits_backed_out commit in
  let backed_out_commit_shas : gset string :=
    list_to_set (bo_sha1 <$> backed_out_commits) in
  let create_syncs : CreateSyncs := {[ None := Anonymous [] ]} in
  r ← backed_out_loop env commit backed_out_commits backed_out_commit_shas ∅;
  match r with
  | None => Ok (∅, ∅)
  | Some (backed_out_commit_shas, update_syncs) =>
      if negb (bool_decide (backed_out_commit_shas = ∅)) then
        match find_backout_bug env update_syncs bugs with
        | None =>
            Ok (<[None := Anonymous [new_endpoints commit]]> create_syncs,
                update_syncs)
        | Some backout_bug =>
            Ok (<[Some backout_bug := ForBug (new_endpoints commit)]> create_syncs,
                update_syncs)
        end
      else Ok (create_syncs, update_syncs)
  end.

(** [int(s)] for a decimal numeral; a string that is not one is a
    [ValueError] (signs and surrounding blanks are not modelled). *)
Fixpoint digits_value (acc : Z) (s : string) : option Z :=
  match s with
  | EmptyString => Some acc
  | String a s =>
      let n := Z.of_nat (Ascii.nat_of_ascii a) in
      if ((48 <=? n) && (n <=? 57))%Z
      then digits_value (10 * acc + (n - 48))%Z s
      else None
  end.

Definition py_int (s : string) : option Z :=
  if String.eqb s "" then None else digits_value 0 s.

(** [list.sort(key=...)]: the keys are computed first, the sort is stable *)
Fixpoint insert_by_key {A} (x : Z * A) (l : list (Z * A)) : list (Z * A) :=
  match l with
  | [] => [x]
  | y :: l' => if (x.1 <? y.1)%Z then x :: l else y :: insert_by_key x l'
  end.

Definition sort_by_obj_id (l : list UpstreamSync) : outcome (list UpstreamSync) :=
  keyed ← mapM (λ x, match py_int (obj_id x) with
                     | Some key => Ok (key, x)
                     | None => Raise (ValueError "invalid literal for int()")
                     end) l;
  Ok ((foldl (λ sorted x, insert_by_key x sorted) [] keyed).*2).

(** [for status in ["open", "incomplete"]: ...; break] *)
Fixpoint pick_most_recent (candidates : list string) (syncs : list UpstreamSync)
  : outcome (option UpstreamSync) :=
  match candidates with
  | [] => Ok None
  | status_ :: candidates =>
      let status_syncs := filter (λ s, status s = status_) syncs in
      if negb (length status_syncs =? 0)%nat then
        sorted ← sort_by_obj_id status_syncs;
        Ok (last sorted)
      else pick_most_recent candidates syncs
  end.

(** The sync that a commit of [bug] updates when [bug] is not yet in
    [update_syncs]: the lookup, the tie-break and the final
    [if syncs: sync = syncs[0]]. *)
Definition sync_for_bug (env : Env) (bug : option string)
  : outcome (option UpstreamSync) :=
  let syncs := for_bug env bug in
  sync ← (if negb (bool_decide (length syncs ∈ [0; 1]%nat))
          then pick_most_recent ["open"; "incomplete"] syncs
          else Ok None);
  if negb (length syncs =? 0)%nat then Ok (syncs !! 0%nat) else Ok sync.

(** The last branch of the loop body of [updated_syncs_for_push]: the
    commit is matched with a sync of its bug or put in a create bucket. *)
Definition group_by_bug (env : Env) (commit : GeckoCommit)
    (acc : CreateSyncs * UpdateSyncs) : outcome (CreateSyncs * UpdateSyncs) :=
  let '(create_syncs, update_syncs) := acc in
  let bug := bug commit in
  sync ← match update_syncs !! bug with
         | Some (sync, _) => Ok (Some sync)
         | None => sync_for_bug env bug
         end;
  match sync with
  | Some sync =>
      if negb (in_gecko_commits commit sync) then
        Ok (create_syncs, <[bug := (sync, commit)]> update_syncs)
      else if bool_decide (pr sync = None) then
        Ok (create_syncs, <[bug := (sync, gecko_head sync)]> update_syncs)
      else Ok acc
  | None =>
      match bug with
      | None =>
          match create_syncs !! None with
          | Some (Anonymous endpoints) =>
              Ok (<[None := Anonymous (endpoints ++ [new_endpoints commit])]> create_syncs,
                  update_syncs)
          | Some (ForBug _) => Raise (OtherException "AttributeError")
          | None => Raise KeyError
          end
      | Some _ =>
          match create_syncs !! bug with
          | Some (ForBug endpoints) =>
              Ok (<[bug := ForBug (set_head commit endpoints)]> create_syncs,
                  update_syncs)
          | Some (Anonymous _) => Raise (OtherException "AttributeError")
          | None =>
              Ok (<[bug := ForBug (new_endpoints commit)]> create_syncs, update_syncs)
          end
      end
  end.

(** [create_syncs.update(create); update_syncs.update(update)] *)
Definition merge_backout (env : Env) (commit : GeckoCommit)
    (acc : CreateSyncs * UpdateSyncs) : outcome (CreateSyncs * UpdateSyncs) :=
  '(create, update) ← updates_for_backout env commit;
  Ok (create ∪ acc.1, update ∪ acc.2).

(** The body of the loop of [updated_syncs_for_push] *)
Definition process_commit (env : Env) (acc : CreateSyncs * UpdateSyncs)
    (commit : GeckoCommit) : outcome (CreateSyncs * UpdateSyncs) :=
  if has_upstream_sync commit then Ok acc
  else
    acc ← (if is_backout commit then merge_backout env commit acc else Ok acc);
    if is_downstream commit || is_landing commit then Ok acc
    else group_by_bug env commit acc.

Fixpoint process_commits (env : Env) (acc : CreateSyncs * UpdateSyncs)
    (commits : list GeckoCommit) : outcome (CreateSyncs * UpdateSyncs) :=
  match commits with
  | [] => Ok acc
  | commit :: commits =>
      acc ← process_commit env acc commit;
      process_commits env acc commits
  end.

(** [updated_syncs_for_push] on the commits that [iter_commits] yields
    for the range, parents first; [None] is the bare [return]. *)
Definition updated_syncs_for_push (env : Env) (enumerated : list GeckoCommit)
  : outcome (option (CreateSyncs * UpdateSyncs)) :=
  let commits := filter_commits enumerated in
  if (length commits =? 0)%nat then Ok None
  else
    let commits := Backouts.remove_complete_backouts commits in
    if (length commits =? 0)%nat then Ok None
    else
      r ← process_commits env ({[ None := Anonymous [] ]}, ∅) commits;
      Ok (Some r).

(** The most recently created sync in the words of the specification
    (section 4.2): the lexicographic maximum of the seq-id among the syncs
    of status "open", else among those of status "incomplete". *)
Definition max_seq_id_within (status_ : string) (syncs : list UpstreamSync)
    (chosen : UpstreamSync) : Prop :=
  chosen ∈ syncs ∧ status chosen = status_ ∧
  ∀ s, s ∈ syncs → status s = status_ → String.leb (seq_id s) (seq_id chosen) = true.

Definition most_recently_created (syncs : list UpstreamSync) (chosen : UpstreamSync)
  : Prop :=
  max_seq_id_within "open" syncs chosen
  ∨ ((∀ s, s ∈ syncs → status s ≠ "open")
     ∧ max_seq_id_within "incomplete" syncs chosen).

End Grouping.

(** ** The replay in the words of the specification *)

(** Section 4.3, step 1: the longest prefix of the gecko commits whose
    hashes are all in the index. *)
Fixpoint longest_indexed_prefix (index : gset string) (commits : list GeckoCommit)
  : list GeckoCommit :=
  match commits with
  | [] => []
  | commit :: commits =>
      if bool_decide (sha1 commit ∈ index)
      then commit :: longest_indexed_prefix index commits
      else []
  end.

(** The index of [update_wpt_commits]: [upstreamed_commits] *)
Definition upstreamed_index (env : Env) (s : UpstreamSync) : gset string :=
  list_to_set (upstreamed_gecko_commits env s).

(** What [update_wpt_commits] leaves of the side branch before it adds
    commits: nothing, the first [len(matching_commits)] commits, or all
    of them. *)
Definition retained_wpt_commits (env : Env) (s : UpstreamSync) : list WptCommit :=
  let matching := matching_commits env s in
  if (length matching =? 0)%nat then []
  else if (length matching <? length (upstreamed_gecko_commits env s))%nat
       then take (length matching) (wpt_commits s)
       else wpt_commits s.

(** The calls of [add_commit] on a list of commits, as they show in the
    trace. *)
Definition moves (commits : list GeckoCommit) : list Event :=
  (λ commit, EvMove (sha1 commit)) <$> commits.

(** The side branch replays a part of the gecko commits: its commits
    carry, in order, the canonical revisions of a subsequence of the
    gecko commits. *)
Definition replays_sublist (s : UpstreamSync) : Prop :=
  ∃ replayed : list GeckoCommit,
    replayed `sublist_of` gecko_commits s
    ∧ gecko_commit <$> wpt_commits s
      = (λ commit, Some (canonical_rev commit)) <$> replayed.

(** The hashes of the gecko commits are distinct and [hg2git] takes the
    canonical revision of each back to its hash. *)
Definition gecko_well_formed (env : Env) (s : UpstreamSync) : Prop :=
  NoDup (sha1 <$> gecko_commits s)
  ∧ ∀ commit, commit ∈ gecko_commits s → hg2git env (canonical_rev commit) = sha1 commit.


(** ** The transitions a run performs *)

(** The status changes that a trace records, in order *)
Definition status_changes (events : list Event) : list (string * string) :=
  omap (λ e, match e with EvStatus old new => Some (old, new) | _ => None end)
       events.

(** The changes lead from one status to another, each starting where the
    one before it ended. *)
Fixpoint chain (from : string) (changes : list (string * string)) (to : string)
  : Prop :=
  match changes with
  | [] => from = to
  | (old, new) :: changes => old = from ∧ chain new changes to
  end.

(** From [st] to [st'] the trace only grew, every status change it
    recorded is an allowed transition, and the status of the sync moved
    along exactly these changes. *)
Definition legal_run (st st' : State) : Prop :=
  ∃ events,
    trace st' = (trace st ++ events)%list
    ∧ Forall (λ change, change ∈ status_transitions) (status_changes events)
    ∧ chain (status (sync st)) (status_changes events) (status (sync st')).

Definition Legal {A} (m : M A) : Prop := ∀ st, legal_run st (m st).2.

Definition not_a_status_change (e : Event) : Prop :=
  match e with EvStatus _ _ => False | _ => True end.

(** ** The commit filter of a sync *)

Module BackoutCommitFilter.

(** [_filter_commit] for the filter of [bug_id]: the verdict and the new
    value of [self.seen].  [is_empty] answers
    [commit.is_empty(env.config["gecko"]["path"]["wpt"])]. *)
Definition _filter_commit (is_empty : GeckoCommit → bool) (bug_id : string)
    (seen : gset string) (commit : GeckoCommit) : bool * gset string :=
  if wptsync_skip commit then (false, seen)
  else if has_downstream_metadata commit then (false, seen)
  else if is_backout commit
          && existsb (λ backout_commit, bool_decide (bo_sha1 backout_commit ∈ seen))
                     (wpt_commits_backed_out commit).1
  then (true, seen)
  else if bool_decide (bug commit = Some bug_id) then
    if is_empty commit then (false, seen)
    else (true, seen ∪ {[ sha1 commit ]})
  else (false, seen).

(** Modelled from the spec: the commit range of a sync (sync.py, not among
    the sources) offers the commits of the range to the filter one after
    the other, parents first (section 4.1: the filter records the hashes
    of the commits it admits so that later backouts are recognised), and
    keeps those it admits. *)
Fixpoint admitted (is_empty : GeckoCommit → bool) (bug_id : string)
    (seen : gset string) (commits : list GeckoCommit)
  : list GeckoCommit * gset string :=
  match commits with
  | [] => ([], seen)
  | commit :: commits =>
      let '(keep, seen) := _filter_commit is_empty bug_id seen commit in
      let '(kept, seen) := admitted is_empty bug_id seen commits in
      (if keep then commit :: kept else kept, seen)
  end.

(** [filter_commits] *)
Definition filter_commits (commits : list GeckoCommit) : list GeckoCommit :=
  Backouts.remove_complete_backouts commits.

End BackoutCommitFilter.

(** ** Creating the syncs of a push *)

(** One call of [UpstreamSync.new] by [create_syncs]: the bug and the
    endpoints, from which [gecko_base] and [gecko_head] are read; the wpt
    base and head are always [origin/master]. *)
Record NewSync := {
  new_bug : string;
  new_range : Grouping.Endpoints
}.

#[global] Instance NewSync_eq_dec : EqDecision NewSync.
Proof. solve_decision. Defined.

(** [sync_commit.GeckoCommit(git_gecko, endpoint.head)] *)
Definition head_commit (endpoint : Grouping.Endpoints) : GeckoCommit :=
  default (Grouping.first endpoint) (Grouping.second endpoint).

(** The inner loop of [create_syncs]: [bug] is the loop variable of the
    outer loop, which the body overwrites when it files a bug; [filed]
    collects the revisions for which [env.bz.new] was called, and
    [bz_new] answers with the new bug. *)
Fixpoint create_for_endpoints (bz_new : string → string) (bug_id : option string)
    (endpoints : list Grouping.Endpoints) (rv : list NewSync) (filed : list string)
  : list NewSync * list string :=
  match endpoints with
  | [] => (rv, filed)
  | endpoint :: endpoints =>
      match bug_id with
      | None =>
          let rev := canonical_rev (head_commit endpoint) in
          let new := bz_new rev in
          create_for_endpoints bz_new (Some new) endpoints
            (rv ++ [{| new_bug := new; new_range := endpoint |}])
            (filed ++ [rev])
      | Some b =>
          create_for_endpoints bz_new (Some b) endpoints
            (rv ++ [{| new_bug := b; new_range := endpoint |}]) filed
      end
  end.

(** One iteration of the outer loop.  Under a bug the value is wrapped in
    a list, so a list there is taken for an endpoint; under [None] the
    value is iterated, which an [Endpoints] object does not support. *)
Definition create_for_key (bz_new : string → string)
    (acc : outcome (list NewSync * list string))
    (item : option string * Grouping.CreateEntry)
  : outcome (list NewSync * list string) :=
  '(rv, filed) ← acc;
  match item with
  | (Some b, Grouping.ForBug endpoint) =>
      Ok (create_for_endpoints bz_new (Some b) [endpoint] rv filed)
  | (Some b, Grouping.Anonymous _) => Raise (OtherException "AttributeError")
  | (None, Grouping.Anonymous endpoints) =>
      Ok (create_for_endpoints bz_new None endpoints rv filed)
  | (None, Grouping.ForBug _) => Raise (OtherException "TypeError")
  end.

(** [create_syncs]: the calls of [UpstreamSync.new], in order, and the
    revisions for which a bug was filed.  [iteritems] enumerates the
    dictionary in some order; the model takes the order of [map_to_list]. *)
Definition create_syncs (bz_new : string → string)
    (create_endpoints : Grouping.CreateSyncs)
  : outcome (list NewSync * list string) :=
  foldl (create_for_key bz_new) (Ok ([], [])) (map_to_list create_endpoints).

(** The calls and the filed revisions that one well-shaped item of the
    dictionary contributes, in closed form *)
Definition requests_for (bz_new : string → string)
    (item : option string * Grouping.CreateEntry) : list NewSync :=
  match item with
  | (Some b, Grouping.ForBug endpoint) => [{| new_bug := b; new_range := endpoint |}]
  | (None, Grouping.Anonymous (first_endpoint :: endpoints)) =>
      (λ endpoint,
         {| new_bug := bz_new (canonical_rev (head_commit first_endpoint));
            new_range := endpoint |}) <$> (first_endpoint :: endpoints)
  | _ => []
  end.

Definition filed_for (item : option string * Grouping.CreateEntry) : list string :=
  match item with
  | (None, Grouping.Anonymous (first_endpoint :: _)) =>
      [canonical_rev (head_commit first_endpoint)]
  | _ => []
  end.

(** ** A sync for an upstream pull request *)

Module FromPr.

(** [has_metadata], on the dictionary that [get_metadata] reads from a
    message *)
Definition has_metadata (metadata : gmap string string) : bool :=
  forallb (λ item, bool_decide (is_Some (metadata !! item)))
          ["gecko-commit"; "gecko-integration-branch"; "bugzilla-url"].

(** A commit of the pull request: [gh_commit.sha] and the metadata of its
    message *)
Record PrCommit := {
  pc_sha : string;
  pc_metadata : gmap string string
}.

(** The positional arguments of the call of [cls.new] *)
Inductive PyValue := PyInt (n : Z) | PyStr (s : string).

Record NewCall := {
  gecko_base : string;
  gecko_head : string;
  wpt_base : string;
  wpt_head : string;
  bug : string;
  status : PyValue
}.

(** The loop over the commits of the pull request.  It returns
    [gecko_commits] and [bug] as they are when the loop ends, by
    exhaustion or by [break]; a missing key of a dictionary raises. *)
Fixpoint scan (hg2git : string → string) (id_from_url : string → option string)
    (commits : list PrCommit) (gecko_commits : list string)
    (bug integration_branch : option string)
  : outcome (list string * option string) :=
  match commits with
  | [] => Ok (gecko_commits, bug)
  | commit :: commits =>
      if has_metadata (pc_metadata commit) then
        match pc_metadata commit !! "gecko-commit" with
        | None => Raise KeyError
        | Some gecko_commit =>
            let gecko_commits := (gecko_commits ++ [hg2git gecko_commit])%list in
            match pc_metadata commit !! "bugzilla-url" with
            | None => Raise KeyError
            | Some url =>
                let commit_bug := id_from_url url in
                if negb (bool_decide (bug = None))
                   && negb (bool_decide (commit_bug = bug))
                then Ok (gecko_commits, bug)
                else
                  let bug := if bool_decide (bug = None) then commit_bug else bug in
                  match pc_metadata commit !! "integration_branch" with
                  | None => Raise KeyError
                  | Some branch =>
                      let integration_branch :=
                        match integration_branch with
                        | None => Some branch
                        | Some _ => integration_branch
                        end in
                      scan hg2git id_from_url commits gecko_commits bug
                           integration_branch
                  end
            end
        end
      else Ok (gecko_commits, bug)
  end.

(** [from_pr]: [None], or the arguments with which [cls.new] is called.
    [body] is the metadata of the body of the pull request, [commits]
    what [env.gh_wpt.get_commits(pr_id)] returns. *)
Definition from_pr (hg2git : string → string)
    (id_from_url : string → option string) (rev_parse : string → string)
    (pr_id : Z) (body : gmap string string) (commits : list PrCommit)
  : outcome (option NewCall) :=
  if negb (has_metadata body) then Ok None
  else
    '(gecko_commits, bug) ← scan hg2git id_from_url commits [] None None;
    match gecko_commits !! 0%nat, last gecko_commits with
    | Some first_commit, Some last_commit =>
        if negb (truthy_str bug) then Raise AssertionError
        else
          match last commits, commits !! 0%nat with
          | Some last_pr_commit, Some first_pr_commit =>
              Ok (Some {| gecko_base := rev_parse (first_commit ++ "^");
                          gecko_head := rev_parse last_commit;
                          wpt_base := pc_sha first_pr_commit;
                          wpt_head := pc_sha last_pr_commit;
                          bug := default "" bug;
                          status := PyInt pr_id |})
          | _, _ => Raise IndexError
          end
    | _, _ => Ok None
    end.

End FromPr.

(** ** What a run keeps *)

(** Every run of [m] relates the state before to the state after, also
    when it ends in an exception. *)
Definition Runs (R : State → State → Prop) {A} (m : M A) : Prop :=
  ∀ st, R st (m st).2.

(** The identity of a sync and its gecko side *)
Definition same_gecko (s s' : UpstreamSync) : Prop :=
  obj_id s' = obj_id s ∧ seq_id s' = seq_id s
  ∧ gecko_commits s' = gecko_commits s ∧ gecko_head s' = gecko_head s.

(** A pull request, once recorded, stays. *)
Definition pr_kept (s s' : UpstreamSync) : Prop :=
  truthy_int (pr s) = true → pr s' = pr s.

(** The remote branch is a short name, not a full reference. *)
Definition branch_ok (s : UpstreamSync) : Prop :=
  match remote_branch s with
  | Some name => String.prefix "refs/" name = false
  | None => True
  end.

Definition kept (st st' : State) : Prop :=
  same_gecko (sync st) (sync st')
  ∧ pr_kept (sync st) (sync st')
  ∧ (branch_ok (sync st) → branch_ok (sync st')).

(** The calls made between two states of one run *)
Definition new_events (st st' : State) : list Event :=
  drop (length (trace st)) (trace st').

(** Between the two states only calls that satisfy [P] were made. *)
Definition emits_only (P : Event → Prop) (st st' : State) : Prop :=
  ∃ events, trace st' = (trace st ++ events)%list ∧ Forall P events.

Definition is_merge (e : Event) : Prop :=
  match e with EvMergePull _ => True | _ => False end.

Definition is_create_pull (e : Event) : Prop :=
  match e with EvCreatePull _ _ => True | _ => False end.

Definition is_close_pull (e : Event) : Prop :=
  match e with EvClosePull _ => True | _ => False end.

(** The operations that reach [try_land_pr] *)
Definition may_land (cmd : Command) : bool :=
  match cmd with
  | CmdTryLandPr | CmdUpdateSync _ | CmdCommitCheckChanged => true
  | _ => false
  end.

(** A call that neither merges nor creates a pull request *)
Definition quiet (e : Event) : Prop := ¬ is_merge e ∧ ¬ is_create_pull e.

(** A sync that has a pull request gets no other one. *)
Definition one_pull (st st' : State) : Prop :=
  kept st st'
  ∧ (truthy_int (pr (sync st)) = true →
     emits_only (λ e, ¬ is_create_pull e) st st').

(** A write to the sync that leaves its identity, its gecko side, its
    pull request and its remote branch alone *)
Definition frame_safe (f : UpstreamSync → UpstreamSync) : Prop :=
  ∀ s, same_gecko s (f s) ∧ pr (f s) = pr s
       ∧ remote_branch (f s) = remote_branch s.

(** The calls of the replay: resetting and cleaning the worktree, moving a
    commit *)
Definition is_worktree (e : Event) : Prop :=
  match e with
  | EvWorktreeReset | EvWorktreeClean | EvMove _ => True
  | _ => False
  end.

(** Only the wpt range of the sync changed and only the worktree was
    touched. *)
Definition wpt_only (st st' : State) : Prop :=
  (∃ base commits, sync st' = with_wpt base commits (sync st))
  ∧ emits_only is_worktree st st'.

(** The shape of [create_syncs] that [create_syncs()] relies on: a list
    under the key [None], one [Endpoints] under every bug. *)
Definition create_shape (m : Grouping.CreateSyncs) : Prop :=
  (∃ endpoints, m !! None = Some (Grouping.Anonymous endpoints))
  ∧ ∀ bug_id entry, m !! Some bug_id = Some entry →
      ∃ endpoints, entry = Grouping.ForBug endpoints.

(** The calls that close a sync down: a comment on the bug, the change of
    status and the deletion of the remote branch *)
Definition closing_only (e : Event) : Prop :=
  match e with
  | EvBzComment _ _ | EvStatus _ _ | EvPushDelete _ => True
  | _ => False
  end.

Definition same_merge_sha (st st' : State) : Prop :=
  merge_sha (sync st') = merge_sha (sync st).

(** ** Side branches with leftovers *)

(** A commit of the side branch replays a commit of the gecko range: its
    [gecko-commit] revision is, for [hg2git], the hash of one of the
    gecko commits. *)
Definition replays_gecko (env : Env) (s : UpstreamSync) (w : WptCommit) : bool :=
  match gecko_commit w with
  | Some rev => bool_decide (hg2git env rev ∈ sha1 <$> gecko_commits s)
  | None => false
  end.

(** The commits of the side branch that replay a commit of the gecko
    range *)
Definition replays_of_range (env : Env) (s : UpstreamSync) : list WptCommit :=
  filter (λ w, replays_gecko env s w = true) (wpt_commits s).

(** The side branch replays a part of the gecko commits and then holds
    leftovers: replays of gecko commits that are no longer in the range.
    When there are leftovers, the replayed commits are the first gecko
    commits, without a gap. *)
Definition replays_then_leftovers (env : Env) (s : UpstreamSync) : Prop :=
  ∃ (replayed : list GeckoCommit) (kept leftovers : list WptCommit),
    wpt_commits s = (kept ++ leftovers)%list
    ∧ replayed `sublist_of` gecko_commits s
    ∧ gecko_commit <$> kept = (λ commit, Some (canonical_rev commit)) <$> replayed
    ∧ Forall (λ w, is_Some (gecko_commit w) ∧ replays_gecko env s w = false) leftovers
    ∧ (leftovers = [] ∨ replayed `prefix_of` gecko_commits s).

(** ** Backouts that a sync already holds *)

(** The test that ends [updates_for_backout] early: the sync of one of
    the backed-out commits has the backout among its gecko commits. *)
Definition backout_in_sync (env : Env) (commit : GeckoCommit) : Prop :=
  ∃ (backed_out : BackedOut) (sync : UpstreamSync),
    backed_out ∈ (wpt_commits_backed_out commit).1
    ∧ last (for_bug env (bo_bug backed_out)) = Some sync
    ∧ Grouping.in_gecko_commits commit sync = true.

(** How often a value occurs in a list *)
Definition times {A} `{EqDecision A} (x : A) (l : list A) : nat :=
  length (filter (λ y, y = x) l).

(** ** Concrete histories

    The scenarios of section 8 of the specification and the inputs at
    which the code is evaluated below. *)

Module Examples.

Definition commit (sha : string) (bug_id : option string) : GeckoCommit :=
  {| sha1 := sha; canonical_rev := "hg-" ++ sha; bug := bug_id;
     is_backout := false; wpt_commits_backed_out := ([], []);
     is_downstream := false; is_landing := false; has_upstream_sync := false;
     wptsync_skip := false; has_downstream_metadata := false;
     email := "author@example.org" |}.

Definition backout (sha : string) (bug_id : option string)
    (backed_out : list BackedOut) (bugs : list string) : GeckoCommit :=
  {| sha1 := sha; canonical_rev := "hg-" ++ sha; bug := bug_id;
     is_backout := true; wpt_commits_backed_out := (backed_out, bugs);
     is_downstream := false; is_landing := false; has_upstream_sync := false;
     wptsync_skip := false; has_downstream_metadata := false;
     email := "sheriff@example.org" |}.

(** S3: commit X of bug 1003 and, in a later push, its backout Y *)
Definition X : GeckoCommit := commit "x" (Some "1003").
Definition Y : GeckoCommit :=
  backout "y" (Some "1003") [{| bo_sha1 := "x"; bo_bug := Some "1003" |}] ["1003"].

(** The replay of a gecko commit on the side branch *)
Definition replay (c : GeckoCommit) : WptCommit :=
  {| wpt_sha1 := "wpt-" ++ sha1 c; gecko_commit := Some (canonical_rev c) |}.

(** An environment in which every call succeeds, nothing has landed, the
    PR is open and no sync is known for any bug; [move] creates a commit
    for every gecko commit except those listed in [no_effect]. *)
Definition env_with (no_effect : list string) (delete_result : option Exn)
    (syncs : option string → list UpstreamSync) : Env :=
  {| is_ancestor := λ _, false;
     hg2git := λ rev, String.substring 3 (String.length rev - 3) rev;
     gecko_repo := λ _, Some "autoland";
     patch_exists := λ _, false;
     move := λ _ c, if bool_decide (sha1 c ∈ no_effect) then NoChange
                    else Moved ("wpt-" ++ sha1 c);
     rebased := λ _ commits, commits;
     sync_point_upstream := "sync-point";
     pull_state := λ _, "open";
     pull_merged := λ _, false;
     gh_merge_sha := λ _, None;
     gh_check_runs := λ _, ∅;
     is_mergeable := λ _, true;
     is_approved := λ _, true;
     merge_pull := λ _, inr "merge";
     create_pull := λ _ _, 7%Z;
     origin_refs := ∅;
     origin_refs_after_push := ∅;
     branch_upstream := None;
     wpt_references := ∅;
     push_error := λ _, None;
     push_delete := λ _, delete_result;
     bugsy_fails := λ _, false;
     needinfo_upstream := [];
     github_user := "wpt-sync-bot";
     summary := λ _, "summary";
     for_bug := syncs |}.

Definition env0 : Env := env_with [] None (λ _, []).

Definition sync_of (bug_id seq status_ : string) (pr_id : option Z)
    (remote : option string) (gecko : list GeckoCommit) (gecko_head_ : GeckoCommit)
    (wpt : list WptCommit) : UpstreamSync :=
  {| obj_id := bug_id; seq_id := seq; status := status_; pr := pr_id;
     remote_branch := remote; merge_sha := None; pr_status := "open";
     last_pr_check := None; error := None; gecko_commits := gecko;
     gecko_head := gecko_head_; wpt_base := "origin/master"; wpt_commits := wpt |}.

Definition start (s : UpstreamSync) : State := {| sync := s; trace := [] |}.

(** S3 after push 2: the head of the sync is Y, the gecko range is what
    [remove_complete_backouts] leaves of X and Y, the PR is 7 and the
    side branch holds the replay of X. *)
Definition sync_backed_out : UpstreamSync :=
  sync_of "1003" "0" "open" (Some 7%Z) (Some "gecko/1003")
          (Backouts.remove_complete_backouts [X; Y]) Y [replay X].

(** A sync of bug 1001 whose PR was merged and whose remote branch cannot
    be deleted *)
Definition env_delete_fails : Env := env_with [] (Some GitCommandError) (λ _, []).

Definition sync_pushed : UpstreamSync :=
  sync_of "1001" "0" "open" (Some 7%Z) (Some "gecko/1001")
          [commit "a" (Some "1001")] (commit "a" (Some "1001"))
          [replay (commit "a" (Some "1001"))].

(** Bug 1004 has the commits a, b and c, of which b changes nothing
    upstream; the side branch holds the replays of a and c. *)
Definition env_b_no_effect : Env := env_with ["b"] None (λ _, []).

Definition a : GeckoCommit := commit "a" (Some "1004").
Definition b : GeckoCommit := commit "b" (Some "1004").
Definition c : GeckoCommit := commit "c" (Some "1004").

Definition sync_hole : UpstreamSync :=
  sync_of "1004" "0" "open" None None [a; b; c] c [replay a; replay c].



(** Bug 1005 has two open syncs, as after a crash between the creation
    of the second and the closing of the first; the lookup lists the
    older one first. *)
Definition sync_older : UpstreamSync :=
  sync_of "1005" "0" "open" None None [] (commit "p" (Some "1005")) [].

Definition sync_newer : UpstreamSync :=
  sync_of "1005" "1" "open" None None [] (commit "q" (Some "1005")) [].

Definition env_two_open : Env :=
  env_with [] None
           (λ bug_id, if bool_decide (bug_id = Some "1005")
                      then [sync_older; sync_newer] else []).

(** Bug 1006 has an incomplete sync and an open one, the incomplete one
    listed first. *)
Definition sync_stalled : UpstreamSync :=
  sync_of "1006" "0" "incomplete" None None [] (commit "r" (Some "1006")) [].

Definition sync_active : UpstreamSync :=
  sync_of "1006" "1" "open" None None [] (commit "s" (Some "1006")) [].

Definition env_stalled_and_open : Env :=
  env_with [] None
           (λ bug_id, if bool_decide (bug_id = Some "1006")
                      then [sync_stalled; sync_active] else []).

(** The sync of bug 1003 after push 1 of S3, and a backout of X that is
    filed under another bug, 2000, which has no sync *)
Definition sync_X : UpstreamSync :=
  sync_of "1003" "0" "open" (Some 7%Z) (Some "gecko/1003") [X] X [replay X].

Definition env_sync_X : Env :=
  env_with [] None
           (λ bug_id, if bool_decide (bug_id = Some "1003") then [sync_X] else []).



(** The maps with which the loop of [updated_syncs_for_push] starts *)
Definition no_syncs : Grouping.CreateSyncs * Grouping.UpdateSyncs :=
  ({[ None := Grouping.Anonymous [] ]}, ∅).

(** Everything has landed on central, the checks of the pull request
    passed and it can be merged. *)
Definition env_landed : Env :=
  {| is_ancestor := λ _, true;
     hg2git := hg2git env0;
     gecko_repo := gecko_repo env0;
     patch_exists := patch_exists env0;
     move := move env0;
     rebased := rebased env0;
     sync_point_upstream := sync_point_upstream env0;
     pull_state := pull_state env0;
     pull_merged := pull_merged env0;
     gh_merge_sha := gh_merge_sha env0;
     gh_check_runs := gh_check_runs env0;
     is_mergeable := is_mergeable env0;
     is_approved := is_approved env0;
     merge_pull := merge_pull env0;
     create_pull := create_pull env0;
     origin_refs := origin_refs env0;
     origin_refs_after_push := origin_refs_after_push env0;
     branch_upstream := branch_upstream env0;
     wpt_references := wpt_references env0;
     push_error := push_error env0;
     push_delete := push_delete env0;
     bugsy_fails := bugsy_fails env0;
     needinfo_upstream := needinfo_upstream env0;
     github_user := github_user env0;
     summary := summary env0;
     for_bug := for_bug env0 |}.

(** The branch gecko/1004 exists at the remote. *)
Definition env_branch_pushed : Env :=
  {| is_ancestor := is_ancestor env0;
     hg2git := hg2git env0;
     gecko_repo := gecko_repo env0;
     patch_exists := patch_exists env0;
     move := move env0;
     rebased := rebased env0;
     sync_point_upstream := sync_point_upstream env0;
     pull_state := pull_state env0;
     pull_merged := pull_merged env0;
     gh_merge_sha := gh_merge_sha env0;
     gh_check_runs := gh_check_runs env0;
     is_mergeable := is_mergeable env0;
     is_approved := is_approved env0;
     merge_pull := merge_pull env0;
     create_pull := create_pull env0;
     origin_refs := {[ "gecko/1004" := "wpt-a" ]};
     origin_refs_after_push := {[ "gecko/1004" := "wpt-a" ]};
     branch_upstream := branch_upstream env0;
     wpt_references := wpt_references env0;
     push_error := push_error env0;
     push_delete := push_delete env0;
     bugsy_fails := bugsy_fails env0;
     needinfo_upstream := needinfo_upstream env0;
     github_user := github_user env0;
     summary := summary env0;
     for_bug := for_bug env0 |}.

(** A sync whose only commit is replayed and that has no pull request *)
Definition sync_replayed : UpstreamSync :=
  sync_of "1004" "0" "open" None None [a] a [replay a].

(** A required check that failed and a check that is not required *)
Definition failed_check : Checks.CheckRun :=
  {| Checks.status := "completed"; Checks.conclusion := Some "failure";
     Checks.required := true; Checks.head_sha := "wpt-a";
     Checks.url := "https://example.org/lint" |}.

Definition optional_check : Checks.CheckRun :=
  {| Checks.status := "queued"; Checks.conclusion := None;
     Checks.required := false; Checks.head_sha := "wpt-a";
     Checks.url := "https://example.org/docs" |}.

Definition env_check_failed : Env :=
  {| is_ancestor := is_ancestor env0;
     hg2git := hg2git env0;
     gecko_repo := gecko_repo env0;
     patch_exists := patch_exists env0;
     move := move env0;
     rebased := rebased env0;
     sync_point_upstream := sync_point_upstream env0;
     pull_state := pull_state env0;
     pull_merged := pull_merged env0;
     gh_merge_sha := gh_merge_sha env0;
     gh_check_runs := λ _, {[ "lint" := failed_check ]};
     is_mergeable := is_mergeable env0;
     is_approved := is_approved env0;
     merge_pull := merge_pull env0;
     create_pull := create_pull env0;
     origin_refs := origin_refs env0;
     origin_refs_after_push := origin_refs_after_push env0;
     branch_upstream := branch_upstream env0;
     wpt_references := wpt_references env0;
     push_error := push_error env0;
     push_delete := push_delete env0;
     bugsy_fails := bugsy_fails env0;
     needinfo_upstream := needinfo_upstream env0;
     github_user := github_user env0;
     summary := summary env0;
     for_bug := for_bug env0 |}.

(** The pull request of the sync was closed without a merge. *)
Definition sync_pr_closed : UpstreamSync := with_pr_status "closed" sync_pushed.

(** The maps after a commit without a bug was put in the anonymous list *)
Definition one_anonymous : Grouping.CreateSyncs * Grouping.UpdateSyncs :=
  ({[ None := Grouping.Anonymous [Grouping.new_endpoints (commit "n" None)] ]}, ∅).

(** Two commits without a bug wait for a sync to be created. *)
Definition two_anonymous : Grouping.CreateSyncs :=
  {[ None := Grouping.Anonymous [Grouping.new_endpoints (commit "n" None);
                                 Grouping.new_endpoints (commit "m" None)] ]}.

(** The metadata that the replay writes in a wpt commit, and the same
    with an [integration_branch] entry *)
Definition replay_metadata : gmap string string :=
  {[ "gecko-commit" := "hg-a";
     "gecko-integration-branch" := "autoland";
     "bugzilla-url" := "https://bugzilla.mozilla.org/show_bug.cgi?id=1004" ]}.

Definition pr_commit_replayed : FromPr.PrCommit :=
  {| FromPr.pc_sha := "wpt-a"; FromPr.pc_metadata := replay_metadata |}.

Definition pr_commit_with_branch : FromPr.PrCommit :=
  {| FromPr.pc_sha := "wpt-a";
     FromPr.pc_metadata := <["integration_branch" := "autoland"]> replay_metadata |}.

Definition pr_call : FromPr.NewCall :=
  {| FromPr.gecko_base := "a^"; FromPr.gecko_head := "a";
     FromPr.wpt_base := "wpt-a"; FromPr.wpt_head := "wpt-a";
     FromPr.bug := "1004"; FromPr.status := FromPr.PyInt 7 |}.

(** A commit that already belongs to an upstream sync *)
Definition processed : GeckoCommit :=
  {| sha1 := "d"; canonical_rev := "hg-d"; bug := Some "1007";
     is_backout := false; wpt_commits_backed_out := ([], []);
     is_downstream := false; is_landing := false; has_upstream_sync := true;
     wptsync_skip := false; has_downstream_metadata := false;
     email := "author@example.org" |}.

(** The pull request was merged upstream and is closed. *)
Definition env_merged : Env :=
  {| is_ancestor := is_ancestor env0;
     hg2git := hg2git env0;
     gecko_repo := gecko_repo env0;
     patch_exists := patch_exists env0;
     move := move env0;
     rebased := rebased env0;
     sync_point_upstream := sync_point_upstream env0;
     pull_state := λ _, "closed";
     pull_merged := λ _, true;
     gh_merge_sha := gh_merge_sha env0;
     gh_check_runs := gh_check_runs env0;
     is_mergeable := is_mergeable env0;
     is_approved := is_approved env0;
     merge_pull := merge_pull env0;
     create_pull := create_pull env0;
     origin_refs := origin_refs env0;
     origin_refs_after_push := origin_refs_after_push env0;
     branch_upstream := branch_upstream env0;
     wpt_references := wpt_references env0;
     push_error := push_error env0;
     push_delete := push_delete env0;
     bugsy_fails := bugsy_fails env0;
     needinfo_upstream := needinfo_upstream env0;
     github_user := github_user env0;
     summary := summary env0;
     for_bug := for_bug env0 |}.

(** Bug 1004 after commit x left the gecko range: the range is a, the
    side branch still holds the replays of a and of x. *)
Definition sync_leftover : UpstreamSync :=
  sync_of "1004" "0" "open" None None [a] a
          [replay a; replay (commit "x" (Some "1004"))].

End Examples.

(** * Properties *)

(** ** Backout cancellation *)

Section BackoutFacts.
Import Backouts.

Lemma cancellation_foldl S L : cancellation S L (foldl remove_step S L).
Proof.
  revert S. induction L as [|c L IH]; intros S; simpl.
  - constructor.
  - unfold remove_step at 2.
    destruct (is_backout c) eqn:Hb.
    + case_bool_decide as Hsub.
      * apply cancel_drop; auto.
      * apply cancel_keep; auto.
    + apply cancel_push; auto.
Qed.

Lemma cancellation_functional S L S1 :
  cancellation S L S1 → S1 = foldl remove_step S L.
Proof.
  induction 1 as [S|S c L S' Hb _ IH|S c L S' Hb Hsub _ IH|S c L S' Hb Hsub _ IH];
    simpl; auto; rewrite IH; f_equal; unfold remove_step; rewrite Hb; auto.
  - rewrite bool_decide_eq_true_2; auto.
  - rewrite bool_decide_eq_false_2; auto.
Qed.

(** C1: for every list L of gecko commits, [remove_complete_backouts L]
    is the output of the cancellation law: the iteration of the law from
    the empty set ends in exactly one set S, and the result is the
    subsequence of L whose hashes are in S, in the order of L. *)
Theorem remove_complete_backouts_cancellation_law (L : list GeckoCommit) :
  ∃ S, cancellation ∅ L S
       ∧ (∀ S', cancellation ∅ L S' → S' = S)
       ∧ remove_complete_backouts L = law_output L S
       ∧ remove_complete_backouts L `sublist_of` L.
Proof.
  exists (commits_remaining_after L). repeat split.
  - apply cancellation_foldl.
  - intros S' HS'. apply cancellation_functional, HS'.
  - apply sublist_filter.
Qed.

End BackoutFacts.

(** ** The CI verdict *)

Section CheckFacts.
Import Checks.

Lemma elem_of_itervalues checks item :
  item ∈ itervalues checks ↔ ∃ name, checks !! name = Some item.
Proof.
  unfold itervalues. rewrite list_elem_of_fmap. split.
  - intros [[name x] [-> Hin]]. exists name. by apply elem_of_map_to_list in Hin.
  - intros [name Hname]. exists (name, item). split; [done|].
    by apply elem_of_map_to_list.
Qed.

Lemma conclusion_ok_iff item :
  conclusion_ok item = true
  ↔ conclusion item = Some "success" ∨ conclusion item = Some "neutral".
Proof.
  unfold conclusion_ok. destruct (conclusion item) as [c|].
  - rewrite orb_true_iff, !String.eqb_eq. split; intros [H|H]; subst; auto.
    + inversion H; auto.
    + inversion H; auto.
  - split; [done | intros [H|H]; discriminate].
Qed.

Lemma commit_checks_pass_iff checks :
  commit_checks_pass checks = true ↔ all_required_pass checks.
Proof.
  unfold commit_checks_pass, all_required_pass. rewrite forallb_forall. split.
  - intros H name item Hname Hreq.
    specialize (H item). rewrite <- list_elem_of_In, elem_of_itervalues in H.
    specialize (H (ex_intro _ name Hname)).
    rewrite Hreq in H. simpl in H.
    apply andb_true_iff in H as [H1 H2].
    apply String.eqb_eq in H1. by apply conclusion_ok_iff in H2.
  - intros H item Hin.
    apply list_elem_of_In, elem_of_itervalues in Hin as [name Hname].
    destruct (required item) eqn:Hreq; [simpl | done].
    destruct (H name item Hname Hreq) as [H1 H2].
    apply andb_true_iff. split; [by apply String.eqb_eq | by apply conclusion_ok_iff].
Qed.

Lemma commit_checks_complete_iff checks :
  commit_checks_complete checks = true ↔ ¬ some_not_completed checks.
Proof.
  unfold commit_checks_complete, some_not_completed. rewrite forallb_forall. split.
  - intros H (name & item & Hname & Hne). apply Hne.
    apply String.eqb_eq, H, list_elem_of_In, elem_of_itervalues. eauto.
  - intros H item Hin.
    apply list_elem_of_In, elem_of_itervalues in Hin as [name Hname].
    destruct (String.eqb (status item) "completed") eqn:E; [done|].
    exfalso. apply H. exists name, item. split; [done|].
    by apply String.eqb_neq.
Qed.

Lemma commit_checks_complete_false checks :
  commit_checks_complete checks = false → some_not_completed checks.
Proof.
  unfold commit_checks_complete, some_not_completed.
  pose proof (λ item, proj1 (elem_of_itervalues checks item)) as Hin.
  revert Hin. generalize (itervalues checks) as l.
  induction l as [|item l IH]; simpl; intros Hin Hf; [discriminate|].
  destruct (String.eqb (status item) "completed") eqn:E; simpl in Hf.
  - apply IH; [|done]. intros item' Hitem'. apply Hin. by right.
  - destruct (Hin item) as [name Hname]; [by left|].
    exists name, item. split; [done | by apply String.eqb_neq].
Qed.

(** C6: for every map of check runs the CI evaluation is SUCCESS exactly
    when all required checks are completed with a conclusion among
    success and neutral, PENDING exactly when that does not hold and some
    check is not completed, and FAILURE in every other case. *)
Theorem get_check_status_verdict (checks : gmap string CheckRun) :
  ((get_check_status checks).1 = SUCCESS ↔ all_required_pass checks)
  ∧ ((get_check_status checks).1 = PENDING
     ↔ some_not_completed checks ∧ ¬ all_required_pass checks)
  ∧ ((get_check_status checks).1 = FAILURE
     ↔ ¬ all_required_pass checks ∧ ¬ some_not_completed checks)
  ∧ (get_check_status checks).2 = checks.
Proof.
  unfold get_check_status; simpl.
  pose proof (commit_checks_pass_iff checks) as Hp.
  pose proof (commit_checks_complete_iff checks) as Hc.
  pose proof (commit_checks_complete_false checks) as Hq.
  destruct (commit_checks_pass checks) eqn:Ep; simpl.
  - assert (all_required_pass checks) as HP by (by apply Hp).
    split; [|split; [|split]]; [split; intros H; first [tauto | discriminate] ..|done].
  - assert (¬ all_required_pass checks) as HP.
    { intros H. apply Hp in H. discriminate. }
    destruct (commit_checks_complete checks) eqn:Ec; simpl.
    + assert (¬ some_not_completed checks) as HQ by (by apply Hc).
      split; [|split; [|split]]; [split; intros H; first [tauto | discriminate] ..|done].
    + assert (some_not_completed checks) as HQ by (by apply Hq).
      split; [|split; [|split]]; [split; intros H; first [tauto | discriminate] ..|done].
Qed.

End CheckFacts.

(** ** Landing on central *)

Lemma forallb_eqb_true (first : bool) (landed : list bool) :
  forallb (λ item, Bool.eqb item first) landed = true ↔ Forall (λ item, item = first) landed.
Proof.
  induction landed as [|x l IH]; simpl.
  - split; [constructor | done].
  - rewrite andb_true_iff, IH, Forall_cons. by rewrite Bool.eqb_true_iff.
Qed.

(** C10: [gecko_landed] always returns a boolean (it never raises), and
    the boolean is true exactly when the list of gecko commits is not
    empty and every commit in it is an ancestor of central; so the answer
    is false for the empty list and for a list of which only a part has
    landed. *)
Theorem gecko_landed_iff (env : Env) (s : UpstreamSync) :
  ∃ b, gecko_landed env s = Ok b
       ∧ (b = true
          ↔ gecko_commits s ≠ []
            ∧ Forall (λ commit, is_ancestor env (sha1 commit) = true) (gecko_commits s)).
Proof.
  unfold gecko_landed.
  destruct (gecko_commits s) as [|c l] eqn:Hg; simpl.
  - exists false. split; [done|]. split; [done | by intros [? _]].
  - destruct (is_ancestor env (sha1 c)) eqn:Hc; rewrite ?Hc; simpl.
    + destruct (forallb _ _) eqn:Hall; simpl.
      * exists true. split; [done|]. split; [|done]. intros _. split; [done|].
        constructor; [done|].
        apply forallb_eqb_true in Hall.
        rewrite Forall_fmap in Hall. done.
      * exists false. split; [done|]. split; [done|]. intros [_ HF].
        apply Forall_cons in HF as [_ HF].
        assert (forallb (λ item, Bool.eqb item true)
                  ((λ commit, is_ancestor env (sha1 commit)) <$> l) = true) as Hyes.
        { apply forallb_eqb_true. by rewrite Forall_fmap. }
        exact (eq_trans (eq_sym Hall) Hyes).
    + destruct (forallb _ _); simpl; exists false; (split; [done|]);
        (split; [done|]); intros [_ HF]; apply Forall_cons in HF as [HF _]; congruence.
Qed.

(** ** Finishing a sync *)

Ltac run_m :=
  unfold mbind, M_bind, mret, M_ret, get_sync, modify_sync, emit, raise, assert,
    lift in *; simpl in *.

Lemma set_status_allowed (value : string) (st : State) :
  status (sync st) = value ∨ (status (sync st), value) ∈ status_transitions →
  ∃ st', set_status value st = (Ok tt, st')
         ∧ sync st' = with_status value (sync st)
         ∧ (trace st' = trace st
            ∨ trace st' = (trace st ++ [EvStatus (status (sync st)) value])%list).
Proof.
  intros Hok. unfold set_status. run_m.
  destruct (String.eqb (status (sync st)) value) eqn:E.
  - apply String.eqb_eq in E. exists st. split; [done|]. split; [|by left].
    destruct st as [s t]; simpl in *. destruct s; simpl in *. by subst.
  - apply String.eqb_neq in E. destruct Hok as [?|Hok]; [done|].
    rewrite bool_decide_eq_true_2 by done.
    eexists. split; [done|]. split; [done | by right].
Qed.

(** C9, as amended: for every terminal status, [finish] on a sync whose
    remote branch is set and whose transition to that status is allowed
    attempts to delete the remote branch as its last call, does not
    propagate a [GitCommandError] of the deletion, and clears
    [remote_branch] when the deletion succeeded; when the deletion failed
    [remote_branch] keeps its value. *)
Theorem finish_terminal (env : Env) (value remote : string) (st : State) :
  value ∈ ["wpt-merged"; "complete"] →
  remote_branch (sync st) = Some remote →
  remote ≠ "" →
  status (sync st) = value ∨ (status (sync st), value) ∈ status_transitions →
  push_delete env remote = None ∨ push_delete env remote = Some GitCommandError →
  ∃ st', finish env value st = (Ok tt, st')
         ∧ status (sync st') = value
         ∧ last (trace st') = Some (EvPushDelete remote)
         ∧ (push_delete env remote = None → remote_branch (sync st') = None)
         ∧ (push_delete env remote = Some GitCommandError
            → remote_branch (sync st') = Some remote).
Proof.
  intros Hterm Hremote Hne Hok Hdel.
  destruct (set_status_allowed value st Hok) as (st1 & Hset & Hsync & _).
  unfold finish, base_finish. run_m. rewrite Hset.
  rewrite bool_decide_eq_true_2 by done.
  rewrite Hsync. simpl. rewrite Hremote. simpl.
  apply String.eqb_neq in Hne. rewrite Hne. simpl.
  destruct Hdel as [Hdel|Hdel]; rewrite Hdel; simpl.
  - unfold set_remote_branch. run_m.
    eexists. split; [done|]. simpl. rewrite last_snoc, Hsync. simpl.
    split; [done|]. split; [done|]. split; [done | discriminate].
  - eexists. split; [done|]. simpl. rewrite last_snoc, Hsync. simpl.
    split; [done|]. split; [done|]. split; [discriminate | done].
Qed.

Lemma finish_terminal_witness :
  ∃ st', finish Examples.env0 "complete" (Examples.start Examples.sync_pushed)
         = (Ok tt, st')
         ∧ status (sync st') = "complete"
         ∧ last (trace st') = Some (EvPushDelete "gecko/1001")
         ∧ (push_delete Examples.env0 "gecko/1001" = None
            → remote_branch (sync st') = None)
         ∧ (push_delete Examples.env0 "gecko/1001" = Some GitCommandError
            → remote_branch (sync st') = Some "gecko/1001").
Proof.
  apply (finish_terminal Examples.env0 "complete" "gecko/1001"
           (Examples.start Examples.sync_pushed)).
  - set_solver.
  - reflexivity.
  - discriminate.
  - right. vm_compute. set_solver.
  - left. reflexivity.
Defined.

(** C9, the claim as stated fails: when the deletion of the remote branch
    raises [GitCommandError], [finish("complete")] returns normally and
    [remote_branch] is still set afterwards. *)
Lemma finish_delete_error_keeps_remote_branch :
  ∃ st', finish Examples.env_delete_fails "complete"
           (Examples.start Examples.sync_pushed) = (Ok tt, st')
         ∧ trace st' = [EvStatus "open" "complete"; EvPushDelete "gecko/1001"]
         ∧ remote_branch (sync st') = Some "gecko/1001"
         ∧ remote_branch (sync st') ≠ None.
Proof. eexists. split; [vm_compute; reflexivity|]. simpl. by repeat split. Qed.

(** ** A sync whose commits were backed out *)

(** C3, as amended: when the gecko commits of a sync with a pull request
    have become empty, processing the sync sets its status to incomplete
    and changes nothing else of the sync (the wpt commits, the base and
    the PR id stay as they are), and its last call closes the pull
    request; the only calls it makes are the status change and the
    closing of the pull request. *)
Theorem update_modified_sync_backed_out (env : Env) (st : State) (pr_id : Z) :
  gecko_commits (sync st) = [] →
  pr (sync st) = Some pr_id →
  pr_id ≠ 0%Z →
  status (sync st) ∈ ["open"; "incomplete"] →
  ∃ st', update_modified_sync env st = (Ok tt, st')
         ∧ sync st' = with_status "incomplete" (sync st)
         ∧ wpt_commits (sync st') = wpt_commits (sync st)
         ∧ last (trace st') = Some (EvClosePull pr_id)
         ∧ (trace st' = (trace st ++ [EvClosePull pr_id])%list
            ∨ trace st' = (trace st ++ [EvStatus "open" "incomplete";
                                        EvClosePull pr_id])%list).
Proof.
  intros Hg Hpr Hnz Hst.
  assert (status (sync st) = "incomplete"
          ∨ (status (sync st), "incomplete") ∈ status_transitions) as Hok.
  { destruct (proj1 (elem_of_cons _ _ _) Hst) as [Hopen|Hinc].
    - right. rewrite Hopen. by repeat constructor.
    - left. by apply list_elem_of_singleton. }
  destruct (set_status_allowed "incomplete" st Hok) as (st1 & Hset & Hsync & Htr).
  assert (truthy_int (Some pr_id) = true) as Htruthy.
  { simpl. by apply negb_true_iff, Z.eqb_neq. }
  unfold update_modified_sync, update_github. run_m.
  repeat (first [rewrite Hg | rewrite Hset | rewrite Hsync | rewrite Hpr
                 | rewrite Htruthy]; simpl).
  eexists. split; [done|]. simpl. rewrite last_snoc.
  split; [done|]. split; [done|]. split; [done|].
  destruct Htr as [Htr|Htr]; rewrite Htr.
  - by left.
  - right. rewrite <- app_assoc. simpl.
    destruct (proj1 (elem_of_cons _ _ _) Hst) as [Hopen|Hinc]; [by rewrite Hopen|].
    apply list_elem_of_singleton in Hinc. rename Hinc into Hst'.
    exfalso. destruct st as [s t]; simpl in *.
    assert (length (t ++ [EvStatus (status s) "incomplete"]) = length t) as Hlen.
    { rewrite <- Htr.
      pose proof Hset as Hset'. unfold set_status in Hset'. run_m.
      rewrite Hst' in Hset'. simpl in Hset'. by inversion Hset'. }
    rewrite length_app in Hlen. simpl in Hlen. lia.
Qed.

Lemma update_modified_sync_backed_out_witness :
  ∃ st', update_modified_sync Examples.env0 (Examples.start Examples.sync_backed_out)
         = (Ok tt, st')
         ∧ sync st' = with_status "incomplete" Examples.sync_backed_out
         ∧ wpt_commits (sync st') = wpt_commits Examples.sync_backed_out
         ∧ last (trace st') = Some (EvClosePull 7)
         ∧ (trace st' = ([] ++ [EvClosePull 7%Z])%list
            ∨ trace st' = ([] ++ [EvStatus "open" "incomplete"; EvClosePull 7%Z])%list).
Proof.
  apply (update_modified_sync_backed_out Examples.env0
           (Examples.start Examples.sync_backed_out) 7%Z).
  - vm_compute. reflexivity.
  - reflexivity.
  - discriminate.
  - set_solver.
Defined.

(** C3, the claim as stated fails: in scenario S3 (commit X of bug 1003,
    sync with PR 7, then the backout Y) the gecko commits of the sync are
    empty and processing the sync calls [close_pull] on PR 7, so the PR
    is not left open and untouched. *)
Lemma backed_out_sync_closes_pull :
  gecko_commits Examples.sync_backed_out = []
  ∧ ∃ st', update_modified_sync Examples.env0 (Examples.start Examples.sync_backed_out)
           = (Ok tt, st')
           ∧ status (sync st') = "incomplete"
           ∧ wpt_commits (sync st') = [Examples.replay Examples.X]
           ∧ trace st' = [EvStatus "open" "incomplete"; EvClosePull 7%Z]
           ∧ EvClosePull 7%Z ∈ trace st'.
Proof.
  split; [vm_compute; reflexivity|].
  eexists. split; [vm_compute; reflexivity|]. simpl.
  repeat split. set_solver.
Qed.

(** ** The replay onto the side branch *)

Lemma bind_ok {A B} (m : M A) (f : A → M B) st r st' :
  (m ≫= f) st = (Ok r, st') →
  ∃ a st1, m st = (Ok a, st1) ∧ f a st1 = (Ok r, st').
Proof.
  unfold mbind, M_bind. destruct (m st) as [[a|e] st1]; [eauto | discriminate].
Qed.

Lemma with_wpt_id (s : UpstreamSync) :
  with_wpt (wpt_base s) (wpt_commits s) s = s.
Proof. by destruct s. Qed.

Lemma pop_unmatched_split (index : gset string) (l : list GeckoCommit) :
  ∃ rest,
    l = (pop_unmatched index (reverse l) l ++ rest)%list
    ∧ Forall (λ commit, sha1 commit ∉ index) rest
    ∧ (pop_unmatched index (reverse l) l = []
       ∨ ∃ commit, last (pop_unmatched index (reverse l) l) = Some commit
                   ∧ sha1 commit ∈ index).
Proof.
  induction l as [|x l IH] using rev_ind.
  - exists []. simpl. split; [done|]. split; [constructor | by left].
  - rewrite reverse_snoc. simpl. case_bool_decide as Hx.
    + exists []. rewrite app_nil_r. split; [done|]. split; [constructor|].
      right. exists x. by rewrite last_snoc.
    + rewrite removelast_last.
      destruct IH as (rest & Hl & Hrest & Hlast).
      exists (rest ++ [x])%list. split; [|split; [|done]].
      * rewrite app_assoc. by rewrite <- Hl.
      * apply Forall_app. split; [done|]. by constructor.
Qed.

(** The split of a list at the last element whose hash is in the index
    is unique. *)
Lemma last_indexed_split_unique (index : gset string)
    (m1 r1 m2 r2 : list GeckoCommit) :
  (m1 ++ r1 = m2 ++ r2)%list →
  Forall (λ commit, sha1 commit ∉ index) r1 →
  Forall (λ commit, sha1 commit ∉ index) r2 →
  (m1 = [] ∨ ∃ commit, last m1 = Some commit ∧ sha1 commit ∈ index) →
  (m2 = [] ∨ ∃ commit, last m2 = Some commit ∧ sha1 commit ∈ index) →
  m1 = m2 ∧ r1 = r2.
Proof.
  intros Heq Hr1 Hr2 Hm1 Hm2.
  assert (∀ (ma ra mb rb : list GeckoCommit),
            (ma ++ ra = mb ++ rb)%list →
            Forall (λ commit, sha1 commit ∉ index) ra →
            (mb = [] ∨ ∃ commit, last mb = Some commit ∧ sha1 commit ∈ index) →
            (length mb ≤ length ma)%nat) as Hle.
  { intros ma ra mb rb Hab Hra [->|(c & Hc & Hin)]; [simpl; lia|].
    destruct (decide (length mb ≤ length ma)%nat) as [|Hgt]; [done|]. exfalso.
    apply last_Some in Hc as [mb' ->].
    rewrite length_app in Hgt. simpl in Hgt.
    assert ((ma ++ ra)%list !! length mb' = Some c) as Hlook.
    { rewrite Hab, <- app_assoc. rewrite lookup_app_r by lia.
      by rewrite Nat.sub_diag. }
    rewrite lookup_app_r in Hlook by lia.
    apply list_elem_of_lookup_2 in Hlook.
    rewrite Forall_forall in Hra. by apply (Hra c). }
  assert (length m1 = length m2) as Hlen.
  { apply Nat.le_antisymm; [eapply (Hle m2 r2 m1 r1) | eapply (Hle m1 r1 m2 r2)]; eauto. }
  by apply app_inj_1.
Qed.

Lemma longest_indexed_prefix_below (index : gset string) (m r : list GeckoCommit) :
  Forall (λ commit, sha1 commit ∉ index) r →
  longest_indexed_prefix index (m ++ r) `prefix_of` m.
Proof.
  intros Hr. induction m as [|x m IH]; simpl.
  - destruct r as [|y r]; simpl; [done|].
    apply Forall_cons in Hr as [Hy _]. by rewrite bool_decide_eq_false_2.
  - case_bool_decide; [by apply prefix_cons | apply prefix_nil].
Qed.

(** The matching commits are the prefix of the gecko commits that ends
    at the last gecko commit whose hash is in the index. *)
Lemma matching_commits_split (env : Env) (s : UpstreamSync) :
  ∃ rest,
    gecko_commits s = (matching_commits env s ++ rest)%list
    ∧ rest = drop (length (matching_commits env s)) (gecko_commits s)
    ∧ Forall (λ commit, sha1 commit ∉ upstreamed_index env s) rest
    ∧ (matching_commits env s = []
       ∨ ∃ commit, last (matching_commits env s) = Some commit
                   ∧ sha1 commit ∈ upstreamed_index env s).
Proof.
  unfold matching_commits, upstreamed_index.
  destruct (pop_unmatched_split (list_to_set (upstreamed_gecko_commits env s))
              (gecko_commits s)) as (rest & Hl & Hrest & Hlast).
  exists rest. split; [done|]. split; [|done].
  set (m := pop_unmatched _ _ _) in *.
  transitivity (drop (length m) (m ++ rest)%list);
    [by rewrite drop_app_length | by rewrite <- Hl].
Qed.

Lemma add_commit_inv (env : Env) (commit : GeckoCommit) (st st' : State) r :
  add_commit env commit st = (Ok r, st') →
  trace st' = (trace st ++ [EvMove (sha1 commit)])%list
  ∧ patch_exists env (canonical_rev commit) = false
  ∧ is_Some (gecko_repo env (sha1 (gecko_head (sync st))))
  ∧ ((move env (wpt_commits (sync st)) commit = NoChange ∧ sync st' = sync st)
     ∨ ∃ sha, move env (wpt_commits (sync st)) commit = Moved sha
              ∧ sync st'
                = with_wpt (wpt_base (sync st))
                    (wpt_commits (sync st)
                     ++ [{| wpt_sha1 := sha;
                            gecko_commit := Some (canonical_rev commit) |}])
                    (sync st)).
Proof.
  unfold add_commit, repository. run_m.
  destruct (gecko_repo env (sha1 (gecko_head (sync st)))) as [repo|]; simpl;
    [|discriminate].
  destruct (patch_exists env (canonical_rev commit)); simpl; [discriminate|].
  destruct (move env (wpt_commits (sync st)) commit) as [sha| |msg] eqn:Hmove;
    simpl; intros H; inversion H; subst; simpl.
  - split; [done|]. split; [done|]. split; [by eexists|]. right. by exists sha.
  - split; [done|]. split; [done|]. split; [by eexists|]. by left.
Qed.



(** A run of [add_commits] that does not abort: the commits that
    produced an upstream commit are [made], and [tail] are the commits
    after the last of those, none of which changes the final branch. *)
Lemma add_commits_inv (env : Env) (commits : list GeckoCommit) (st st' : State) :
  add_commits env commits st = (Ok tt, st') →
  ∃ (made front tail : list GeckoCommit) (added : list WptCommit),
    trace st' = (trace st ++ moves commits)%list
    ∧ sync st' = with_wpt (wpt_base (sync st)) (wpt_commits (sync st) ++ added) (sync st)
    ∧ gecko_commit <$> added = (λ commit, Some (canonical_rev commit)) <$> made
    ∧ commits = (front ++ tail)%list
    ∧ made `sublist_of` front
    ∧ last front = last made
    ∧ Forall (λ commit, move env (wpt_commits (sync st')) commit = NoChange
                        ∧ patch_exists env (canonical_rev commit) = false) tail
    ∧ (commits ≠ [] → is_Some (gecko_repo env (sha1 (gecko_head (sync st))))).
Proof.
  revert st. induction commits as [|commit commits IH]; intros st Hrun.
  - inversion Hrun; subst. exists [], [], [], []. simpl.
    rewrite !app_nil_r, with_wpt_id. by repeat split.
  - unfold add_commits in Hrun. simpl in Hrun.
    apply bind_ok in Hrun as ([] & st1 & Hadd & Hrest).
    apply bind_ok in Hadd as (r & st1' & Hadd & Hret).
    inversion Hret; subst st1'.
    apply add_commit_inv in Hadd as (Htrace & Hpatch & Hrepo & Hmove).
    destruct (IH st1 Hrest)
      as (made & front & tail & added & Htr & Hsync & Hadded & Hsplit & Hsub
          & Hlast & Htail & _).
    assert (trace st' = (trace st ++ moves (commit :: commits))%list) as Htr'.
    { rewrite Htr, Htrace, <- app_assoc. done. }
    destruct Hmove as [[Hmove Hsame]|(sha & Hmove & Hmoved)].
    + rewrite Hsame in Hsync.
      destruct front as [|f front].
      * (* nothing is made later either *)
        simpl in Hlast. symmetry in Hlast.
        apply last_None in Hlast. subst made.
        destruct added; [|discriminate].
        exists [], [], (commit :: tail), [].
        rewrite app_nil_r in *. rewrite with_wpt_id in Hsync.
        split; [done|]. split; [by rewrite with_wpt_id|].
        split; [done|]. simpl in Hsplit. subst commits.
        split; [done|]. split; [done|]. split; [done|].
        split; [|done]. constructor; [|done].
        by rewrite Hsync.
      * exists made, (commit :: f :: front), tail, added.
        split; [done|]. split; [done|]. split; [done|].
        split; [by rewrite Hsplit|]. split; [by apply sublist_cons|].
        split; [done|]. split; [done|]. done.
    + set (w := {| wpt_sha1 := sha; gecko_commit := Some (canonical_rev commit) |}) in *.
      exists (commit :: made), (commit :: front), tail, (w :: added).
      split; [done|].
      split. { rewrite Hsync, Hmoved. simpl. by rewrite <- app_assoc. }
      split. { by rewrite !fmap_cons, Hadded. }
      split; [by rewrite Hsplit|]. split; [by apply sublist_skip|].
      split; [|split; [done|done]].
      by rewrite !last_cons, Hlast.
Qed.


(** A call of [update_wpt_commits] that returns true, step by step. *)
Lemma update_wpt_commits_true (env : Env) (st st' : State) :
  update_wpt_commits env st = (Ok true, st') →
  ∃ st1,
    gecko_commits (sync st) ≠ []
    ∧ ((length (matching_commits env (sync st)) =? length (gecko_commits (sync st)))%nat
       && (length (gecko_commits (sync st))
           =? length (upstreamed_gecko_commits env (sync st)))%nat) = false
    ∧ sync st1 = with_wpt (wpt_base (sync st)) (retained_wpt_commits env (sync st)) (sync st)
    ∧ trace st1 = (trace st ++ [EvWorktreeReset; EvWorktreeClean])%list
    ∧ add_commits env (drop (length (matching_commits env (sync st)))
                            (gecko_commits (sync st))) st1 = (Ok tt, st')
    ∧ length (wpt_commits (sync st'))
      = length (upstreamed_gecko_commits env (sync st')).
Proof.
  unfold update_wpt_commits, retained_wpt_commits.
  intros Hrun. apply bind_ok in Hrun as (s & st0 & Hget & Hrun).
  inversion Hget; subst s st0. clear Hget.
  destruct (gecko_commits (sync st)) as [|g gs] eqn:Hg; [discriminate|].
  rewrite <- Hg in *. assert (gecko_commits (sync st) ≠ []) as Hne by (by rewrite Hg).
  replace (length (gecko_commits (sync st)) =? 0)%nat with false in Hrun
    by (by rewrite Hg).
  destruct (_ && _) eqn:Hearly; [discriminate|].
  apply bind_ok in Hrun as ([] & st1 & Htrunc & Hrun).
  apply bind_ok in Hrun as ([] & st2 & Hreset & Hrun).
  apply bind_ok in Hrun as ([] & st3 & Hclean & Hrun).
  apply bind_ok in Hrun as ([] & st4 & Hloop & Hrun).
  apply bind_ok in Hrun as (s4 & st5 & Hget & Hrun).
  inversion Hget; subst s4 st5. clear Hget.
  apply bind_ok in Hrun as ([] & st6 & Hassert & Hret).
  inversion Hret; subst st6. clear Hret.
  inversion Hreset; subst st2. inversion Hclean; subst st3. clear Hreset Hclean.
  unfold assert in Hassert.
  destruct (_ =? _)%nat eqn:Hlen in Hassert; [|discriminate].
  inversion Hassert; subst st4. apply Nat.eqb_eq in Hlen.
  exists {| sync := sync st1; trace := trace st ++ [EvWorktreeReset; EvWorktreeClean] |}.
  assert (trace st1 = trace st) as Htr1.
  { destruct (_ =? 0)%nat in Htrunc; [by inversion Htrunc|].
    destruct (_ <? _)%nat in Htrunc; [|by inversion Htrunc].
    destruct (_ !! _) in Htrunc; [by inversion Htrunc | discriminate]. }
  split; [done|]. split; [done|]. split; [|split; [done|split; [|done]]].
  - simpl. destruct (_ =? 0)%nat in Htrunc |- *; [by inversion Htrunc|].
    destruct (_ <? _)%nat in Htrunc |- *.
    + destruct (_ !! _) in Htrunc; [by inversion Htrunc | discriminate].
    + inversion Htrunc. by rewrite with_wpt_id.
  - simpl in Hloop. rewrite Htr1, <- app_assoc in Hloop. exact Hloop.
Qed.

(** C4, the claim as stated fails: with gecko commits a, b, c and a side
    branch that holds the replays of a and c (b changed nothing
    upstream), the longest prefix whose hashes are all in the index is
    [a], yet the code matches a, b and c, keeps the whole side branch and
    calls [add_commit] on no commit, although b and c come after that
    prefix. *)
Lemma matching_commits_not_longest_indexed_prefix :
  sha1 <$> longest_indexed_prefix
             (upstreamed_index Examples.env_b_no_effect Examples.sync_hole)
             (gecko_commits Examples.sync_hole) = ["a"]
  ∧ sha1 <$> matching_commits Examples.env_b_no_effect Examples.sync_hole
    = ["a"; "b"; "c"]
  ∧ update_wpt_commits Examples.env_b_no_effect (Examples.start Examples.sync_hole)
    = (Ok true, {| sync := Examples.sync_hole;
                   trace := [EvWorktreeReset; EvWorktreeClean] |}).
Proof. repeat split; vm_compute; reflexivity. Qed.

(** *** Calling the replay twice *)

Lemma upstreamed_of_replays (env : Env) (s : UpstreamSync) (replayed : list GeckoCommit) :
  gecko_commit <$> wpt_commits s
  = (λ commit, Some (canonical_rev commit)) <$> replayed →
  upstreamed_gecko_commits env s
  = (λ commit, hg2git env (canonical_rev commit)) <$> replayed.
Proof.
  unfold upstreamed_gecko_commits. generalize (wpt_commits s) as l.
  induction replayed as [|c replayed IH]; intros [|w l] Heq; simpl in *;
    try done.
  inversion Heq as [[Hw Hl]]. rewrite Hw. simpl. f_equal. by apply IH.
Qed.

Lemma upstreamed_of_replays_sha1 (env : Env) (s : UpstreamSync)
    (replayed : list GeckoCommit) :
  gecko_well_formed env s →
  replayed `sublist_of` gecko_commits s →
  gecko_commit <$> wpt_commits s
  = (λ commit, Some (canonical_rev commit)) <$> replayed →
  upstreamed_gecko_commits env s = sha1 <$> replayed
  ∧ length (wpt_commits s) = length replayed.
Proof.
  intros [_ Hrt] Hsub Heq. split.
  - rewrite (upstreamed_of_replays env s replayed Heq).
    apply list_fmap_ext. intros i c Hc. apply Hrt.
    eapply elem_of_sublist; [|exact Hsub]. by eapply list_elem_of_lookup_2.
  - apply (f_equal length) in Heq. by rewrite !length_fmap in Heq.
Qed.

Lemma sublist_below_split {A} (P : A → Prop) (l m r : list A) :
  l `sublist_of` (m ++ r)%list →
  Forall P l → Forall (λ x, ¬ P x) r →
  l `sublist_of` m.
Proof.
  intros Hsub Hl Hr.
  apply sublist_app_r in Hsub as (l1 & l2 & -> & H1 & H2).
  destruct l2 as [|x l2]; [by rewrite app_nil_r|]. exfalso.
  apply Forall_app in Hl as [_ Hl]. apply Forall_cons in Hl as [Hx _].
  rewrite Forall_forall in Hr. apply (Hr x); [|done].
  eapply elem_of_sublist; [|exact H2]. by left.
Qed.

(** Under the invariant the replayed commits lie within the matching
    commits. *)
Lemma replayed_below_matching (env : Env) (s : UpstreamSync)
    (replayed : list GeckoCommit) :
  gecko_well_formed env s →
  replayed `sublist_of` gecko_commits s →
  gecko_commit <$> wpt_commits s
  = (λ commit, Some (canonical_rev commit)) <$> replayed →
  replayed `sublist_of` matching_commits env s.
Proof.
  intros Hwf Hsub Heq.
  destruct (upstreamed_of_replays_sha1 env s replayed Hwf Hsub Heq) as [Hup _].
  destruct (matching_commits_split env s) as (rest & Hsplit & _ & Hrest & _).
  apply (sublist_below_split (λ c, sha1 c ∈ upstreamed_index env s) _ _ rest).
  - by rewrite <- Hsplit.
  - apply Forall_forall. intros c Hc. unfold upstreamed_index.
    rewrite Hup, elem_of_list_to_set. by apply list_elem_of_fmap_2.
  - done.
Qed.

Lemma retained_under_invariant (env : Env) (s : UpstreamSync) :
  gecko_well_formed env s → replays_sublist s →
  retained_wpt_commits env s = wpt_commits s.
Proof.
  intros Hwf (replayed & Hsub & Heq).
  pose proof (replayed_below_matching env s replayed Hwf Hsub Heq) as Hbelow.
  destruct (upstreamed_of_replays_sha1 env s replayed Hwf Hsub Heq) as [Hup Hlen].
  apply sublist_length in Hbelow.
  unfold retained_wpt_commits.
  destruct (length (matching_commits env s) =? 0)%nat eqn:H0.
  - apply Nat.eqb_eq in H0. rewrite H0 in Hbelow.
    destruct (wpt_commits s); [done | simpl in *; lia].
  - destruct (_ <? _)%nat eqn:Hlt; [|done].
    apply Nat.ltb_lt in Hlt. rewrite Hup, length_fmap in Hlt. lia.
Qed.







(** *** Side branches with leftovers *)

Lemma NoDup_fmap_eq {A B} (f : A → B) (l : list A) (x y : A) :
  NoDup (f <$> l) → x ∈ l → y ∈ l → f x = f y → x = y.
Proof.
  induction l as [|z l IH]; simpl; intros Hnd Hx Hy Hxy; [by inversion Hx|].
  apply NoDup_cons in Hnd as [Hz Hnd].
  apply elem_of_cons in Hx as [->|Hx]; apply elem_of_cons in Hy as [->|Hy].
  - done.
  - exfalso. apply Hz. rewrite Hxy. by apply list_elem_of_fmap_2.
  - exfalso. apply Hz. rewrite <- Hxy. by apply list_elem_of_fmap_2.
  - by apply IH.
Qed.

(** A sublist of a list without duplicates is what a filter leaves of
    it. *)
Lemma sublist_is_filter {A} (P : A → Prop) `{!∀ x, Decision (P x)}
    (l' l : list A) :
  l' `sublist_of` l → NoDup l → (∀ x, x ∈ l → P x ↔ x ∈ l') →
  filter P l = l'.
Proof.
  induction 1 as [|x l1 l2 Hsub IH|x l1 l2 Hsub IH]; intros Hnd HP.
  - done.
  - apply NoDup_cons in Hnd as [Hx Hnd].
    rewrite filter_cons_True by (apply HP; left). f_equal.
    apply IH; [done|]. intros y Hy. rewrite (HP y) by (by right).
    rewrite elem_of_cons. split; [|by right].
    intros [->|]; [done | done].
  - apply NoDup_cons in Hnd as [Hx Hnd].
    assert (x ∉ l1) as Hx1.
    { intros Hin. apply Hx. by eapply elem_of_sublist. }
    rewrite filter_cons_False by (rewrite HP by left; done).
    apply IH; [done|]. intros y Hy. apply HP. by right.
Qed.

Lemma filter_none {A} (P : A → Prop) `{!∀ x, Decision (P x)} (l : list A) :
  Forall (λ x, ¬ P x) l → filter P l = [].
Proof.
  induction 1 as [|x l Hx _ IH]; [done|].
  by rewrite filter_cons_False.
Qed.

Lemma filter_every {A} (P : A → Prop) `{!∀ x, Decision (P x)} (l : list A) :
  Forall P l → filter P l = l.
Proof.
  induction 1 as [|x l Hx _ IH]; [done|].
  rewrite filter_cons_True by done. by f_equal.
Qed.

(** What the index of upstreamed commits holds when the side branch is
    made of replays and leftovers. *)
Lemma upstreamed_of_leftovers (env : Env) (s : UpstreamSync)
    (replayed : list GeckoCommit) (kept leftovers : list WptCommit) :
  gecko_well_formed env s →
  wpt_commits s = (kept ++ leftovers)%list →
  replayed `sublist_of` gecko_commits s →
  gecko_commit <$> kept = (λ commit, Some (canonical_rev commit)) <$> replayed →
  Forall (λ w, is_Some (gecko_commit w) ∧ replays_gecko env s w = false) leftovers →
  ∃ foreign,
    upstreamed_gecko_commits env s = ((sha1 <$> replayed) ++ foreign)%list
    ∧ length foreign = length leftovers
    ∧ length kept = length replayed
    ∧ Forall (λ sha, sha ∉ sha1 <$> gecko_commits s) foreign.
Proof.
  intros Hwf Hwpt Hsub Hkept Hleft.
  exists (omap (λ w, hg2git env <$> gecko_commit w) leftovers).
  split; [|split; [|split]].
  - unfold upstreamed_gecko_commits. rewrite Hwpt, omap_app. f_equal.
    pose proof (upstreamed_of_replays env (with_wpt (wpt_base s) kept s)
                  replayed Hkept) as Hup.
    unfold upstreamed_gecko_commits in Hup. simpl in Hup. rewrite Hup.
    apply list_fmap_ext. intros i c Hc. apply Hwf.
    eapply elem_of_sublist; [|exact Hsub]. by eapply list_elem_of_lookup_2.
  - clear Hwpt. induction Hleft as [|w l [[rev Hw] _] _ IH]; [done|].
    cbn. rewrite Hw. cbn. by rewrite IH.
  - apply (f_equal length) in Hkept. by rewrite !length_fmap in Hkept.
  - clear Hwpt. induction Hleft as [|w l [[rev Hw] Hno] _ IH]; [constructor|].
    cbn. rewrite Hw. cbn. constructor; [|done].
    unfold replays_gecko in Hno. rewrite Hw in Hno.
    by apply bool_decide_eq_false in Hno.
Qed.

(** Of the gecko commits, the index holds the replayed ones. *)
Lemma indexed_iff_replayed (env : Env) (s : UpstreamSync)
    (replayed : list GeckoCommit) (foreign : list string) :
  NoDup (sha1 <$> gecko_commits s) →
  replayed `sublist_of` gecko_commits s →
  upstreamed_gecko_commits env s = ((sha1 <$> replayed) ++ foreign)%list →
  Forall (λ sha, sha ∉ sha1 <$> gecko_commits s) foreign →
  ∀ commit, commit ∈ gecko_commits s →
            sha1 commit ∈ upstreamed_index env s ↔ commit ∈ replayed.
Proof.
  intros Hnd Hsub Hup Hforeign c Hc. unfold upstreamed_index.
  rewrite Hup, elem_of_list_to_set, elem_of_app. split.
  - intros [Hin|Hin].
    + apply list_elem_of_fmap in Hin as (c' & Heq & Hc').
      assert (c = c') as ->; [|done].
      eapply (NoDup_fmap_eq sha1); [exact Hnd | done | | done].
      by eapply elem_of_sublist.
    + exfalso. rewrite Forall_forall in Hforeign.
      apply (Hforeign _ Hin). by apply list_elem_of_fmap_2.
  - intros Hin. left. by apply list_elem_of_fmap_2.
Qed.

(** On such a side branch the replay keeps the commits that replay a
    gecko commit of the range and drops the leftovers. *)
Lemma retained_with_leftovers (env : Env) (s : UpstreamSync) :
  gecko_well_formed env s → replays_then_leftovers env s →
  retained_wpt_commits env s = replays_of_range env s
  ∧ gecko_commit <$> replays_of_range env s
    = (λ commit, Some (canonical_rev commit))
        <$> filter (λ commit, sha1 commit ∈ upstreamed_index env s)
                   (matching_commits env s).
Proof.
  intros Hwf (replayed & kept & leftovers & Hwpt & Hsub & Hkept & Hleft & Hgap).
  destruct (upstreamed_of_leftovers env s replayed kept leftovers
              Hwf Hwpt Hsub Hkept Hleft)
    as (foreign & Hup & Hlenf & Hlenk & Hforeign).
  pose proof Hwf as [Hnd Hrt].
  pose proof (indexed_iff_replayed env s replayed foreign Hnd Hsub Hup Hforeign)
    as Hindexed.
  destruct (matching_commits_split env s) as (rest & Hsplit & _ & Hrest & Hlast).
  assert (NoDup (gecko_commits s)) as Hndg by (by eapply NoDup_fmap_1).
  assert (filter (λ commit, sha1 commit ∈ upstreamed_index env s)
                 (matching_commits env s) = replayed) as Hfilter.
  { pose proof (sublist_is_filter
                  (λ commit, sha1 commit ∈ upstreamed_index env s)
                  replayed (gecko_commits s) Hsub Hndg Hindexed) as Hf.
    rewrite Hsplit, filter_app in Hf.
    rewrite (filter_none _ rest) in Hf by done.
    by rewrite app_nil_r in Hf. }
  assert (replays_of_range env s = kept) as Hrange.
  { unfold replays_of_range. rewrite Hwpt, filter_app.
    rewrite (filter_none _ leftovers).
    2:{ eapply Forall_impl; [exact Hleft|]. intros w [_ Hw]. simpl.
        by rewrite Hw. }
    rewrite app_nil_r. apply filter_every. apply Forall_forall. intros w Hw.
    apply (list_elem_of_fmap_2 gecko_commit) in Hw. rewrite Hkept in Hw.
    apply list_elem_of_fmap in Hw as (c & Hwc & Hc).
    unfold replays_gecko. rewrite Hwc. apply bool_decide_eq_true.
    rewrite Hrt by (by eapply elem_of_sublist).
    apply list_elem_of_fmap_2. by eapply elem_of_sublist. }
  split; [|by rewrite Hrange, Hfilter].
  rewrite Hrange.
  destruct Hgap as [->|Hprefix].
  - rewrite app_nil_r in Hwpt. rewrite <- Hwpt.
    apply retained_under_invariant; [done|].
    exists replayed. by rewrite Hwpt.
  - destruct Hprefix as [after Hafter].
    assert (matching_commits env s = replayed) as Hmatching.
    { apply (last_indexed_split_unique (upstreamed_index env s) _ rest _ after).
      - by rewrite <- Hsplit.
      - done.
      - apply Forall_forall. intros c Hc Hin.
        assert (c ∈ gecko_commits s) as Hcg.
        { rewrite Hafter. apply elem_of_app. by right. }
        apply (Hindexed c Hcg) in Hin.
        rewrite Hafter in Hndg. apply NoDup_app in Hndg as (_ & Hdisj & _).
        by apply (Hdisj c).
      - done.
      - destruct (last replayed) as [c|] eqn:Hl.
        + right. exists c. split; [done|].
          apply last_Some in Hl as [l' ->].
          apply Hindexed.
          * rewrite Hafter. apply elem_of_app. left. apply elem_of_app. right.
            by left.
          * apply elem_of_app. right. by left.
        + left. by apply last_None. }
    unfold retained_wpt_commits. rewrite Hmatching, <- Hlenk.
    destruct (length kept =? 0)%nat eqn:H0.
    + apply Nat.eqb_eq in H0. by destruct kept.
    + rewrite Hup, length_app, length_fmap, <- Hlenk, Hlenf.
      destruct (_ <? _)%nat eqn:Hlt.
      * by rewrite Hwpt, take_app_length.
      * apply Nat.ltb_ge in Hlt.
        assert (leftovers = []) as -> by (destruct leftovers; [done | simpl in *; lia]).
        by rewrite Hwpt, app_nil_r.
Qed.

(** C4, as amended: let the gecko commits have distinct hashes that
    [hg2git] finds, and let the side branch hold replays of gecko commits
    of the range, in their order, followed by leftovers (replays of gecko
    commits no longer in the range; with leftovers the replayed commits
    are the first gecko commits).  In a call of [update_wpt_commits] that
    returns true, [matching_commits] is the prefix of the gecko commits
    that ends at the last gecko commit whose hash is in the index of
    upstreamed gecko commits (it is empty when there is none, and no
    commit after it is in the index); it contains the longest prefix
    whose hashes are all in the index.  The part of the side branch that
    is kept is exactly its commits that replay a gecko commit of the
    range: the replays of the indexed commits of [matching_commits];
    every leftover is dropped.  [add_commit] is then called, in order, on
    exactly the gecko commits after [matching_commits], and the side
    branch ends as the kept part followed by the commits these calls
    made. *)
Theorem update_wpt_commits_replays_rest (env : Env) (st st' : State) :
  gecko_well_formed env (sync st) →
  replays_then_leftovers env (sync st) →
  update_wpt_commits env st = (Ok true, st') →
  ∃ rest made added,
    gecko_commits (sync st) = (matching_commits env (sync st) ++ rest)%list
    ∧ Forall (λ commit, sha1 commit ∉ upstreamed_index env (sync st)) rest
    ∧ (matching_commits env (sync st) = []
       ∨ ∃ commit, last (matching_commits env (sync st)) = Some commit
                   ∧ sha1 commit ∈ upstreamed_index env (sync st))
    ∧ longest_indexed_prefix (upstreamed_index env (sync st)) (gecko_commits (sync st))
      `prefix_of` matching_commits env (sync st)
    ∧ trace st'
      = (trace st ++ [EvWorktreeReset; EvWorktreeClean] ++ moves rest)%list
    ∧ sync st'
      = with_wpt (wpt_base (sync st))
                 (replays_of_range env (sync st) ++ added) (sync st)
    ∧ gecko_commit <$> replays_of_range env (sync st)
      = (λ commit, Some (canonical_rev commit))
          <$> filter (λ commit, sha1 commit ∈ upstreamed_index env (sync st))
                     (matching_commits env (sync st))
    ∧ made `sublist_of` rest
    ∧ gecko_commit <$> added = (λ commit, Some (canonical_rev commit)) <$> made.
Proof.
  intros Hwf Hbranch Hrun.
  destruct (retained_with_leftovers env (sync st) Hwf Hbranch) as [Hkept Hreplays].
  apply update_wpt_commits_true in Hrun
    as (st1 & _ & _ & Hsync1 & Htrace1 & Hloop & _).
  destruct (matching_commits_split env (sync st))
    as (rest & Hsplit & Hdrop & Hrest & Hlast).
  rewrite <- Hdrop in Hloop.
  apply add_commits_inv in Hloop
    as (made & front & tail & added & Htr & Hsync & Hadded & Hfront & Hsub & _).
  exists rest, made, added.
  split; [done|]. split; [done|]. split; [done|].
  split.
  { rewrite Hsplit at 1. by apply longest_indexed_prefix_below. }
  split.
  { by rewrite Htr, Htrace1, <- app_assoc. }
  split.
  { rewrite Hsync, Hsync1, Hkept. done. }
  split; [done|]. split; [|done].
  rewrite Hfront. by apply sublist_inserts_r.
Qed.

Lemma update_wpt_commits_replays_rest_witness :
  ∃ rest made added,
    gecko_commits Examples.sync_leftover
    = (matching_commits Examples.env0 Examples.sync_leftover ++ rest)%list
    ∧ Forall (λ commit,
                sha1 commit ∉ upstreamed_index Examples.env0
                                Examples.sync_leftover) rest
    ∧ (matching_commits Examples.env0 Examples.sync_leftover = []
       ∨ ∃ commit,
           last (matching_commits Examples.env0 Examples.sync_leftover)
           = Some commit
           ∧ sha1 commit ∈ upstreamed_index Examples.env0
                             Examples.sync_leftover)
    ∧ longest_indexed_prefix
        (upstreamed_index Examples.env0 Examples.sync_leftover)
        (gecko_commits Examples.sync_leftover)
      `prefix_of` matching_commits Examples.env0 Examples.sync_leftover
    ∧ trace (update_wpt_commits Examples.env0
               (Examples.start Examples.sync_leftover)).2
      = ([] ++ [EvWorktreeReset; EvWorktreeClean] ++ moves rest)%list
    ∧ sync (update_wpt_commits Examples.env0
              (Examples.start Examples.sync_leftover)).2
      = with_wpt (wpt_base Examples.sync_leftover)
                 (replays_of_range Examples.env0 Examples.sync_leftover ++ added)
                 Examples.sync_leftover
    ∧ gecko_commit <$> replays_of_range Examples.env0 Examples.sync_leftover
      = (λ commit, Some (canonical_rev commit))
          <$> filter (λ commit, sha1 commit
                                ∈ upstreamed_index Examples.env0
                                    Examples.sync_leftover)
                     (matching_commits Examples.env0 Examples.sync_leftover)
    ∧ made `sublist_of` rest
    ∧ gecko_commit <$> added = (λ commit, Some (canonical_rev commit)) <$> made.
Proof.
  apply (update_wpt_commits_replays_rest Examples.env0
           (Examples.start Examples.sync_leftover)).
  - split.
    + apply (bool_decide_unpack
               (NoDup (sha1 <$> gecko_commits Examples.sync_leftover))).
      vm_compute. exact I.
    + apply Forall_forall. vm_compute. repeat constructor.
  - exists [Examples.a], [Examples.replay Examples.a],
      [Examples.replay (Examples.commit "x" (Some "1004"))].
    split; [reflexivity|]. split; [reflexivity|]. split; [reflexivity|].
    split; [|by right].
    constructor; [|constructor]. split; [by eexists | vm_compute; reflexivity].
  - vm_compute. reflexivity.
Defined.

(** ** Closure of the status state machine *)

Lemma status_changes_app (l k : list Event) :
  status_changes (l ++ k) = (status_changes l ++ status_changes k)%list.
Proof. unfold status_changes. apply omap_app. Qed.

Lemma chain_app from mid to (l k : list (string * string)) :
  chain from l mid → chain mid k to → chain from (l ++ k) to.
Proof.
  revert from. induction l as [|[old new] l IH]; simpl; intros from.
  - by intros ->.
  - intros [-> Hl] Hk. split; [done|]. by apply IH.
Qed.

Lemma legal_run_refl (st : State) : legal_run st st.
Proof. exists []. rewrite app_nil_r. by repeat split. Qed.

Lemma legal_run_trans (st1 st2 st3 : State) :
  legal_run st1 st2 → legal_run st2 st3 → legal_run st1 st3.
Proof.
  intros (e1 & Ht1 & Ha1 & Hc1) (e2 & Ht2 & Ha2 & Hc2).
  exists (e1 ++ e2)%list. rewrite status_changes_app. split; [|split].
  - by rewrite Ht2, Ht1, app_assoc.
  - by apply Forall_app.
  - by eapply chain_app.
Qed.

Lemma Legal_ret {A} (a : A) : Legal (mret a).
Proof. intros st. apply legal_run_refl. Qed.

Lemma Legal_raise {A} (e : Exn) : Legal (raise (A:=A) e).
Proof. intros st. apply legal_run_refl. Qed.

Lemma Legal_get_sync : Legal get_sync.
Proof. intros st. apply legal_run_refl. Qed.

Lemma Legal_lift {A} (x : outcome A) : Legal (lift x).
Proof. intros st. apply legal_run_refl. Qed.

Lemma Legal_assert (b : bool) : Legal (assert b).
Proof. destruct b; [apply Legal_ret | apply Legal_raise]. Qed.

Lemma Legal_bind {A B} (m : M A) (f : A → M B) :
  Legal m → (∀ a, Legal (f a)) → Legal (m ≫= f).
Proof.
  intros Hm Hf st. specialize (Hm st). unfold mbind, M_bind.
  destruct (m st) as [[a|e] st1]; simpl in *; [|done].
  eapply legal_run_trans; [exact Hm | apply Hf].
Qed.

Lemma Legal_try_except {A} (m : M A) (catches : Exn → bool) (handler : Exn → M A) :
  Legal m → (∀ e, Legal (handler e)) → Legal (try_except m catches handler).
Proof.
  intros Hm Hh st. specialize (Hm st). unfold try_except.
  destruct (m st) as [[a|e] st1]; simpl in *; [done|].
  destruct (catches e); simpl; [|done].
  eapply legal_run_trans; [exact Hm | apply Hh].
Qed.

Lemma Legal_emit (e : Event) : not_a_status_change e → Legal (emit e).
Proof.
  intros He st. exists [e]. simpl. split; [done|].
  destruct e; simpl in *; by repeat split.
Qed.

Lemma Legal_modify_sync (f : UpstreamSync → UpstreamSync) :
  (∀ s, status (f s) = status s) → Legal (modify_sync f).
Proof.
  intros Hf st. exists []. simpl. rewrite app_nil_r. by repeat split.
Qed.

Lemma Legal_set_status (value : string) : Legal (set_status value).
Proof.
  intros st. unfold set_status. run_m.
  destruct (String.eqb (status (sync st)) value); [apply legal_run_refl|].
  case_bool_decide as Hallowed; [|apply legal_run_refl].
  exists [EvStatus (status (sync st)) value]. simpl.
  split; [done|]. split; [|done].
  constructor; [exact Hallowed | constructor].
Qed.

Lemma Legal_for_each {A} (l : list A) (body : A → M unit) :
  (∀ x, Legal (body x)) → Legal (for_each l body).
Proof.
  intros Hbody. induction l as [|x l IH]; simpl; [apply Legal_ret|].
  apply Legal_bind; [apply Hbody | by intros _].
Qed.

Create HintDb legal.
#[local] Hint Resolve Legal_ret Legal_raise Legal_get_sync Legal_lift Legal_assert
  Legal_set_status : legal.

Ltac legal_step :=
  match goal with
  | |- Legal (_ ≫= _) => apply Legal_bind; [|intros ?]
  | |- Legal (try_except _ _ _) => apply Legal_try_except; [|intros ?]
  | |- Legal (for_each _ _) => apply Legal_for_each; intros ?
  | |- Legal (emit _) => apply Legal_emit; exact I
  | |- Legal (modify_sync _) => apply Legal_modify_sync; intros ?; reflexivity
  | |- Legal (if ?b then _ else _) => destruct b
  | |- Legal (match ?x with _ => _ end) => destruct x
  | |- Legal _ => solve [eauto with legal]
  end.

Ltac legal := repeat legal_step.

Lemma Legal_set_remote_branch value : Legal (set_remote_branch value).
Proof. unfold set_remote_branch. legal. Qed.
#[local] Hint Resolve Legal_set_remote_branch : legal.

Lemma Legal_finish env value : Legal (finish env value).
Proof. unfold finish, base_finish. legal. Qed.
#[local] Hint Resolve Legal_finish : legal.

Lemma Legal_get_or_create_remote_branch env : Legal (get_or_create_remote_branch env).
Proof. unfold get_or_create_remote_branch. legal. Qed.
#[local] Hint Resolve Legal_get_or_create_remote_branch : legal.

Lemma Legal_add_commit env commit : Legal (add_commit env commit).
Proof. unfold add_commit, repository. legal. Qed.
#[local] Hint Resolve Legal_add_commit : legal.

Lemma Legal_update_wpt_commits env : Legal (update_wpt_commits env).
Proof. unfold update_wpt_commits, add_commits. legal. Qed.
#[local] Hint Resolve Legal_update_wpt_commits : legal.

Lemma Legal_push_commits env : Legal (push_commits env).
Proof. unfold push_commits. legal. Qed.

Lemma Legal_create_pr env : Legal (create_pr env).
Proof. unfold create_pr. legal. Qed.

Lemma Legal_set_landed_status env : Legal (set_landed_status env).
Proof. unfold set_landed_status. legal. Qed.
#[local] Hint Resolve Legal_push_commits Legal_create_pr Legal_set_landed_status : legal.

Lemma Legal_update_github env : Legal (update_github env).
Proof. unfold update_github. legal. Qed.

Lemma Legal_try_land_pr env : Legal (try_land_pr env).
Proof. unfold try_land_pr. legal. Qed.

Lemma Legal_set_wpt_base env base : Legal (set_wpt_base env base).
Proof. unfold set_wpt_base. legal. Qed.
#[local] Hint Resolve Legal_update_github Legal_try_land_pr Legal_set_wpt_base : legal.

Lemma Legal_update_modified_sync env : Legal (update_modified_sync env).
Proof. unfold update_modified_sync. legal. Qed.
#[local] Hint Resolve Legal_update_modified_sync : legal.

Lemma Legal_update_pr env action merge_sha base_sha merged_by :
  Legal (update_pr env action merge_sha base_sha merged_by).
Proof. unfold update_pr. legal. Qed.

Lemma Legal_commit_check_changed env : Legal (commit_check_changed env).
Proof. unfold commit_check_changed. legal. Qed.

Lemma Legal_update_sync_pr env raise_on_error : Legal (update_sync_pr env raise_on_error).
Proof.
  intros st. unfold update_sync_pr.
  pose proof (Legal_update_modified_sync env st) as Hrun.
  destruct (update_modified_sync env st) as [[[]|e] st1]; simpl in *.
  - eapply legal_run_trans; [exact Hrun|].
    assert (Legal (modify_sync (with_error None) ;; mret true)) as H by legal.
    apply H.
  - eapply legal_run_trans; [exact Hrun|].
    assert (Legal (modify_sync (with_error (Some "exception")) ;;
                   if raise_on_error then raise e else mret false)) as H by legal.
    apply H.
Qed.
#[local] Hint Resolve Legal_update_pr Legal_commit_check_changed
  Legal_update_sync_pr : legal.

Lemma Legal_update_sync env raise_on_error : Legal (update_sync env raise_on_error).
Proof. unfold update_sync. legal. Qed.
#[local] Hint Resolve Legal_update_sync : legal.

Lemma Legal_run env cmd : Legal (run env cmd).
Proof. destruct cmd; unfold run, do_status_obj; legal. Qed.

(** What one assignment to [status] does: nothing, or one allowed
    transition that the trace records *)
Lemma set_status_step (value : string) (st : State) :
  (set_status value st).2 = st
  ∨ (status (sync st), value) ∈ status_transitions
    ∧ status (sync (set_status value st).2) = value
    ∧ trace (set_status value st).2
      = (trace st ++ [EvStatus (status (sync st)) value])%list.
Proof.
  unfold set_status. run_m.
  destruct (String.eqb (status (sync st)) value); [by left|].
  case_bool_decide as Hallowed; [|by left].
  right. by repeat split.
Qed.

(** An assignment that is no allowed transition is refused and changes
    nothing. *)
Lemma set_status_refused (value : string) (st : State) :
  status (sync st) ≠ value →
  (status (sync st), value) ∉ status_transitions →
  set_status value st = (Raise AssertionError, st).
Proof.
  intros Hne Hnot. unfold set_status. run_m.
  destruct (String.eqb_spec (status (sync st)) value) as [Heq|_]; [done|].
  by rewrite bool_decide_eq_false_2.
Qed.

(** [do_status] changes each object by at most one allowed transition and
    logs nothing else. *)
Lemma do_status_closed (new_status : string) (objs : list UpstreamSync)
    (log : list Event) :
  Forall2 (λ obj obj', status obj' = status obj
                       ∨ (status obj, status obj') ∈ status_transitions)
          objs (do_status new_status objs log).2.1
  ∧ ∃ events,
      (do_status new_status objs log).2.2 = (log ++ events)%list
      ∧ Forall (λ change, change ∈ status_transitions) (status_changes events).
Proof.
  revert log. induction objs as [|obj objs IH]; intros log; simpl.
  - split; [constructor|]. exists []. by rewrite app_nil_r.
  - unfold do_status_obj.
    pose proof (set_status_step new_status {| sync := obj; trace := log |})
      as Hstep.
    destruct (set_status new_status {| sync := obj; trace := log |})
      as [[[]|e] st1] eqn:Hset; simpl in *.
    + destruct (IH (trace st1)) as [Hobjs (events & Hlog & Hevents)].
      destruct (do_status new_status objs (trace st1)) as [r [objs' log']].
      simpl in *. destruct Hstep as [->|(Hallowed & Hstatus & Htrace)]; simpl in *.
      * split; [constructor; [by left | done]|]. by exists events.
      * split; [constructor; [right; by rewrite Hstatus | done]|].
        exists (EvStatus (status obj) new_status :: events).
        split; [by rewrite Hlog, Htrace, <- app_assoc|].
        simpl. by constructor.
    + destruct Hstep as [->|(Hallowed & Hstatus & Htrace)]; simpl in *.
      * split; [|exists []; by rewrite app_nil_r].
        constructor; [by left|]. apply Forall2_same_length_lookup_2; [done|].
        intros i x y Hx Hy. left. congruence.
      * split.
        -- constructor; [right; by rewrite Hstatus|].
           apply Forall2_same_length_lookup_2; [done|].
           intros i x y Hx Hy. left. congruence.
        -- exists [EvStatus (status obj) new_status]. split; [done|].
           simpl. constructor; [exact Hallowed | constructor].
Qed.

(** C8: every operation on an upstream sync, from any state and whatever the
    collaborators answer, changes the status only along the allowed
    transitions open→wpt-merged, open→complete, open→incomplete,
    incomplete→open and wpt-merged→complete: the status changes that the run
    records are all allowed and lead, one after the other, from the status
    before to the status after.  The same holds for [do_status] on every
    object that it was given: its status is unchanged or moved by one
    allowed transition. *)
Theorem status_transitions_closed (env : Env) (cmd : Command) (st : State)
    (new_status : string) (objs : list UpstreamSync) (log : list Event) :
  legal_run st (run env cmd st).2
  ∧ Forall2 (λ obj obj', status obj' = status obj
                         ∨ (status obj, status obj') ∈ status_transitions)
            objs (do_status new_status objs log).2.1
  ∧ ∃ events,
      (do_status new_status objs log).2.2 = (log ++ events)%list
      ∧ Forall (λ change, change ∈ status_transitions) (status_changes events).
Proof.
  split; [apply Legal_run | apply do_status_closed].
Qed.

(** ** The sync that a commit updates *)

(** Whatever the tie-break picked, the sync that [sync_for_bug] returns is
    the one that the lookup lists first. *)
Lemma sync_for_bug_first (env : Env) (bug_id : option string)
    (chosen : option UpstreamSync) :
  Grouping.sync_for_bug env bug_id = Ok chosen →
  chosen = for_bug env bug_id !! 0%nat.
Proof.
  unfold Grouping.sync_for_bug. destruct (for_bug env bug_id) as [|s syncs].
  - simpl. by intros [= <-].
  - destruct (if negb _ then _ else _) as [picked|e]; simpl; [|done].
    by intros [= <-].
Qed.

(** C2: with two open syncs of one bug, listed oldest first, the sync that
    receives the update is the one with seq-id 0, which is not the most
    recently created; the one with seq-id 1 is.  With an incomplete sync
    listed before an open one, the incomplete sync receives the update
    although an open one exists. *)
Theorem sync_for_bug_not_most_recent :
  Grouping.sync_for_bug Examples.env_two_open (Some "1005")
  = Ok (Some Examples.sync_older)
  ∧ ¬ Grouping.most_recently_created
        (for_bug Examples.env_two_open (Some "1005")) Examples.sync_older
  ∧ Grouping.most_recently_created
      (for_bug Examples.env_two_open (Some "1005")) Examples.sync_newer
  ∧ Grouping.sync_for_bug Examples.env_stalled_and_open (Some "1006")
    = Ok (Some Examples.sync_stalled)
  ∧ ¬ Grouping.most_recently_created
        (for_bug Examples.env_stalled_and_open (Some "1006"))
        Examples.sync_stalled
  ∧ Grouping.most_recently_created
      (for_bug Examples.env_stalled_and_open (Some "1006")) Examples.sync_active.
Proof.
  assert (for_bug Examples.env_two_open (Some "1005")
          = [Examples.sync_older; Examples.sync_newer]) as -> by reflexivity.
  assert (for_bug Examples.env_stalled_and_open (Some "1006")
          = [Examples.sync_stalled; Examples.sync_active]) as -> by reflexivity.
  split; [vm_compute; reflexivity|]. split; [|split].
  - intros [(_ & _ & Hmax)|(Hnone & _)].
    + specialize (Hmax Examples.sync_newer). vm_compute in Hmax.
      assert (false = true) as Habs; [|discriminate Habs].
      apply Hmax; [|reflexivity]. right. left.
    + apply (Hnone Examples.sync_older); [left | reflexivity].
  - left. split; [right; left|]. split; [reflexivity|].
    intros s Hs _.
    destruct (proj1 (elem_of_cons _ _ _) Hs) as [->|Hs']; [reflexivity|].
    destruct (proj1 (elem_of_cons _ _ _) Hs') as [->|Hs'']; [reflexivity|].
    by apply elem_of_nil in Hs''.
  - split; [vm_compute; reflexivity|]. split.
    + intros [(_ & Hstatus & _)|(Hnone & _)]; [discriminate Hstatus|].
      apply (Hnone Examples.sync_active); [right; left | reflexivity].
    + left. split; [right; left|]. split; [reflexivity|].
      intros s Hs Hstatus.
      destruct (proj1 (elem_of_cons _ _ _) Hs) as [->|Hs']; [discriminate Hstatus|].
      destruct (proj1 (elem_of_cons _ _ _) Hs') as [->|Hs'']; [reflexivity|].
      by apply elem_of_nil in Hs''.
Qed.

(** ** The branches of the loop of [updated_syncs_for_push] *)




(** * Further properties of the code *)

#[local] Set Warnings "-clear-no-such-hyp".

(** ** Filtering and cancelling the commits of a push *)

(** X1: [filter_commits] keeps exactly the commits that carry neither the
    skip marker nor downstream metadata and that, when they are backouts,
    back out at least one wpt commit; it keeps them in their order, and
    filtering a second time changes nothing. *)
Theorem filter_commits_keeps (commits : list GeckoCommit) :
  (∀ commit,
     commit ∈ Grouping.filter_commits commits
     ↔ commit ∈ commits
       ∧ wptsync_skip commit = false
       ∧ has_downstream_metadata commit = false
       ∧ (is_backout commit = true → (wpt_commits_backed_out commit).1 ≠ []))
  ∧ Grouping.filter_commits commits `sublist_of` commits
  ∧ Grouping.filter_commits (Grouping.filter_commits commits)
    = Grouping.filter_commits commits.
Proof.
  unfold Grouping.filter_commits. split; [|split].
  - intros commit. rewrite list_elem_of_filter.
    destruct (wptsync_skip commit), (has_downstream_metadata commit),
      (is_backout commit), (wpt_commits_backed_out commit).1; simpl;
      naive_solver.
  - apply sublist_filter.
  - rewrite list_filter_filter. apply list_filter_iff. tauto.
Qed.

Lemma foldl_remove_step_bound (commits : list GeckoCommit) (S : gset string) :
  foldl Backouts.remove_step S commits ⊆ S ∪ list_to_set (sha1 <$> commits).
Proof.
  revert S. induction commits as [|c commits IH]; intros S; simpl; [set_solver|].
  etrans; [apply IH|]. unfold Backouts.remove_step.
  destruct (is_backout c); [case_bool_decide|]; set_solver.
Qed.

Lemma foldl_remove_step_no_backout (commits : list GeckoCommit) (S : gset string) :
  Forall (λ c, is_backout c = false) commits →
  foldl Backouts.remove_step S commits = S ∪ list_to_set (sha1 <$> commits).
Proof.
  intros Hnone. revert S.
  induction Hnone as [|c commits Hc _ IH]; intros S; simpl; [set_solver|].
  rewrite IH. unfold Backouts.remove_step. rewrite Hc. set_solver.
Qed.

Lemma filter_all {A} (P : A → Prop) `{!∀ x, Decision (P x)} (l : list A) :
  (∀ x, x ∈ l → P x) → filter P l = l.
Proof.
  induction l as [|x l IH]; intros Hall; [done|].
  rewrite filter_cons_True by (apply Hall; left).
  rewrite IH; [done|]. intros y Hy. apply Hall. by right.
Qed.

(** X2: a list of commits without any backout is returned unchanged by
    [remove_complete_backouts], whatever hashes the commits have. *)
Theorem remove_complete_backouts_no_backout (commits : list GeckoCommit) :
  Forall (λ c, is_backout c = false) commits →
  Backouts.remove_complete_backouts commits = commits.
Proof.
  intros Hnone. unfold Backouts.remove_complete_backouts,
    Backouts.commits_remaining_after.
  rewrite (foldl_remove_step_no_backout _ _ Hnone).
  apply filter_all. intros c Hc.
  rewrite elem_of_union, elem_of_list_to_set. right.
  by apply list_elem_of_fmap_2.
Qed.

Lemma remove_complete_backouts_no_backout_witness :
  Backouts.remove_complete_backouts [Examples.a; Examples.b; Examples.c]
  = [Examples.a; Examples.b; Examples.c].
Proof.
  apply remove_complete_backouts_no_backout. by repeat constructor.
Defined.

(** What remains after a prefix of the commits, restricted to what remains
    in the end, is what remains after the kept commits of the prefix. *)
Lemma remaining_of_kept_prefix (p q : list GeckoCommit) :
  NoDup (sha1 <$> (p ++ q)%list) →
  let F := Backouts.commits_remaining_after (p ++ q) in
  Backouts.commits_remaining_after (filter (λ item, sha1 item ∈ F) p)
  = Backouts.commits_remaining_after p ∩ F.
Proof.
  revert q. induction p as [|c p IH] using rev_ind; intros q Hnodup F.
  - unfold Backouts.commits_remaining_after. simpl. set_solver.
  - assert (F = Backouts.commits_remaining_after (p ++ c :: q)) as HF.
    { unfold F. by rewrite <- app_assoc. }
    specialize (IH (c :: q)). rewrite <- app_assoc in Hnodup. simpl in Hnodup.
    specialize (IH Hnodup). simpl in IH. rewrite <- HF in IH.
    rewrite fmap_app, fmap_cons in Hnodup.
    apply NoDup_app in Hnodup as (Hp & Hdisj & Hcq).
    apply NoDup_cons in Hcq as [Hcq Hq].
    assert (sha1 c ∉ sha1 <$> p) as Hcp.
    { intros Hin. apply (Hdisj _ Hin). left. }
    pose proof (foldl_remove_step_bound p ∅) as Hbound.
    fold (Backouts.commits_remaining_after p) in Hbound.
    assert (F = foldl Backouts.remove_step
                  (Backouts.remove_step (Backouts.commits_remaining_after p) c) q)
      as HFq.
    { rewrite HF. unfold Backouts.commits_remaining_after.
      by rewrite foldl_app. }
    pose proof (foldl_remove_step_bound q
      (Backouts.remove_step (Backouts.commits_remaining_after p) c)) as Hq_bound.
    rewrite <- HFq in Hq_bound.
    rewrite filter_app.
    assert (Backouts.commits_remaining_after (p ++ [c])
            = Backouts.remove_step (Backouts.commits_remaining_after p) c) as ->.
    { unfold Backouts.commits_remaining_after. by rewrite foldl_app. }
    set (R := Backouts.commits_remaining_after p) in *.
    unfold Backouts.remove_step in *.
    destruct (is_backout c) eqn:Hback.
    + case_bool_decide as Hsub.
      * (* the backout cancels: its hash and its targets are not in F *)
        assert (sha1 c ∉ F) as HcF.
        { intros Hin. apply Hq_bound in Hin.
          apply elem_of_union in Hin as [Hin|Hin].
          - apply elem_of_difference in Hin as [Hin _].
            apply Hbound in Hin. set_solver.
          - by apply elem_of_list_to_set in Hin. }
        rewrite filter_cons_False, filter_nil, app_nil_r by done.
        rewrite IH. apply set_eq. intros x.
        rewrite !elem_of_intersection, elem_of_difference.
        split; [|tauto]. intros [HxR HxF]. split; [|done]. split; [done|].
        intros Hx. apply Hq_bound in HxF.
        apply elem_of_union in HxF as [HxF|HxF]; [set_solver|].
        apply elem_of_list_to_set in HxF.
        apply Hbound in HxR. apply elem_of_union in HxR as [HxR|HxR]; [set_solver|].
        apply elem_of_list_to_set in HxR.
        apply (Hdisj _ HxR). by right.
      * destruct (decide (sha1 c ∈ F)) as [HcF|HcF].
        -- rewrite filter_cons_True, filter_nil by done.
           unfold Backouts.commits_remaining_after in *.
           rewrite foldl_app. simpl. rewrite IH.
           unfold Backouts.remove_step. rewrite Hback.
           rewrite bool_decide_eq_false_2 by set_solver. set_solver.
        -- rewrite filter_cons_False, filter_nil, app_nil_r by done.
           rewrite IH. set_solver.
    + destruct (decide (sha1 c ∈ F)) as [HcF|HcF].
      * rewrite filter_cons_True, filter_nil by done.
        unfold Backouts.commits_remaining_after in *.
        rewrite foldl_app. simpl. rewrite IH.
        unfold Backouts.remove_step. rewrite Hback. set_solver.
      * rewrite filter_cons_False, filter_nil, app_nil_r by done.
        rewrite IH. set_solver.
Qed.

(** X3: on commits with pairwise different hashes
    [remove_complete_backouts] is idempotent: what is left after the
    cancellation holds no backout that still cancels anything. *)
Theorem remove_complete_backouts_idempotent (commits : list GeckoCommit) :
  NoDup (sha1 <$> commits) →
  Backouts.remove_complete_backouts (Backouts.remove_complete_backouts commits)
  = Backouts.remove_complete_backouts commits.
Proof.
  intros Hnodup.
  pose proof (remaining_of_kept_prefix commits []) as Hkept.
  rewrite app_nil_r in Hkept. specialize (Hkept Hnodup). simpl in Hkept.
  unfold Backouts.remove_complete_backouts at 1.
  apply filter_all. intros c Hc.
  unfold Backouts.remove_complete_backouts in Hc |- *. rewrite Hkept.
  apply list_elem_of_filter in Hc as [Hc _]. set_solver.
Qed.

Lemma remove_complete_backouts_idempotent_witness :
  Backouts.remove_complete_backouts
    (Backouts.remove_complete_backouts [Examples.a; Examples.X; Examples.Y])
  = Backouts.remove_complete_backouts [Examples.a; Examples.X; Examples.Y].
Proof.
  apply remove_complete_backouts_idempotent.
  apply (bool_decide_unpack
           (NoDup (sha1 <$> [Examples.a; Examples.X; Examples.Y]))).
  vm_compute. exact I.
Defined.


(** ** The remote branch of a sync *)

Lemma string_app_nil_r (s : string) : s ++ "" = s.
Proof.
  induction s as [|a s IH]; [done|].
  change (String a (s ++ "") = String a s). by rewrite IH.
Qed.

Lemma substring_all (s : string) : String.substring 0 (String.length s) s = s.
Proof. induction s as [|a s IH]; simpl; [done | by rewrite IH]. Qed.

Lemma candidate_not_initial (initial_path : string) (n : nat) :
  initial_path ≠ initial_path ++ "-" ++ pretty n.
Proof.
  intros Heq. rewrite <- (string_app_nil_r initial_path) in Heq at 1.
  by apply String.app_inj in Heq.
Qed.

Lemma candidate_inj (initial_path : string) (n m : nat) :
  initial_path ++ "-" ++ pretty n = initial_path ++ "-" ++ pretty m → n = m.
Proof.
  intros Heq. apply String.app_inj in Heq. apply (String.app_inj "-") in Heq.
  by apply pretty_nat_inj in Heq.
Qed.

(** The loop runs out of candidates only after it has seen more paths
    than there are references: [seen] holds the paths found taken. *)
Lemma unused_path_enough_fuel (refs seen : gset string) (initial_path : string)
    (fuel count : nat) (path : string) :
  seen ⊆ refs →
  size seen + fuel = size refs →
  path ∉ seen →
  (∀ n, count < n → initial_path ++ "-" ++ pretty n ∉ seen) →
  (∀ n, count < n → path ≠ initial_path ++ "-" ++ pretty n) →
  is_Some (unused_path refs initial_path fuel count path).
Proof.
  revert seen count path.
  induction fuel as [|fuel IH]; intros seen count path Hsub Hsize Hpath Hfree Hnew;
    simpl; case_bool_decide as Hin; try by eexists.
  - exfalso. apply Hpath.
    rewrite (set_subseteq_size_eq seen refs Hsub); [done | lia].
  - apply (IH (seen ∪ {[ path ]})).
    + set_solver.
    + rewrite size_union by set_solver. rewrite size_singleton. lia.
    + apply not_elem_of_union. split; [apply Hfree; lia|].
      rewrite elem_of_singleton. intros Heq. by apply (Hnew (S count)); [lia|].
    + intros n Hn. apply not_elem_of_union. split; [apply Hfree; lia|].
      rewrite elem_of_singleton. intros Heq. by apply (Hnew n); [lia|].
    + intros n Hn Heq. apply candidate_inj in Heq. lia.
Qed.

Lemma unused_path_free (refs : gset string) (initial_path : string)
    (fuel count : nat) (path found : string) :
  (∃ suffix, path = initial_path ++ suffix) →
  unused_path refs initial_path fuel count path = Some found →
  (found ∉ refs) ∧ (∃ suffix, found = initial_path ++ suffix).
Proof.
  revert count path. induction fuel as [|fuel IH]; intros count path Hshape;
    simpl; case_bool_decide as Hin; try done.
  - intros [= <-]. by split.
  - apply IH. by eexists.
  - intros [= <-]. by split.
Qed.

(** X4: the loop of [get_or_create_remote_branch] that looks for a
    reference path not yet taken always ends, after at most as many
    retries as there are references, with a path that is not among the
    references and that extends [refs/remotes/origin/gecko/<bug>]. *)
Theorem unused_path_finds_free (refs : gset string) (initial_path : string) :
  ∃ found suffix,
    unused_path refs initial_path (size refs) 0 initial_path = Some found
    ∧ (found ∉ refs)
    ∧ found = initial_path ++ suffix.
Proof.
  destruct (unused_path_enough_fuel refs ∅ initial_path (size refs) 0 initial_path)
    as [found Hfound].
  - set_solver.
  - by rewrite size_empty.
  - set_solver.
  - set_solver.
  - intros n _. apply candidate_not_initial.
  - destruct (unused_path_free refs initial_path (size refs) 0 initial_path found)
      as (Hfree & suffix & Hshape); [exists ""; by rewrite string_app_nil_r|done|].
    by exists found, suffix.
Qed.

(** X5: [get_or_create_remote_branch] returns a non-empty branch name and
    stores it in the sync, changing nothing else and making no call; a
    sync that has a remote branch keeps it.  The only failure is the
    assertion of the setter, when the upstream of the local branch has a
    short name that starts with [refs/]; the state is then unchanged. *)
Theorem get_or_create_remote_branch_result (env : Env) (st : State) :
  match get_or_create_remote_branch env st with
  | (Ok name, st') =>
      truthy_str name = true
      ∧ st' = {| sync := with_remote_branch name (sync st); trace := trace st |}
      ∧ (truthy_str (remote_branch (sync st)) = false
         ∨ name = remote_branch (sync st))
  | (Raise e, st') =>
      e = AssertionError
      ∧ st' = st
      ∧ truthy_str (remote_branch (sync st)) = false
      ∧ ∃ shortname,
          branch_upstream env = Some shortname
          ∧ String.prefix "refs/" shortname = true
  end.
Proof.
  unfold get_or_create_remote_branch, set_remote_branch. run_m.
  destruct (truthy_str (remote_branch (sync st))) eqn:Hset; simpl.
  - rewrite Hset. simpl. split; [done|]. split; [|by right].
    destruct st as [s tr]. by destruct s.
  - destruct (unused_path_finds_free (wpt_references env)
                ("refs/remotes/origin/gecko/" ++ obj_id (sync st)))
      as (found & suffix & Hfound & _ & ->).
    assert (∀ rest : string,
              ("refs/remotes/origin/gecko/" ++ obj_id (sync st)) ++ rest
              = "refs/remotes/origin/gecko/" ++ (obj_id (sync st) ++ rest))
      as Hassoc by done.
    rewrite Hassoc in Hfound.
    destruct (branch_upstream env) as [shortname|] eqn:Hupstream; simpl.
    + destruct (String.eqb shortname "") eqn:Hempty; simpl.
      * rewrite Hset. simpl. rewrite Hfound. simpl.
        split; [done|]. split; [done | by left].
      * try rewrite Hempty; simpl.
        destruct (String.prefix "refs/" shortname) eqn:Hrefs; simpl.
        -- split; [done|]. split; [done|]. split; [done|]. by exists shortname.
        -- rewrite Hempty. simpl. split; [by rewrite Hempty|]. split; [done | by left].
    + rewrite Hset. simpl. rewrite Hfound. simpl.
      split; [done|]. split; [done | by left].
Qed.

(** ** What every operation keeps *)

Section RunsFacts.
Context (R : State → State → Prop) `{!PreOrder R}.

Lemma Runs_ret {A} (a : A) : Runs R (mret a).
Proof. intros st. reflexivity. Qed.

Lemma Runs_raise {A} (e : Exn) : Runs R (raise (A:=A) e).
Proof. intros st. reflexivity. Qed.

Lemma Runs_get_sync : Runs R get_sync.
Proof. intros st. reflexivity. Qed.

Lemma Runs_lift {A} (x : outcome A) : Runs R (lift x).
Proof. intros st. reflexivity. Qed.

Lemma Runs_assert (b : bool) : Runs R (assert b).
Proof. destruct b; [apply Runs_ret | apply Runs_raise]. Qed.

Lemma Runs_bind {A B} (m : M A) (f : A → M B) :
  Runs R m → (∀ a, Runs R (f a)) → Runs R (m ≫= f).
Proof.
  intros Hm Hf st. specialize (Hm st). unfold mbind, M_bind.
  destruct (m st) as [[a|e] st1]; simpl in *; [|done].
  etrans; [exact Hm | apply Hf].
Qed.

Lemma Runs_try_except {A} (m : M A) (catches : Exn → bool)
    (handler : Exn → M A) :
  Runs R m → (∀ e, Runs R (handler e)) → Runs R (try_except m catches handler).
Proof.
  intros Hm Hh st. specialize (Hm st). unfold try_except.
  destruct (m st) as [[a|e] st1]; simpl in *; [done|].
  destruct (catches e); simpl; [|done].
  etrans; [exact Hm | apply Hh].
Qed.

Lemma Runs_for_each {A} (l : list A) (body : A → M unit) :
  (∀ x, Runs R (body x)) → Runs R (for_each l body).
Proof.
  intros Hbody. induction l as [|x l IH]; simpl; [apply Runs_ret|].
  apply Runs_bind; [apply Hbody | by intros _].
Qed.
End RunsFacts.

Create HintDb runs.
#[local] Hint Resolve Runs_ret Runs_raise Runs_get_sync Runs_lift Runs_assert : runs.

Ltac runs_step :=
  match goal with
  | |- Runs _ (_ ≫= _) => apply Runs_bind; [apply _ | | intros ?]
  | |- Runs _ (try_except _ _ _) => apply Runs_try_except; [apply _ | | intros ?]
  | |- Runs _ (for_each _ _) => apply Runs_for_each; [apply _ | intros ?]
  | |- Runs _ (if ?b then _ else _) => destruct b
  | |- Runs _ (match ?x with _ => _ end) => destruct x
  | |- Runs _ _ => solve [eauto with runs typeclass_instances]
  end.

Ltac runs := repeat runs_step.

(** The operations are built from the same few writes: a relation that
    these keep is kept by every operation. *)
Section Footprint.
Context (R : State → State → Prop) `{!PreOrder R}.
Hypothesis R_modify : ∀ f, frame_safe f → Runs R (modify_sync f).
Hypothesis R_emit : ∀ e, quiet e → Runs R (emit e).
Hypothesis R_set_remote_branch : ∀ value, Runs R (set_remote_branch value).
Hypothesis R_create_pr : ∀ env, Runs R (create_pr env).
Hypothesis R_merge : ∀ pr_id, Runs R (emit (EvMergePull pr_id)).

#[local] Hint Resolve R_set_remote_branch R_create_pr R_merge : runs.
#[local] Hint Extern 1 (Runs _ (modify_sync _)) =>
  apply R_modify; intros ?; repeat split; reflexivity : runs.
#[local] Hint Extern 1 (Runs _ (emit _)) =>
  apply R_emit; cbv [quiet is_merge is_create_pull]; tauto : runs.

Lemma Runs_set_status value : Runs R (set_status value).
Proof using R_modify R_emit PreOrder0. unfold set_status. runs. Qed.
#[local] Hint Resolve Runs_set_status : runs.

Lemma Runs_finish env value : Runs R (finish env value).
Proof using R_modify R_emit R_set_remote_branch PreOrder0.
  unfold finish, base_finish. runs.
Qed.
#[local] Hint Resolve Runs_finish : runs.

Lemma Runs_get_or_create_remote_branch env :
  Runs R (get_or_create_remote_branch env).
Proof using R_set_remote_branch PreOrder0.
  unfold get_or_create_remote_branch. runs.
Qed.
#[local] Hint Resolve Runs_get_or_create_remote_branch : runs.

Lemma Runs_add_commit env commit : Runs R (add_commit env commit).
Proof using R_modify R_emit PreOrder0. unfold add_commit, repository. runs. Qed.
#[local] Hint Resolve Runs_add_commit : runs.

Lemma Runs_update_wpt_commits env : Runs R (update_wpt_commits env).
Proof using R_modify R_emit PreOrder0.
  unfold update_wpt_commits, add_commits. runs.
Qed.
#[local] Hint Resolve Runs_update_wpt_commits : runs.

Lemma Runs_push_commits env : Runs R (push_commits env).
Proof using R_emit R_set_remote_branch PreOrder0. unfold push_commits. runs. Qed.

Lemma Runs_set_landed_status env : Runs R (set_landed_status env).
Proof using R_emit PreOrder0. unfold set_landed_status. runs. Qed.

Lemma Runs_set_wpt_base env base : Runs R (set_wpt_base env base).
Proof using R_modify PreOrder0. unfold set_wpt_base. runs. Qed.
#[local] Hint Resolve Runs_push_commits Runs_set_landed_status
  Runs_set_wpt_base : runs.

Lemma Runs_update_github env : Runs R (update_github env).
Proof using R_modify R_emit R_set_remote_branch R_create_pr PreOrder0.
  unfold update_github. runs.
Qed.
#[local] Hint Resolve Runs_update_github : runs.

Lemma Runs_update_modified_sync env : Runs R (update_modified_sync env).
Proof using R_modify R_emit R_set_remote_branch R_create_pr PreOrder0.
  unfold update_modified_sync. runs.
Qed.

Lemma Runs_update_pr env action merge_sha base_sha merged_by :
  Runs R (update_pr env action merge_sha base_sha merged_by).
Proof using R_modify R_emit R_set_remote_branch PreOrder0.
  unfold update_pr. runs.
Qed.

(** [update_sync_pr] is [update_modified_sync] in a handler that
    catches every exception. *)
Lemma Runs_update_sync_pr env raise_on_error :
  Runs R (update_sync_pr env raise_on_error).
Proof using R_modify R_emit R_set_remote_branch R_create_pr PreOrder0.
  intros st. unfold update_sync_pr.
  pose proof (Runs_update_modified_sync env st) as Hrun.
  destruct (update_modified_sync env st) as [[[]|e] st1]; simpl in *.
  - etrans; [exact Hrun|].
    assert (Runs R (modify_sync (with_error None) ;; mret true)) as H by runs.
    apply H.
  - etrans; [exact Hrun|].
    assert (Runs R (modify_sync (with_error (Some "exception")) ;;
                    if raise_on_error then raise e else mret false))
      as H by runs.
    apply H.
Qed.
#[local] Hint Resolve Runs_update_modified_sync Runs_update_pr
  Runs_update_sync_pr : runs.

Lemma Runs_try_land_pr env : Runs R (try_land_pr env).
Proof using All. unfold try_land_pr. runs. Qed.
#[local] Hint Resolve Runs_try_land_pr : runs.

Lemma Runs_commit_check_changed env : Runs R (commit_check_changed env).
Proof using All. unfold commit_check_changed. runs. Qed.

Lemma Runs_update_sync env raise_on_error :
  Runs R (update_sync env raise_on_error).
Proof using All. unfold update_sync. runs. Qed.
#[local] Hint Resolve Runs_commit_check_changed Runs_update_sync : runs.

(** The operations that do not reach [try_land_pr] *)
Lemma Runs_run_no_landing env cmd :
  may_land cmd = false → Runs R (run env cmd).
Proof using R_modify R_emit R_set_remote_branch R_create_pr PreOrder0.
  intros Hcmd. destruct cmd; try discriminate Hcmd;
    unfold run, do_status_obj; runs.
Qed.

Lemma Runs_run env cmd : Runs R (run env cmd).
Proof using All. destruct cmd; unfold run, do_status_obj; runs. Qed.
End Footprint.

#[local] Instance kept_preorder : PreOrder kept.
Proof.
  split.
  - intros st. by repeat split.
  - intros st1 st2 st3 ((Hid1 & Hseq1 & Hg1 & Hh1) & Hpr1 & Hb1)
      ((Hid2 & Hseq2 & Hg2 & Hh2) & Hpr2 & Hb2).
    split; [|split].
    + repeat split; congruence.
    + intros Hset. rewrite Hpr2; [by apply Hpr1|]. by rewrite Hpr1.
    + auto.
Qed.

#[local] Instance emits_only_preorder (P : Event → Prop) : PreOrder (emits_only P).
Proof.
  split.
  - intros st. exists []. by rewrite app_nil_r.
  - intros st1 st2 st3 (e1 & Ht1 & He1) (e2 & Ht2 & He2).
    exists (e1 ++ e2)%list. split; [by rewrite Ht2, Ht1, app_assoc|].
    by apply Forall_app.
Qed.

#[local] Instance one_pull_preorder : PreOrder one_pull.
Proof.
  split.
  - intros st. split; [reflexivity | intros _; reflexivity].
  - intros st1 st2 st3 [Hkept1 Hone1] [Hkept2 Hone2].
    split; [by etrans|]. intros Hset. etrans; [by apply Hone1|].
    apply Hone2. destruct Hkept1 as (_ & Hpr & _). by rewrite (Hpr Hset).
Qed.

Lemma Kept_emit (e : Event) : Runs kept (emit e).
Proof. intros st. by repeat split. Qed.

Lemma Kept_modify_sync (f : UpstreamSync → UpstreamSync) :
  frame_safe f → Runs kept (modify_sync f).
Proof.
  intros Hf st. destruct (Hf (sync st)) as (Hgecko & Hpr & Hbranch).
  split; [done|]. split; [by intros _|].
  unfold branch_ok. simpl. by rewrite Hbranch.
Qed.

Lemma Kept_set_remote_branch value : Runs kept (set_remote_branch value).
Proof.
  intros st. unfold set_remote_branch. run_m.
  destruct value as [name|]; simpl.
  - destruct (String.eqb name "") eqn:Hname; simpl.
    + apply String.eqb_eq in Hname as ->. by repeat split.
    + destruct (String.prefix "refs/" name) eqn:Hrefs; simpl; by repeat split.
  - by repeat split.
Qed.

Lemma Kept_create_pr env : Runs kept (create_pr env).
Proof.
  intros st. unfold create_pr. run_m.
  destruct (truthy_int (pr (sync st))) eqn:Hpr; simpl; [reflexivity|].
  destruct (remote_branch (sync st)) as [head|] eqn:Hbranch; simpl; [|reflexivity].
  case_bool_decide; simpl; [|reflexivity].
  destruct (wpt_commits (sync st) !! 0%nat); simpl; [|reflexivity].
  split; [by repeat split|]. split.
  - intros Hset. unfold pr_kept in *. congruence.
  - unfold branch_ok. simpl. by rewrite Hbranch.
Qed.

Lemma Kept_run env cmd : Runs kept (run env cmd).
Proof.
  apply Runs_run; [apply _ | apply Kept_modify_sync | intros e _; apply Kept_emit
                  | apply Kept_set_remote_branch | apply Kept_create_pr
                  | intros pr_id; apply Kept_emit].
Qed.

(** X6: none of the operations of [run] (the replay, the reconciler, the
    landing attempt, [finish], the handlers of pull-request and check
    events, [update_sync] and the status command) replaces or clears the
    pull request of a sync: when the sync has a pull request before, it
    has the same one after, also when the operation ends in an
    exception. *)
Theorem run_keeps_pr (env : Env) (cmd : Command) (st : State) :
  truthy_int (pr (sync st)) = true →
  pr (sync (run env cmd st).2) = pr (sync st).
Proof. apply (Kept_run env cmd st). Qed.

Lemma run_keeps_pr_witness :
  pr (sync (run Examples.env0 CmdUpdateModifiedSync
              (Examples.start Examples.sync_backed_out)).2)
  = pr (sync (Examples.start Examples.sync_backed_out)).
Proof. apply run_keeps_pr. reflexivity. Defined.

(** X7: none of the operations of [run] changes the bug of a sync, its
    sequence number, its gecko commits or its gecko head; the gecko side
    moves only where a push is processed ([update_sync_heads]). *)
Theorem run_keeps_gecko (env : Env) (cmd : Command) (st : State) :
  same_gecko (sync st) (sync (run env cmd st).2).
Proof. apply (Kept_run env cmd st). Qed.

(** X8: the remote branch of a sync stays a short name: when it does not
    start with [refs/] before one of the operations of [run], it does not
    after it. *)
Theorem run_keeps_branch_ok (env : Env) (cmd : Command) (st : State) :
  branch_ok (sync st) → branch_ok (sync (run env cmd st).2).
Proof. apply (Kept_run env cmd st). Qed.

Lemma run_keeps_branch_ok_witness :
  branch_ok (sync (run Examples.env0 (CmdFinish "complete")
                     (Examples.start Examples.sync_pushed)).2).
Proof. apply run_keeps_branch_ok. reflexivity. Defined.

(** ** The calls an operation makes *)

Lemma new_events_refl (st : State) : new_events st st = [].
Proof. unfold new_events. by rewrite drop_all. Qed.

Lemma emits_only_new_events (P : Event → Prop) (st st' : State) :
  emits_only P st st' → Forall P (new_events st st').
Proof.
  intros (events & Htrace & Hall). unfold new_events.
  by rewrite Htrace, drop_app_length.
Qed.

Lemma emits_only_elem (P : Event → Prop) (st st' : State) (e : Event) :
  emits_only P st st' → e ∈ new_events st st' → P e.
Proof.
  intros Honly Hin. apply emits_only_new_events in Honly.
  by apply (proj1 (Forall_forall _ _) Honly).
Qed.

Lemma emits_only_emit (P : Event → Prop) (st : State) (e : Event) :
  P e → emits_only P st {| sync := sync st; trace := trace st ++ [e] |}.
Proof. intros He. exists [e]. split; [done | by constructor]. Qed.

Lemma emits_only_sync (P : Event → Prop) (st : State) (s : UpstreamSync) :
  emits_only P st {| sync := s; trace := trace st |}.
Proof. exists []. simpl. by rewrite app_nil_r. Qed.

Lemma emits_only_weaken (P Q : Event → Prop) (st st' : State) :
  (∀ e, P e → Q e) → emits_only P st st' → emits_only Q st st'.
Proof.
  intros Himpl (events & Htrace & Hall). exists events. split; [done|].
  by eapply Forall_impl.
Qed.

Lemma Only_emit (P : Event → Prop) (e : Event) : P e → Runs (emits_only P) (emit e).
Proof. intros He st. by apply emits_only_emit. Qed.

Lemma Only_modify_sync (P : Event → Prop) (f : UpstreamSync → UpstreamSync) :
  Runs (emits_only P) (modify_sync f).
Proof. intros st. apply emits_only_sync. Qed.

Lemma Only_set_remote_branch (P : Event → Prop) value :
  Runs (emits_only P) (set_remote_branch value).
Proof.
  unfold set_remote_branch.
  apply Runs_bind; [apply _ | | intros _; apply Only_modify_sync].
  destruct (truthy_str value); [apply Runs_assert | apply Runs_ret]; apply _.
Qed.

Lemma Only_create_pr (P : Event → Prop) env :
  (∀ e, ¬ is_merge e → P e) → Runs (emits_only P) (create_pr env).
Proof.
  intros HP. unfold create_pr.
  repeat first
    [ apply Runs_bind; [apply _ | | intros ?]
    | apply Only_modify_sync
    | apply Only_emit; apply HP; simpl; tauto
    | match goal with
      | |- Runs _ (if ?b then _ else _) => destruct b
      | |- Runs _ (match ?x with _ => _ end) => destruct x
      end
    | solve [eauto with runs typeclass_instances] ].
Qed.

(** X9: only the operations that reach [try_land_pr] ([try_land_pr],
    [update_sync] and [commit_check_changed]) merge a pull request; every
    other operation makes no merge call, whatever the collaborators
    answer. *)
Theorem no_merge_outside_landing (env : Env) (cmd : Command) (st : State) :
  may_land cmd = false →
  Forall (λ e, ¬ is_merge e) (new_events st (run env cmd st).2).
Proof.
  intros Hcmd. apply emits_only_new_events. revert st.
  apply Runs_run_no_landing; [apply _ | | | | | done].
  - intros f _. apply Only_modify_sync.
  - intros e [He _]. by apply Only_emit.
  - apply Only_set_remote_branch.
  - intros env'. by apply Only_create_pr.
Qed.

Lemma no_merge_outside_landing_witness :
  Forall (λ e, ¬ is_merge e)
         (new_events (Examples.start Examples.sync_pushed)
                     (run Examples.env0 CmdUpdateGithub
                          (Examples.start Examples.sync_pushed)).2).
Proof. apply no_merge_outside_landing. reflexivity. Defined.

Lemma Quiet_set_landed_status env : Runs (emits_only quiet) (set_landed_status env).
Proof. apply Runs_set_landed_status; [apply _|]. intros e He. by apply Only_emit. Qed.

Lemma Quiet_finish env value : Runs (emits_only quiet) (finish env value).
Proof.
  apply Runs_finish; [apply _ | | | ].
  - intros f _. apply Only_modify_sync.
  - intros e He. by apply Only_emit.
  - apply Only_set_remote_branch.
Qed.










(** X10: [try_land_pr] calls [merge_pull] for a pull request only when the
    sync is open, all its gecko commits have landed, the pull request is
    the one of the sync, the host reports no merge commit for it yet, the
    checks are successful or still pending, and the pull request is
    mergeable and approved. *)
Theorem try_land_pr_merges_only_when (env : Env) (st : State) (pr_id : Z) :
  EvMergePull pr_id ∈ new_events st (try_land_pr env st).2 →
  status (sync st) = "open"
  ∧ gecko_landed env (sync st) = Ok true
  ∧ pr (sync st) = Some pr_id
  ∧ pr_id ≠ 0%Z
  ∧ truthy_str (gh_merge_sha env pr_id) = false
  ∧ (Checks.get_check_status (gh_check_runs env (Some pr_id))).1
    ∈ [Checks.SUCCESS; Checks.PENDING]
  ∧ is_mergeable env pr_id = true
  ∧ is_approved env pr_id = true.
Proof.
  assert (∀ st1 st2, emits_only quiet st1 st2 →
            EvMergePull pr_id ∈ new_events st1 st2 → False) as Hquiet.
  { intros st1 st2 Honly Hin. by destruct (emits_only_elem _ _ _ _ Honly Hin) as [[] _]. }
  unfold try_land_pr. run_m.
  destruct (String.eqb (status (sync st)) "open") eqn:Hopen; simpl;
    [|rewrite new_events_refl; by intros ?%elem_of_nil].
  apply String.eqb_eq in Hopen.
  destruct (gecko_landed env (sync st)) as [[]|e] eqn:Hlanded; simpl;
    try (rewrite new_events_refl; by intros ?%elem_of_nil).
  destruct (pr (sync st)) as [p|] eqn:Hpr; simpl;
    [|rewrite new_events_refl; by intros ?%elem_of_nil].
  destruct (p =? 0)%Z eqn:Hp; simpl;
    [rewrite new_events_refl; by intros ?%elem_of_nil|].
  apply Z.eqb_neq in Hp.
  pose proof (Quiet_set_landed_status env st) as Hstep1.
  destruct (set_landed_status env st) as [[[]|e] st1] eqn:Hs1; simpl in *;
    [|intros Hin; by destruct (Hquiet _ _ Hstep1 Hin)].
  destruct (truthy_str (gh_merge_sha env p)) eqn:Hmerged; simpl.
  { pose proof (Quiet_finish env "wpt-merged"
                  {| sync := with_merge_sha (gh_merge_sha env p) (sync st1);
                     trace := trace st1 |}) as Hstep2.
    destruct (finish env "wpt-merged" _) as [[[]|e] st2]; simpl in *;
      intros Hin; exfalso; apply (Hquiet st st2); try done;
      (etrans; [exact Hstep1|]); (etrans; [|exact Hstep2]);
      apply emits_only_sync. }
  destruct (Checks.get_check_status (gh_check_runs env (Some p)))
    as [check_status checks] eqn:Hchecks; simpl.
  case_bool_decide as Hstatus; simpl;
    [|intros Hin; by destruct (Hquiet _ _ Hstep1 Hin)].
  destruct (is_mergeable env p) eqn:Hmergeable; simpl;
    [|intros Hin; by destruct (Hquiet _ _ Hstep1 Hin)].
  destruct (is_approved env p) eqn:Happroved; simpl;
    [|intros Hin; by destruct (Hquiet _ _ Hstep1 Hin)].
  intros Hin.
  assert (pr_id = p) as ->.
  2: { apply (f_equal fst) in Hchecks. simpl in Hchecks.
       split; [done|]. split; [done|]. split; [done|]. split; [done|].
       split; [done|]. split; [exact Hstatus|]. by split. }
  assert (emits_only (λ e, quiet e ∨ e = EvMergePull p) st
            {| sync := sync st1; trace := trace st1 ++ [EvMergePull p] |})
    as Hstep2.
  { etrans; [apply (emits_only_weaken quiet); [by left | exact Hstep1]|].
    apply emits_only_emit. by right. }
  destruct (merge_pull env p) as [err|sha]; simpl in *.
  - by destruct (emits_only_elem _ _ _ _ Hstep2 Hin) as [[[] _]|[= ->]].
  - match type of Hin with
    | context [finish env "wpt-merged" ?st2] =>
        pose proof (Quiet_finish env "wpt-merged" st2) as Hstep3;
        destruct (finish env "wpt-merged" st2) as [[[]|e] st3]
    end; simpl in *.
    + assert (emits_only (λ e, quiet e ∨ e = EvMergePull p) st st3) as Hall.
      { etrans; [exact Hstep2|].
        etrans; [|apply (emits_only_weaken quiet); [by left | exact Hstep3]].
        etrans; [apply (emits_only_emit _ _ (EvBzComment (obj_id (sync st))
                          ("Upstream PR merged by " ++ github_user env))); left;
                 cbv [quiet is_merge is_create_pull]; tauto|].
        apply emits_only_sync. }
      by destruct (emits_only_elem _ _ _ _ Hall Hin) as [[[] _]|[= ->]].
    + assert (emits_only (λ e, quiet e ∨ e = EvMergePull p) st st3) as Hall.
      { etrans; [exact Hstep2|].
        etrans; [|apply (emits_only_weaken quiet); [by left | exact Hstep3]].
        etrans; [apply (emits_only_emit _ _ (EvBzComment (obj_id (sync st))
                          ("Upstream PR merged by " ++ github_user env))); left;
                 cbv [quiet is_merge is_create_pull]; tauto|].
        apply emits_only_sync. }
      by destruct (emits_only_elem _ _ _ _ Hall Hin) as [[[] _]|[= ->]].
Qed.

Lemma try_land_pr_merges_only_when_witness :
  status (sync (Examples.start Examples.sync_pushed)) = "open"
  ∧ gecko_landed Examples.env_landed (sync (Examples.start Examples.sync_pushed))
    = Ok true
  ∧ pr (sync (Examples.start Examples.sync_pushed)) = Some 7%Z
  ∧ 7%Z ≠ 0%Z
  ∧ truthy_str (gh_merge_sha Examples.env_landed 7) = false
  ∧ (Checks.get_check_status (gh_check_runs Examples.env_landed (Some 7%Z))).1
    ∈ [Checks.SUCCESS; Checks.PENDING]
  ∧ is_mergeable Examples.env_landed 7 = true
  ∧ is_approved Examples.env_landed 7 = true.
Proof.
  apply try_land_pr_merges_only_when.
  apply (bool_decide_unpack
           (EvMergePull 7
            ∈ new_events (Examples.start Examples.sync_pushed)
                (try_land_pr Examples.env_landed
                   (Examples.start Examples.sync_pushed)).2)).
  vm_compute. exact I.
Defined.

Lemma One_pull_from {A} (m : M A) :
  Runs kept m → Runs (emits_only (λ e, ¬ is_create_pull e)) m → Runs one_pull m.
Proof. intros Hkept Honly st. split; [apply Hkept | intros _; apply Honly]. Qed.

Lemma One_pull_create_pr env : Runs one_pull (create_pr env).
Proof.
  intros st. split; [apply Kept_create_pr|]. intros Hset.
  unfold create_pr. run_m. rewrite Hset. simpl. reflexivity.
Qed.

Lemma One_pull_run env cmd : Runs one_pull (run env cmd).
Proof.
  apply Runs_run; [apply _ | | | | apply One_pull_create_pr | ].
  - intros f Hf. apply One_pull_from;
      [by apply Kept_modify_sync | apply Only_modify_sync].
  - intros e [_ He]. apply One_pull_from; [apply Kept_emit | by apply Only_emit].
  - intros value. apply One_pull_from;
      [apply Kept_set_remote_branch | apply Only_set_remote_branch].
  - intros pr_id. apply One_pull_from; [apply Kept_emit|].
    apply Only_emit. simpl. tauto.
Qed.

(** X11: a sync that has a pull request never gets a second one: none of
    the operations of [run] calls [create_pull] for it. *)
Theorem one_pull_request (env : Env) (cmd : Command) (st : State) :
  truthy_int (pr (sync st)) = true →
  Forall (λ e, ¬ is_create_pull e) (new_events st (run env cmd st).2).
Proof.
  intros Hset. apply emits_only_new_events.
  by apply (One_pull_run env cmd st).
Qed.

Lemma one_pull_request_witness :
  Forall (λ e, ¬ is_create_pull e)
         (new_events (Examples.start Examples.sync_pushed)
                     (run Examples.env0 (CmdUpdateSync true)
                          (Examples.start Examples.sync_pushed)).2).
Proof. apply one_pull_request. reflexivity. Defined.

(** X12: [update_github] creates a pull request only for a sync that has
    none, that has gecko commits, and whose side branch replays at least
    one of them. *)
Theorem update_github_creates_pull_only_when (env : Env) (st : State)
    (title head : string) :
  EvCreatePull title head ∈ new_events st (update_github env st).2 →
  truthy_int (pr (sync st)) = false
  ∧ gecko_commits (sync st) ≠ []
  ∧ upstreamed_gecko_commits env (sync st) ≠ [].
Proof.
  intros Hin.
  destruct (truthy_int (pr (sync st))) eqn:Hpr.
  { pose proof (One_pull_run env CmdUpdateGithub st) as [_ Hone].
    by destruct (emits_only_elem _ _ _ _ (Hone Hpr) Hin). }
  split; [done|]. revert Hin. unfold update_github. run_m.
  destruct (pr (sync st)) as [p|]; simpl in *; [rewrite Hpr; simpl|].
  all: destruct (gecko_commits (sync st)) as [|c gecko]; simpl;
    [rewrite new_events_refl; by intros ?%elem_of_nil|].
  all: destruct (upstreamed_gecko_commits env (sync st)) as [|u upstreamed];
    simpl; [rewrite new_events_refl; by intros ?%elem_of_nil | done].
Qed.

Lemma update_github_creates_pull_only_when_witness :
  truthy_int (pr (sync (Examples.start Examples.sync_replayed))) = false
  ∧ gecko_commits (sync (Examples.start Examples.sync_replayed)) ≠ []
  ∧ upstreamed_gecko_commits Examples.env_branch_pushed
      (sync (Examples.start Examples.sync_replayed)) ≠ [].
Proof.
  apply (update_github_creates_pull_only_when Examples.env_branch_pushed
           (Examples.start Examples.sync_replayed)
           "[Gecko Bug 1004] summary" "gecko/1004").
  apply (bool_decide_unpack
           (EvCreatePull "[Gecko Bug 1004] summary" "gecko/1004"
            ∈ new_events (Examples.start Examples.sync_replayed)
                (update_github Examples.env_branch_pushed
                   (Examples.start Examples.sync_replayed)).2)).
  vm_compute. exact I.
Defined.

(** ** Check notifications *)

(** X13: check runs that are not required never hold a pull request back:
    when no check run is required, in particular when there is none at
    all, the verdict is SUCCESS, whatever the runs' states are. *)
Theorem get_check_status_no_required (checks : gmap string Checks.CheckRun) :
  (∀ name item, checks !! name = Some item → Checks.required item = false) →
  Checks.get_check_status checks = (Checks.SUCCESS, checks).
Proof.
  intros Hnone. unfold Checks.get_check_status.
  assert (Checks.commit_checks_pass checks = true) as ->; [|done].
  unfold Checks.commit_checks_pass. apply forallb_forall. intros item Hitem.
  apply list_elem_of_In, elem_of_itervalues in Hitem as (name & Hitem).
  by rewrite (Hnone name item Hitem).
Qed.

Lemma get_check_status_no_required_witness :
  Checks.get_check_status {[ "docs" := Examples.optional_check ]}
  = (Checks.SUCCESS, {[ "docs" := Examples.optional_check ]}).
Proof.
  apply get_check_status_no_required. intros name item.
  destruct (decide (name = "docs")) as [->|Hne].
  - rewrite lookup_singleton_eq. by intros [= <-].
  - by rewrite lookup_singleton_ne.
Defined.

(** X14: a check notification is acted on once: unless the checks passed
    and the gecko commits have landed (when landing is tried), handling
    the same notification a second time changes nothing and makes no
    call at all, so the bug is not commented on twice for one verdict on
    one head. *)
Theorem commit_check_changed_notifies_once (env : Env) (st : State) :
  (Checks.get_check_status (gh_check_runs env (pr (sync st)))).1 ≠ Checks.SUCCESS
  ∨ gecko_landed env (sync st) ≠ Ok true →
  (commit_check_changed env (commit_check_changed env st).2).2
  = (commit_check_changed env st).2.
Proof.
  intros Hquiet. unfold commit_check_changed. run_m.
  destruct (String.eqb (status (sync st)) "open") eqn:Hopen; simpl;
    [|by rewrite Hopen].
  destruct (Checks.itervalues (gh_check_runs env (pr (sync st))))
    as [|first rest] eqn:Hchecks; simpl; [by rewrite Hopen, Hchecks|].
  set (check_status :=
         if Checks.commit_checks_pass (gh_check_runs env (pr (sync st)))
         then Checks.SUCCESS
         else if negb (Checks.commit_checks_complete
                         (gh_check_runs env (pr (sync st))))
              then Checks.PENDING else Checks.FAILURE) in *.
  set (this := (Checks.value check_status, Checks.head_sha first)) in *.
  destruct (bool_decide (check_status = Checks.SUCCESS)) eqn:Hsuccess; simpl.
  - apply bool_decide_eq_true in Hsuccess.
    destruct Hquiet as [Hquiet|Hquiet]; [done|].
    destruct (gecko_landed env (sync st)) as [[]|e] eqn:Hlanded; simpl;
      [done| |].
    + destruct (bool_decide (Some this = last_pr_check (sync st))); simpl;
        rewrite Hopen, Hchecks; simpl;
        fold check_status; fold this; rewrite (bool_decide_eq_true_2 _ Hsuccess);
        simpl; unfold gecko_landed in *; simpl; rewrite Hlanded; simpl;
        by rewrite bool_decide_eq_true_2.
    + rewrite Hopen, Hchecks; simpl.
      fold check_status; fold this. rewrite (bool_decide_eq_true_2 _ Hsuccess).
      simpl. unfold gecko_landed in *. simpl. by rewrite Hlanded.
  - destruct (bool_decide (check_status = Checks.FAILURE)) eqn:Hfailure; simpl.
    + destruct (bool_decide (last_pr_check (sync st) = Some this)) eqn:Hsame;
        simpl.
      * rewrite Hopen, Hchecks; simpl. fold check_status; fold this.
        rewrite Hsuccess, Hfailure. simpl.
        by rewrite bool_decide_eq_true_2.
      * destruct (bugsy_fails env (obj_id (sync st))); simpl.
        -- rewrite Hopen, Hchecks; simpl. fold check_status; fold this.
           rewrite Hsuccess, Hfailure. simpl.
           by rewrite bool_decide_eq_true_2.
        -- destruct (gecko_commits (sync st) !! 0%nat) as [c|]; simpl.
           ++ destruct (String.eqb (email c) ""); simpl;
                rewrite Hopen, Hchecks; simpl; fold check_status; fold this;
                rewrite Hsuccess, Hfailure; simpl;
                by rewrite bool_decide_eq_true_2.
           ++ rewrite Hopen, Hchecks; simpl. fold check_status; fold this.
              rewrite Hsuccess, Hfailure. simpl.
              by rewrite bool_decide_eq_true_2.
    + rewrite Hopen, Hchecks; simpl. fold check_status; fold this.
      by rewrite Hsuccess, Hfailure.
Qed.

Lemma commit_check_changed_notifies_once_witness :
  (commit_check_changed Examples.env_check_failed
     (commit_check_changed Examples.env_check_failed
        (Examples.start Examples.sync_pushed)).2).2
  = (commit_check_changed Examples.env_check_failed
       (Examples.start Examples.sync_pushed)).2.
Proof.
  apply commit_check_changed_notifies_once. left. vm_compute. discriminate.
Defined.

(** ** The replay touches the side branch only *)

#[local] Instance wpt_only_preorder : PreOrder wpt_only.
Proof.
  split.
  - intros [s tr]. split; [|reflexivity].
    exists (wpt_base s), (wpt_commits s). by destruct s.
  - intros st1 st2 st3 [(b1 & c1 & Hs1) He1] [(b2 & c2 & Hs2) He2].
    split; [|by etrans]. exists b2, c2. by rewrite Hs2, Hs1.
Qed.

Lemma Wpt_only_emit (e : Event) : is_worktree e → Runs wpt_only (emit e).
Proof.
  intros He st. split; [|by apply emits_only_emit].
  exists (wpt_base (sync st)), (wpt_commits (sync st)). simpl.
  by destruct (sync st).
Qed.

Lemma Wpt_only_modify_sync (f : UpstreamSync → UpstreamSync) :
  (∀ s, ∃ base commits, f s = with_wpt base commits s) →
  Runs wpt_only (modify_sync f).
Proof.
  intros Hf st. split; [apply Hf | apply emits_only_sync].
Qed.

(** X15: [update_wpt_commits], also when it fails, changes nothing of the
    sync but its wpt range, and the only calls it makes reset and clean
    the worktree and move commits. *)
Theorem update_wpt_commits_frame (env : Env) (st : State) :
  wpt_only st (update_wpt_commits env st).2.
Proof.
  revert st. change (Runs wpt_only (update_wpt_commits env)).
  unfold update_wpt_commits, add_commits, add_commit, repository.
  repeat first
    [ apply Runs_bind; [apply _ | | intros ?]
    | apply Runs_for_each; [apply _ | intros ?]
    | apply Wpt_only_emit; exact I
    | apply Wpt_only_modify_sync; intros ?; eexists _, _; reflexivity
    | match goal with
      | |- Runs _ (if ?b then _ else _) => destruct b
      | |- Runs _ (match ?x with _ => _ end) => destruct x
      end
    | solve [eauto with runs typeclass_instances] ].
Qed.

(** ** Pull-request events *)

(** X16: a [closed] event without a merge commit for a pull request that
    the sync already records as closed is handled like a merge: the bug
    gets the comment that the pull request was merged, the open sync is
    finished as wpt-merged, and its merge commit is [None]. *)
Theorem update_pr_closed_again (env : Env) (base_sha : option string)
    (merged_by : string) (st : State) :
  pr_status (sync st) = "closed" →
  status (sync st) = "open" →
  ∃ rest,
    new_events st (update_pr env "closed" None base_sha merged_by st).2
    = EvBzComment (obj_id (sync st)) ("Upstream PR merged by " ++ merged_by)
      :: EvStatus "open" "wpt-merged" :: rest
    ∧ status (sync (update_pr env "closed" None base_sha merged_by st).2)
      = "wpt-merged"
    ∧ merge_sha (sync (update_pr env "closed" None base_sha merged_by st).2)
      = None.
Proof.
  intros Hclosed Hopen. unfold update_pr, finish, base_finish, set_status,
    set_wpt_base, set_remote_branch, new_events.
  run_m. rewrite Hclosed, Hopen. simpl.
  destruct ((length (wpt_commits (sync st)) =? 0)%nat && truthy_str base_sha);
    simpl; rewrite Hopen; simpl.
  all: destruct (truthy_str (remote_branch (sync st))) eqn:Hbranch; simpl.
  all: try destruct (push_delete env (default "" (remote_branch (sync st))))
         as [[]|]; simpl.
  all: rewrite <- ?app_assoc, drop_app_length; simpl.
  all: by eexists.
Qed.

Lemma update_pr_closed_again_witness :
  ∃ rest,
    new_events (Examples.start Examples.sync_pr_closed)
      (update_pr Examples.env0 "closed" None None "alice"
         (Examples.start Examples.sync_pr_closed)).2
    = EvBzComment (obj_id (sync (Examples.start Examples.sync_pr_closed)))
        ("Upstream PR merged by " ++ "alice")
      :: EvStatus "open" "wpt-merged" :: rest
    ∧ status (sync (update_pr Examples.env0 "closed" None None "alice"
                      (Examples.start Examples.sync_pr_closed)).2)
      = "wpt-merged"
    ∧ merge_sha (sync (update_pr Examples.env0 "closed" None None "alice"
                         (Examples.start Examples.sync_pr_closed)).2)
      = None.
Proof. apply update_pr_closed_again; reflexivity. Defined.

(** X17: closing a pull request without a merge and reopening it leaves
    the sync as it was, with the pull request recorded as open again and
    one comment on the bug. *)
Theorem update_pr_closed_then_reopened (env : Env) (base_sha base_sha' : option string)
    (merge_sha' : option string) (merged_by merged_by' : string) (st : State) :
  pr_status (sync st) ≠ "closed" →
  update_pr env "reopened" merge_sha' base_sha' merged_by'
    (update_pr env "closed" None base_sha merged_by st).2
  = (Ok tt,
     {| sync := with_pr_status "open" (sync st);
        trace := trace st
                 ++ [EvBzComment (obj_id (sync st))
                       "Upstream PR was closed without merging"] |}).
Proof.
  intros Hopen. unfold update_pr. run_m.
  apply String.eqb_neq in Hopen. by rewrite Hopen.
Qed.

Lemma update_pr_closed_then_reopened_witness :
  update_pr Examples.env0 "reopened" None None "alice"
    (update_pr Examples.env0 "closed" None None "alice"
       (Examples.start Examples.sync_pushed)).2
  = (Ok tt,
     {| sync := with_pr_status "open" (sync (Examples.start Examples.sync_pushed));
        trace := trace (Examples.start Examples.sync_pushed)
                 ++ [EvBzComment (obj_id (sync (Examples.start Examples.sync_pushed)))
                       "Upstream PR was closed without merging"] |}).
Proof. apply update_pr_closed_then_reopened. discriminate. Defined.

(** ** The maps of syncs to create *)

(** What [updates_for_backout] returns as syncs to create: nothing at all,
    or a map with an anonymous list that holds at most the backout, and
    possibly the backout under one bug. *)
Lemma updates_for_backout_create (env : Env) (commit : GeckoCommit)
    (create : Grouping.CreateSyncs) (update : Grouping.UpdateSyncs) :
  Grouping.updates_for_backout env commit = Ok (create, update) →
  (create = ∅ ∧ update = ∅)
  ∨ ((create !! None = Some (Grouping.Anonymous [])
      ∨ create !! None
        = Some (Grouping.Anonymous [Grouping.new_endpoints commit]))
     ∧ ∀ bug_id entry, create !! Some bug_id = Some entry →
         entry = Grouping.ForBug (Grouping.new_endpoints commit)).
Proof.
  unfold Grouping.updates_for_backout.
  destruct (wpt_commits_backed_out commit) as [backed_out bugs].
  destruct (Grouping.backed_out_loop _ _ _ _ _) as [[[shas updates]|]|e];
    simpl; [| |done].
  - case_bool_decide; simpl.
    + intros [= <- <-]. right. split.
      * left. apply lookup_singleton_eq.
      * intros bug_id entry. by rewrite lookup_singleton_ne.
    + destruct (Grouping.find_backout_bug env updates bugs) as [backout_bug|];
        intros [= <- <-]; right; split.
      * left. rewrite lookup_insert_ne by done. apply lookup_singleton_eq.
      * intros bug_id entry.
        destruct (decide (backout_bug = bug_id)) as [->|Hne].
        -- rewrite lookup_insert_eq. by intros [= <-].
        -- rewrite lookup_insert_ne by congruence.
           by rewrite lookup_singleton_ne.
      * right. apply lookup_insert_eq.
      * intros bug_id entry. rewrite lookup_insert_ne by done.
        by rewrite lookup_singleton_ne.
  - intros [= <- <-]. by left.
Qed.

Lemma backed_out_loop_early (env : Env) (commit : GeckoCommit)
    (backed_out_commits : list BackedOut) (shas : gset string)
    (updates : Grouping.UpdateSyncs) r :
  Grouping.backed_out_loop env commit backed_out_commits shas updates = Ok r →
  r = None
  ↔ ∃ (backed_out : BackedOut) (sync : UpstreamSync),
      backed_out ∈ backed_out_commits
      ∧ last (for_bug env (bo_bug backed_out)) = Some sync
      ∧ Grouping.in_gecko_commits commit sync = true.
Proof.
  revert shas updates.
  induction backed_out_commits as [|x l IH]; intros shas updates; simpl.
  - intros [= <-]. split; [done|]. intros (b & s & Hin & _). by inversion Hin.
  - destruct (negb _); [done|].
    assert (∀ shas' updates',
              (∀ s, last (for_bug env (bo_bug x)) = Some s →
                    Grouping.in_gecko_commits commit s = false) →
              Grouping.backed_out_loop env commit l shas' updates' = Ok r →
              r = None
              ↔ ∃ (backed_out : BackedOut) (sync : UpstreamSync),
                  backed_out ∈ x :: l
                  ∧ last (for_bug env (bo_bug backed_out)) = Some sync
                  ∧ Grouping.in_gecko_commits commit sync = true) as Hnext.
    { intros shas' updates' Hx Hloop. rewrite (IH _ _ Hloop). split.
      - intros (b & s & Hin & Hlast & Hb). exists b, s. by repeat split; [right|..].
      - intros (b & s & Hin & Hlast & Hb).
        apply elem_of_cons in Hin as [->|Hin]; [|by exists b, s].
        rewrite (Hx s Hlast) in Hb. discriminate. }
    destruct (last (for_bug env (bo_bug x))) as [sync|] eqn:Hlast.
    + destruct (Grouping.in_gecko_commits commit sync) eqn:Hin.
      * intros [= <-]. split; [|done]. intros _. exists x, sync.
        by repeat split; [left|..].
      * assert (∀ s, Some sync = Some s →
                     Grouping.in_gecko_commits commit s = false) as Hx
          by (by intros s [= <-]).
        case_bool_decide; [case_bool_decide; [|done]|]; by apply Hnext.
    + by apply Hnext.
Qed.

(** [updates_for_backout] returns the empty pair exactly for a backout
    that a sync already holds. *)
Lemma updates_for_backout_empty (env : Env) (commit : GeckoCommit)
    (create : Grouping.CreateSyncs) (update : Grouping.UpdateSyncs) :
  Grouping.updates_for_backout env commit = Ok (create, update) →
  create !! None = None ↔ backout_in_sync env commit.
Proof.
  unfold Grouping.updates_for_backout, backout_in_sync.
  destruct (wpt_commits_backed_out commit) as [backed_out bugs]. simpl.
  destruct (Grouping.backed_out_loop _ _ _ _ _) as [r|e] eqn:Hloop;
    simpl; [|done].
  apply backed_out_loop_early in Hloop. rewrite <- Hloop.
  destruct r as [[shas updates]|].
  - case_bool_decide; simpl.
    + intros [= <- <-]. by rewrite lookup_singleton_eq.
    + destruct (Grouping.find_backout_bug env updates bugs) as [backout_bug|];
        intros [= <- <-].
      * rewrite lookup_insert_ne by done. by rewrite lookup_singleton_eq.
      * by rewrite lookup_insert_eq.
  - by intros [= <- <-].
Qed.

(** X18: merging the result of [updates_for_backout] replaces the
    anonymous list of syncs to create.  When the sync of a backed-out
    commit already holds the backout, nothing changes.  In every other
    case, whatever the dictionary held before, the list under [None]
    holds at most the backout itself afterwards: endpoints that earlier
    commits without a bug had put there are gone; and under a bug the
    entry is the backout or what it was before. *)
Theorem merge_backout_resets_anonymous (env : Env) (commit : GeckoCommit)
    (acc r : Grouping.CreateSyncs * Grouping.UpdateSyncs) :
  Grouping.merge_backout env commit acc = Ok r →
  (backout_in_sync env commit → r = acc)
  ∧ (¬ backout_in_sync env commit →
     (r.1 !! None = Some (Grouping.Anonymous [])
      ∨ r.1 !! None = Some (Grouping.Anonymous [Grouping.new_endpoints commit]))
     ∧ ∀ bug_id,
         r.1 !! Some bug_id = Some (Grouping.ForBug (Grouping.new_endpoints commit))
         ∨ r.1 !! Some bug_id = acc.1 !! Some bug_id).
Proof.
  unfold Grouping.merge_backout.
  destruct (Grouping.updates_for_backout env commit) as [[create update]|e]
    eqn:Hbackout; simpl; [|done].
  intros [= <-]. simpl.
  pose proof (updates_for_backout_empty _ _ _ _ Hbackout) as Hempty.
  apply updates_for_backout_create in Hbackout as [[-> ->]|[Hnone Hbugs]].
  - split.
    + intros _. rewrite !(left_id_L ∅ (∪)). by destruct acc.
    + intros Hno. exfalso. apply Hno, Hempty. apply lookup_empty.
  - split.
    + intros Hin. apply Hempty in Hin. destruct Hnone as [Hnone|Hnone];
        rewrite Hnone in Hin; discriminate.
    + intros _. split.
      * destruct Hnone as [Hnone|Hnone]; [left | right];
          by apply lookup_union_Some_l.
      * intros bug_id.
        destruct (create !! Some bug_id) as [entry|] eqn:Hentry.
        -- left. apply lookup_union_Some_l.
           by rewrite Hentry, (Hbugs bug_id entry Hentry).
        -- right. by apply lookup_union_r.
Qed.

Lemma merge_backout_resets_anonymous_witness :
  ∃ r,
    Grouping.merge_backout Examples.env0 Examples.Y Examples.one_anonymous = Ok r
    ∧ Examples.one_anonymous.1 !! None
      = Some (Grouping.Anonymous
                [Grouping.new_endpoints (Examples.commit "n" None)])
    ∧ r.1 !! None = Some (Grouping.Anonymous [])
    ∧ (backout_in_sync Examples.env0 Examples.Y → r = Examples.one_anonymous)
    ∧ (¬ backout_in_sync Examples.env0 Examples.Y →
       (r.1 !! None = Some (Grouping.Anonymous [])
        ∨ r.1 !! None
          = Some (Grouping.Anonymous [Grouping.new_endpoints Examples.Y]))
       ∧ ∀ bug_id,
           r.1 !! Some bug_id
           = Some (Grouping.ForBug (Grouping.new_endpoints Examples.Y))
           ∨ r.1 !! Some bug_id = Examples.one_anonymous.1 !! Some bug_id).
Proof.
  eexists. split; [vm_compute; reflexivity|].
  split; [apply lookup_singleton_eq|].
  split; [vm_compute; reflexivity|].
  apply (merge_backout_resets_anonymous Examples.env0 Examples.Y
           Examples.one_anonymous).
  vm_compute. reflexivity.
Defined.

Lemma merge_backout_shape (env : Env) (commit : GeckoCommit)
    (acc r : Grouping.CreateSyncs * Grouping.UpdateSyncs) :
  create_shape acc.1 →
  Grouping.merge_backout env commit acc = Ok r →
  create_shape r.1.
Proof.
  intros [[endpoints Hnone] Hbugs]. unfold Grouping.merge_backout.
  destruct (Grouping.updates_for_backout env commit) as [[create update]|e]
    eqn:Hbackout; simpl; [|done].
  intros [= <-]. simpl.
  apply updates_for_backout_create in Hbackout as [[-> ->]|[Hcreate Hentry]].
  - rewrite (left_id_L ∅ (∪)). split; [by exists endpoints | done].
  - split.
    + destruct Hcreate as [Hcreate|Hcreate]; eexists;
        by apply lookup_union_Some_l.
    + intros bug_id entry [Hin|[_ Hin]]%lookup_union_Some_raw.
      * eexists. by apply (Hentry bug_id).
      * by apply (Hbugs bug_id).
Qed.

Lemma sort_by_obj_id_error (l : list UpstreamSync) (e : Exn) :
  Grouping.sort_by_obj_id l = Raise e →
  e = ValueError "invalid literal for int()".
Proof.
  unfold Grouping.sort_by_obj_id.
  assert (∀ keyed : outcome (list (Z * UpstreamSync)),
            (∀ e', keyed = Raise e' → e' = ValueError "invalid literal for int()") →
            keyed ≫= (λ keyed, Ok ((foldl (λ sorted x,
                        Grouping.insert_by_key x sorted) [] keyed).*2)) = Raise e →
            e = ValueError "invalid literal for int()") as Hbind.
  { intros [keyed|e'] He'; simpl; [done|]. intros [= <-]. by apply He'. }
  apply Hbind. clear. induction l as [|x l IH]; intros e'; simpl; [done|].
  destruct (Grouping.py_int (obj_id x)); simpl; [|by intros [= <-]].
  destruct (mapM _ l) as [keyed|e'']; simpl; [done|].
  intros [= <-]. by apply IH.
Qed.

Lemma pick_most_recent_error (candidates : list string)
    (syncs : list UpstreamSync) (e : Exn) :
  Grouping.pick_most_recent candidates syncs = Raise e →
  e = ValueError "invalid literal for int()".
Proof.
  induction candidates as [|c candidates IH]; simpl; [done|].
  destruct (negb _); [|done].
  destruct (Grouping.sort_by_obj_id _) as [sorted|e'] eqn:Hsort; simpl; [done|].
  intros [= <-]. by apply sort_by_obj_id_error in Hsort.
Qed.

Lemma sync_for_bug_error (env : Env) (bug_id : option string) (e : Exn) :
  Grouping.sync_for_bug env bug_id = Raise e →
  e = ValueError "invalid literal for int()".
Proof.
  unfold Grouping.sync_for_bug.
  destruct (negb (bool_decide _)).
  - destruct (Grouping.pick_most_recent ["open"; "incomplete"]
                (for_bug env bug_id)) as [picked|e'] eqn:Hpicked.
    + simpl. by destruct (negb _).
    + intros [= <-]. by apply pick_most_recent_error in Hpicked.
  - simpl. by destruct (negb _).
Qed.

Lemma group_by_bug_shape (env : Env) (commit : GeckoCommit)
    (acc : Grouping.CreateSyncs * Grouping.UpdateSyncs) :
  create_shape acc.1 →
  match Grouping.group_by_bug env commit acc with
  | Ok r => create_shape r.1
  | Raise e => e = ValueError "invalid literal for int()"
  end.
Proof.
  destruct acc as [create update]. intros [[endpoints Hnone] Hbugs].
  unfold Grouping.group_by_bug. simpl in *.
  match goal with
  | |- context [mbind _ ?x] => destruct x as [[sync|]|e] eqn:Hfound
  end; simpl.
  - destruct (negb _); [by split; [eexists|]|].
    case_bool_decide; by split; [eexists|].
  - destruct (bug commit) as [bug_id|] eqn:Hbug.
    + destruct (create !! Some bug_id) as [[l|ep]|] eqn:Hentry; simpl.
      * by destruct (Hbugs _ _ Hentry).
      * split.
        -- exists endpoints. by rewrite lookup_insert_ne.
        -- intros b entry. destruct (decide (bug_id = b)) as [->|Hne].
           ++ rewrite lookup_insert_eq. intros [= <-]. by eexists.
           ++ rewrite lookup_insert_ne by congruence. apply Hbugs.
      * split.
        -- exists endpoints. by rewrite lookup_insert_ne.
        -- intros b entry. destruct (decide (bug_id = b)) as [->|Hne].
           ++ rewrite lookup_insert_eq. intros [= <-]. by eexists.
           ++ rewrite lookup_insert_ne by congruence. apply Hbugs.
    + rewrite Hnone. simpl. split.
      * eexists. apply lookup_insert_eq.
      * intros b entry. rewrite lookup_insert_ne by done. apply Hbugs.
  - destruct (update !! bug commit) as [[sync c]|]; [done|].
    by apply sync_for_bug_error in Hfound.
Qed.

Lemma backed_out_loop_error (env : Env) (commit : GeckoCommit)
    (backed_out : list BackedOut) (shas : gset string)
    (updates : Grouping.UpdateSyncs) (e : Exn) :
  Grouping.backed_out_loop env commit backed_out shas updates = Raise e →
  e ≠ OtherException "AttributeError".
Proof.
  revert shas updates.
  induction backed_out as [|b backed_out IH]; intros shas updates; simpl; [done|].
  destruct (negb (bool_decide _)); [by intros [= <-]|].
  destruct (last (for_bug env (bo_bug b))) as [sync|]; [|apply IH].
  destruct (Grouping.in_gecko_commits commit sync); [done|].
  case_bool_decide; [|apply IH].
  case_bool_decide; [apply IH | by intros [= <-]].
Qed.

Lemma merge_backout_error (env : Env) (commit : GeckoCommit)
    (acc : Grouping.CreateSyncs * Grouping.UpdateSyncs) (e : Exn) :
  Grouping.merge_backout env commit acc = Raise e →
  e ≠ OtherException "AttributeError".
Proof.
  unfold Grouping.merge_backout, Grouping.updates_for_backout.
  destruct (wpt_commits_backed_out commit) as [backed_out bugs].
  destruct (Grouping.backed_out_loop _ _ _ _ _) as [[[shas updates]|]|e']
    eqn:Hloop; simpl.
  - case_bool_decide; simpl; [done|].
    by destruct (Grouping.find_backout_bug env updates bugs).
  - done.
  - intros [= <-]. by apply backed_out_loop_error in Hloop.
Qed.

Lemma process_commit_shape (env : Env) (commit : GeckoCommit)
    (acc : Grouping.CreateSyncs * Grouping.UpdateSyncs) :
  create_shape acc.1 →
  match Grouping.process_commit env acc commit with
  | Ok r => create_shape r.1
  | Raise e => e ≠ OtherException "AttributeError"
  end.
Proof.
  intros Hshape. unfold Grouping.process_commit.
  destruct (has_upstream_sync commit); [done|].
  assert (∀ acc', create_shape acc'.1 →
            match (if is_downstream commit || is_landing commit then Ok acc'
                   else Grouping.group_by_bug env commit acc') with
            | Ok r => create_shape r.1
            | Raise e => e ≠ OtherException "AttributeError"
            end) as Hrest.
  { intros acc' Hshape'. destruct (_ || _); [done|].
    pose proof (group_by_bug_shape env commit acc' Hshape') as Hgroup.
    destruct (Grouping.group_by_bug env commit acc'); [done|]. by subst. }
  destruct (is_backout commit); simpl; [|by apply Hrest].
  destruct (Grouping.merge_backout env commit acc) as [acc'|e] eqn:Hmerge; simpl.
  - apply Hrest. by eapply merge_backout_shape.
  - by eapply merge_backout_error.
Qed.

Lemma process_commits_shape (env : Env) (commits : list GeckoCommit)
    (acc : Grouping.CreateSyncs * Grouping.UpdateSyncs) :
  create_shape acc.1 →
  match Grouping.process_commits env acc commits with
  | Ok r => create_shape r.1
  | Raise e => e ≠ OtherException "AttributeError"
  end.
Proof.
  revert acc. induction commits as [|commit commits IH]; intros acc Hshape;
    simpl; [done|].
  pose proof (process_commit_shape env commit acc Hshape) as Hstep.
  destruct (Grouping.process_commit env acc commit) as [acc'|e]; simpl; [|done].
  by apply IH.
Qed.

(** X19: the map of syncs to create that [updated_syncs_for_push] returns
    always has a list under the key [None] and a single [Endpoints] under
    every bug, and the grouping never fails on a value of the wrong kind
    (an [AttributeError]). *)
Theorem updated_syncs_for_push_shape (env : Env) (enumerated : list GeckoCommit) :
  match Grouping.updated_syncs_for_push env enumerated with
  | Ok (Some r) => create_shape r.1
  | Ok None => True
  | Raise e => e ≠ OtherException "AttributeError"
  end.
Proof.
  unfold Grouping.updated_syncs_for_push.
  destruct (length (Grouping.filter_commits enumerated) =? 0)%nat; [done|].
  destruct (length _ =? 0)%nat; [done|].
  pose proof (process_commits_shape env
                (Backouts.remove_complete_backouts
                   (Grouping.filter_commits enumerated))
                ({[ None := Grouping.Anonymous [] ]}, ∅)) as Hloop.
  destruct (Grouping.process_commits _ _ _) as [r|e]; simpl; apply Hloop.
  all: split; simpl; [eexists; apply lookup_singleton_eq|].
  all: intros bug_id entry; by rewrite lookup_singleton_ne.
Qed.

(** ** The commit filter of a sync *)

Lemma filter_commit_step (is_empty : GeckoCommit → bool) (bug_id : string)
    (seen : gset string) (commit : GeckoCommit) :
  let r := BackoutCommitFilter._filter_commit is_empty bug_id seen commit in
  seen ⊆ r.2
  ∧ r.2 ⊆ seen ∪ {[ sha1 commit ]}
  ∧ (r.2 ≠ seen → r.1 = true ∧ bug commit = Some bug_id)
  ∧ (r.1 = true →
     wptsync_skip commit = false ∧ has_downstream_metadata commit = false
     ∧ ((bug commit = Some bug_id ∧ is_empty commit = false ∧ sha1 commit ∈ r.2)
        ∨ (is_backout commit = true
           ∧ ∃ b, b ∈ (wpt_commits_backed_out commit).1 ∧ bo_sha1 b ∈ seen))).
Proof.
  unfold BackoutCommitFilter._filter_commit.
  destruct (wptsync_skip commit); simpl; [repeat split; first [done | set_solver]|].
  destruct (has_downstream_metadata commit); simpl; [repeat split; first [done | set_solver]|].
  destruct (is_backout commit && existsb _ _) eqn:Hbackout; simpl.
  - apply andb_prop in Hbackout as [Hback Hseen].
    apply existsb_exists in Hseen as (b & Hb & Hin).
    apply bool_decide_eq_true in Hin. apply list_elem_of_In in Hb.
    split; [done|]. split; [set_solver|]. split; [done|]. intros _.
    split; [done|]. split; [done|]. right. split; [done|]. by exists b.
  - case_bool_decide as Hbug; simpl; [|repeat split; first [done | set_solver]].
    destruct (is_empty commit) eqn:Hempty; simpl; [repeat split; first [done | set_solver]|].
    split; [set_solver|]. split; [done|]. split; [done|]. intros _.
    split; [done|]. split; [done|]. left. split; [done|]. split; [done|].
    set_solver.
Qed.

(** X20: the commits that the filter of a bug admits keep their order;
    none of them carries the skip marker or downstream metadata; each is
    a non-empty commit of the bug, whose hash the filter has seen, or a
    backout of a commit that the filter has seen; and the filter has seen
    nothing but what it started with and the hashes of admitted commits
    of the bug. *)
Theorem admitted_commits (is_empty : GeckoCommit → bool) (bug_id : string)
    (seen : gset string) (commits : list GeckoCommit) :
  let kept := (BackoutCommitFilter.admitted is_empty bug_id seen commits).1 in
  let seen' := (BackoutCommitFilter.admitted is_empty bug_id seen commits).2 in
  kept `sublist_of` commits
  ∧ seen ⊆ seen'
  ∧ Forall (λ commit,
              wptsync_skip commit = false
              ∧ has_downstream_metadata commit = false
              ∧ ((bug commit = Some bug_id ∧ is_empty commit = false
                  ∧ sha1 commit ∈ seen')
                 ∨ (is_backout commit = true
                    ∧ ∃ b, b ∈ (wpt_commits_backed_out commit).1
                           ∧ bo_sha1 b ∈ seen'))) kept
  ∧ (∀ sha, sha ∈ seen' →
       sha ∈ seen
       ∨ ∃ commit, commit ∈ kept ∧ sha1 commit = sha ∧ bug commit = Some bug_id).
Proof.
  revert seen. induction commits as [|commit commits IH]; intros seen; simpl.
  - split; [done|]. split; [done|]. split; [constructor|]. intros sha Hsha. by left.
  - pose proof (filter_commit_step is_empty bug_id seen commit) as Hstep.
    destruct (BackoutCommitFilter._filter_commit is_empty bug_id seen commit)
      as [keep seen1] eqn:Hcommit.
    specialize (IH seen1).
    destruct (BackoutCommitFilter.admitted is_empty bug_id seen1 commits)
      as [kept seen2] eqn:Hrest.
    simpl in *.
    destruct Hstep as (Hgrow & Hbound & Hadded & Hkeep).
    destruct IH as (Hsub & Hgrow' & Hall & Hseen).
    split; [|split; [|split]].
    + destruct keep; [by constructor | by apply sublist_cons].
    + set_solver.
    + destruct keep; [|done]. constructor; [|done].
      destruct (Hkeep eq_refl) as (Hskip & Hmeta & Hwhy).
      split; [done|]. split; [done|].
      destruct Hwhy as [(Hbug & Hempty & Hin)|(Hback & b & Hb & Hin)].
      * left. split; [done|]. split; [done|]. set_solver.
      * right. split; [done|]. exists b. split; [done|]. set_solver.
    + intros sha Hsha. destruct (Hseen sha Hsha) as [Hin|(c & Hc & Hsha1 & Hbug)].
      * destruct (decide (sha ∈ seen)) as [?|Hnew]; [by left|].
        right. assert (seen1 ≠ seen) as Hne by set_solver.
        destruct (Hadded Hne) as [-> Hbug].
        exists commit. split; [left|]. split; [|done].
        apply Hbound in Hin. set_solver.
      * right. exists c. split; [|done].
        destruct keep; [by right | done].
Qed.

(** ** Creating the syncs of a push *)

Lemma create_for_endpoints_bug (bz_new : string → string) (b : string)
    (endpoints : list Grouping.Endpoints) (rv : list NewSync) (filed : list string) :
  create_for_endpoints bz_new (Some b) endpoints rv filed
  = ((rv ++ ((λ endpoint, {| new_bug := b; new_range := endpoint |}) <$> endpoints))%list,
     filed).
Proof.
  revert rv. induction endpoints as [|e endpoints IH]; intros rv; simpl.
  - by rewrite app_nil_r.
  - by rewrite IH, <- app_assoc.
Qed.

Lemma create_for_key_shaped (bz_new : string → string)
    (rv : list NewSync) (filed : list string)
    (item : option string * Grouping.CreateEntry) :
  match item with
  | (Some _, Grouping.ForBug _) | (None, Grouping.Anonymous _) => True
  | _ => False
  end →
  create_for_key bz_new (Ok (rv, filed)) item
  = Ok ((rv ++ requests_for bz_new item)%list, (filed ++ filed_for item)%list).
Proof.
  destruct item as [[b|] [endpoints|endpoint]]; try done; intros _; simpl.
  - by rewrite app_nil_r.
  - destruct endpoints as [|e endpoints]; simpl; [by rewrite !app_nil_r|].
    by rewrite create_for_endpoints_bug, <- app_assoc.
Qed.

Lemma create_syncs_items (bz_new : string → string)
    (items : list (option string * Grouping.CreateEntry))
    (rv : list NewSync) (filed : list string) :
  Forall (λ item, match item with
                  | (Some _, Grouping.ForBug _) | (None, Grouping.Anonymous _) => True
                  | _ => False
                  end) items →
  foldl (create_for_key bz_new) (Ok (rv, filed)) items
  = Ok ((rv ++ (items ≫= requests_for bz_new))%list,
        (filed ++ (items ≫= filed_for))%list).
Proof.
  intros Hitems. revert rv filed.
  induction Hitems as [|item items Hitem _ IH]; intros rv filed.
  - simpl. by rewrite !app_nil_r.
  - cbn [foldl]. rewrite (create_for_key_shaped _ _ _ _ Hitem), IH.
    simpl. by rewrite <- !app_assoc.
Qed.

Lemma filed_for_keys (items : list (option string * Grouping.CreateEntry)) :
  None ∉ items.*1 → items ≫= filed_for = [].
Proof.
  induction items as [|[[b|] entry] items IH]; intros Hnone; [done| |].
  - change (filed_for (Some b, entry) ++ (items ≫= filed_for) = [])%list.
    rewrite IH by set_solver. by destruct entry.
  - set_solver.
Qed.

Lemma filed_for_once (items : list (option string * Grouping.CreateEntry)) :
  NoDup items.*1 → (length (items ≫= filed_for) ≤ 1)%nat.
Proof.
  induction items as [|[key entry] items IH]; intros Hnodup; [simpl; lia|].
  change (length (filed_for (key, entry) ++ (items ≫= filed_for)) ≤ 1)%nat.
  rewrite fmap_cons in Hnodup. apply NoDup_cons in Hnodup as [Hkey Hnodup].
  rewrite length_app. destruct key as [b|].
  - specialize (IH Hnodup). destruct entry; simpl; lia.
  - rewrite (filed_for_keys items Hkey).
    destruct entry as [[|e l]|]; simpl; lia.
Qed.

Lemma times_app {A} `{EqDecision A} (x : A) (l k : list A) :
  times x (l ++ k) = (times x l + times x k)%nat.
Proof. unfold times. by rewrite filter_app, length_app. Qed.

Lemma times_Permutation {A} `{EqDecision A} (x : A) (l k : list A) :
  l ≡ₚ k → times x l = times x k.
Proof. unfold times. by intros ->. Qed.

(** The calls for the endpoints of one bug *)
Lemma times_requests_of_bug (b : string) (endpoints : list Grouping.Endpoints)
    (request : NewSync) :
  times request ((λ endpoint, {| new_bug := b; new_range := endpoint |})
                   <$> endpoints)
  = if bool_decide (new_bug request = b)
    then times (new_range request) endpoints else 0%nat.
Proof.
  unfold times. induction endpoints as [|e endpoints IH].
  - by case_bool_decide.
  - rewrite fmap_cons.
    destruct (decide (new_bug request = b)) as [Hb|Hb].
    + rewrite bool_decide_eq_true_2 in IH |- * by done.
      destruct (decide (e = new_range request)) as [He|He].
      * rewrite (filter_cons_True _ e) by done.
        rewrite filter_cons_True by (destruct request; simpl in *; congruence).
        simpl. by rewrite IH.
      * rewrite (filter_cons_False _ e) by done.
        rewrite filter_cons_False by (intros <-; by apply He).
        exact IH.
    + rewrite bool_decide_eq_false_2 in IH |- * by done.
      rewrite filter_cons_False by (intros <-; by apply Hb).
      exact IH.
Qed.

(** The calls for the bugs of the dictionary: one for each key. *)
Lemma length_requests_for_bugs (bz_new : string → string)
    (items : list (option string * Grouping.CreateEntry)) :
  Forall (λ item, ∃ b endpoint, item = (Some b, Grouping.ForBug endpoint)) items →
  length (items ≫= requests_for bz_new) = length items.
Proof.
  induction 1 as [|item items (b & e & ->) _ IH]; [done|].
  rewrite bind_cons. simpl. by rewrite IH.
Qed.

Lemma times_requests_for_bugs (bz_new : string → string)
    (items : list (option string * Grouping.CreateEntry)) (request : NewSync) :
  NoDup items.*1 →
  Forall (λ item, ∃ b endpoint, item = (Some b, Grouping.ForBug endpoint)) items →
  times request (items ≫= requests_for bz_new)
  = if bool_decide ((Some (new_bug request), Grouping.ForBug (new_range request))
                    ∈ items)
    then 1%nat else 0%nat.
Proof.
  intros Hnodup Hitems.
  induction Hitems as [|item items (b & e & ->) _ IH].
  - rewrite bool_decide_eq_false_2; [done|]. by intros ?%elem_of_nil.
  - rewrite fmap_cons in Hnodup. apply NoDup_cons in Hnodup as [Hkey Hnodup].
    specialize (IH Hnodup).
    rewrite bind_cons, times_app, IH.
    change (requests_for bz_new (Some b, Grouping.ForBug e))
      with ((λ endpoint, {| new_bug := b; new_range := endpoint |}) <$> [e]).
    rewrite times_requests_of_bug.
    destruct (decide (new_bug request = b ∧ new_range request = e))
      as [[Hb He]|Hne].
    + subst b e. rewrite (bool_decide_eq_true_2 (new_bug request = _)) by done.
      unfold times. rewrite filter_cons_True by done. simpl.
      rewrite (bool_decide_eq_false_2 (_ ∈ items)).
      2:{ intros Hin. apply Hkey.
          by apply (list_elem_of_fmap_2 fst) in Hin. }
      rewrite bool_decide_eq_true_2; [done|]. by left.
    + assert ((if bool_decide (new_bug request = b)
               then times (new_range request) [e] else 0%nat) = 0%nat) as ->.
      { destruct (decide (new_bug request = b)) as [Hb|Hb].
        - rewrite bool_decide_eq_true_2 by done. unfold times.
          rewrite filter_cons_False; [done|]. intros ->. by apply Hne.
        - by rewrite bool_decide_eq_false_2. }
      simpl. apply (f_equal (λ c : bool, if c then 1%nat else 0%nat)).
      apply bool_decide_ext. rewrite elem_of_cons. split; [by right|].
      intros [[= Hb He]|]; [|done]. exfalso. by apply Hne.
Qed.

(** X21: on a well-shaped dictionary [create_syncs] never fails and files
    at most one bug, for the head of the first endpoint of the anonymous
    list.  It calls [UpstreamSync.new] exactly once for every bug with
    its endpoints and once for every anonymous endpoint, and all
    anonymous endpoints get the one bug that was filed for the first of
    them: a call occurs among the calls once when it is the call of a bug
    of the dictionary, plus as often as its endpoints occur in the
    anonymous list when its bug is the filed one, so that there are as
    many calls as bugs and anonymous endpoints together. *)
Theorem create_syncs_one_bug (bz_new : string → string)
    (create_endpoints : Grouping.CreateSyncs) :
  create_shape create_endpoints →
  ∃ requests filed,
    create_syncs bz_new create_endpoints = Ok (requests, filed)
    ∧ (length filed ≤ 1)%nat
    ∧ (∀ rev, rev ∈ filed ↔
         ∃ endpoints first_endpoint,
           create_endpoints !! None = Some (Grouping.Anonymous endpoints)
           ∧ endpoints !! 0%nat = Some first_endpoint
           ∧ rev = canonical_rev (head_commit first_endpoint))
    ∧ (∀ request, request ∈ requests ↔
         create_endpoints !! Some (new_bug request)
         = Some (Grouping.ForBug (new_range request))
         ∨ ∃ endpoints first_endpoint,
             create_endpoints !! None = Some (Grouping.Anonymous endpoints)
             ∧ endpoints !! 0%nat = Some first_endpoint
             ∧ new_range request ∈ endpoints
             ∧ new_bug request
               = bz_new (canonical_rev (head_commit first_endpoint)))
    ∧ requests = map_to_list create_endpoints ≫= requests_for bz_new
    ∧ (∀ endpoints,
         create_endpoints !! None = Some (Grouping.Anonymous endpoints) →
         length requests = (length endpoints + (size create_endpoints - 1))%nat
         ∧ ∀ request,
             times request requests
             = ((if bool_decide (create_endpoints !! Some (new_bug request)
                                 = Some (Grouping.ForBug (new_range request)))
                 then 1 else 0)
                + match endpoints !! 0%nat with
                  | Some first_endpoint =>
                      if bool_decide
                           (new_bug request
                            = bz_new (canonical_rev (head_commit first_endpoint)))
                      then times (new_range request) endpoints else 0
                  | None => 0
                  end)%nat).
Proof.
  intros [[anonymous Hnone] Hbugs]. unfold create_syncs.
  rewrite create_syncs_items.
  2: { apply Forall_forall. intros [[b|] entry] Hin%elem_of_map_to_list.
       - by destruct (Hbugs _ _ Hin) as [e ->].
       - rewrite Hnone in Hin. by injection Hin as <-. }
  eexists _, _. split; [done|]. simpl. split; [|split; [|split; [|split]]].
  - apply filed_for_once, NoDup_fst_map_to_list.
  - intros rev. rewrite list_elem_of_bind. split.
    + intros ([[b|] [[|e l]|ep]] & Hrev & Hin%elem_of_map_to_list); simpl in Hrev;
        try by apply elem_of_nil in Hrev.
      apply list_elem_of_singleton in Hrev as ->. by exists (e :: l), e.
    + intros (endpoints & e & Hlookup & Hfirst & ->).
      exists (None, Grouping.Anonymous endpoints). split.
      * destruct endpoints as [|e' l]; [done|]. injection Hfirst as ->.
        simpl. by left.
      * by apply elem_of_map_to_list.
  - intros request. rewrite list_elem_of_bind. split.
    + intros ([[b|] [[|e l]|ep]] & Hreq & Hin%elem_of_map_to_list); simpl in Hreq;
        try by apply elem_of_nil in Hreq.
      * apply list_elem_of_singleton in Hreq as ->. by left.
      * right. exists (e :: l), e.
        apply (proj1 (list_elem_of_fmap
                 (λ endpoint,
                    {| new_bug := bz_new (canonical_rev (head_commit e));
                       new_range := endpoint |}) (e :: l) request))
          in Hreq as (x & -> & Hx).
        by repeat split.
    + intros [Hbug|(endpoints & e & Hlookup & Hfirst & Hin & Hnew)].
      * exists (Some (new_bug request), Grouping.ForBug (new_range request)).
        split; [|by apply elem_of_map_to_list].
        simpl. destruct request. by left.
      * exists (None, Grouping.Anonymous endpoints).
        split; [|by apply elem_of_map_to_list].
        destruct endpoints as [|e' l]; [done|]. injection Hfirst as ->.
        apply (proj2 (list_elem_of_fmap
                 (λ endpoint,
                    {| new_bug := bz_new (canonical_rev (head_commit e));
                       new_range := endpoint |}) (e :: l) request)).
        exists (new_range request).
        split; [|done]. destruct request. simpl in *. by rewrite Hnew.
  - done.
  - intros endpoints Hlookup.
    rewrite Hnone in Hlookup. injection Hlookup as <-.
    pose proof (map_to_list_delete create_endpoints None _ Hnone) as Hperm.
    set (bugs := map_to_list (delete None create_endpoints)) in *.
    assert (NoDup bugs.*1) as Hnodup by apply NoDup_fst_map_to_list.
    assert (Forall (λ item, ∃ b endpoint,
                      item = (Some b, Grouping.ForBug endpoint)) bugs) as Hshape.
    { apply Forall_forall. intros [key entry] Hin%elem_of_map_to_list.
      destruct key as [b|]; [|by rewrite lookup_delete_eq in Hin].
      rewrite lookup_delete_ne in Hin by done.
      destruct (Hbugs _ _ Hin) as [e ->]. by exists b, e. }
    assert (length bugs = (size create_endpoints - 1)%nat) as Hsize.
    { unfold bugs. rewrite length_map_to_list.
      rewrite (map_size_delete_Some None create_endpoints) by (by eexists).
      lia. }
    assert (∀ request : NewSync,
              bool_decide ((Some (new_bug request),
                            Grouping.ForBug (new_range request)) ∈ bugs)
              = bool_decide (create_endpoints !! Some (new_bug request)
                             = Some (Grouping.ForBug (new_range request))))
      as Hmember.
    { intros request. apply bool_decide_ext. unfold bugs.
      rewrite elem_of_map_to_list. by rewrite lookup_delete_ne. }
    assert (length (requests_for bz_new (None, Grouping.Anonymous anonymous))
            = length anonymous) as Hlen.
    { destruct anonymous as [|e l]; [done|]. simpl. by rewrite length_fmap. }
    assert (∀ request,
              times request (requests_for bz_new (None, Grouping.Anonymous anonymous))
              = match anonymous !! 0%nat with
                | Some first_endpoint =>
                    if bool_decide
                         (new_bug request
                          = bz_new (canonical_rev (head_commit first_endpoint)))
                    then times (new_range request) anonymous else 0%nat
                | None => 0%nat
                end) as Htimes.
    { intros request. destruct anonymous as [|e l]; [done|].
      apply times_requests_of_bug. }
    split.
    + rewrite <- Hperm, bind_cons, length_app, Hlen.
      by rewrite (length_requests_for_bugs bz_new bugs Hshape), Hsize.
    + intros request.
      rewrite <- (times_Permutation request _ _
                    (bind_Permutation (requests_for bz_new) _ _ Hperm)).
      rewrite bind_cons, times_app, Htimes.
      rewrite (times_requests_for_bugs bz_new bugs request Hnodup Hshape).
      rewrite Hmember. lia.
Qed.

Lemma create_syncs_one_bug_witness :
  ∃ requests filed,
    create_syncs (λ rev, "bug-for-" ++ rev) Examples.two_anonymous
    = Ok (requests, filed)
    ∧ (length filed ≤ 1)%nat
    ∧ (∀ rev, rev ∈ filed ↔
         ∃ endpoints first_endpoint,
           Examples.two_anonymous !! None = Some (Grouping.Anonymous endpoints)
           ∧ endpoints !! 0%nat = Some first_endpoint
           ∧ rev = canonical_rev (head_commit first_endpoint))
    ∧ (∀ request, request ∈ requests ↔
         Examples.two_anonymous !! Some (new_bug request)
         = Some (Grouping.ForBug (new_range request))
         ∨ ∃ endpoints first_endpoint,
             Examples.two_anonymous !! None = Some (Grouping.Anonymous endpoints)
             ∧ endpoints !! 0%nat = Some first_endpoint
             ∧ new_range request ∈ endpoints
             ∧ new_bug request
               = (λ rev, "bug-for-" ++ rev)
                   (canonical_rev (head_commit first_endpoint)))
    ∧ requests
      = map_to_list Examples.two_anonymous
          ≫= requests_for (λ rev, "bug-for-" ++ rev)
    ∧ (∀ endpoints,
         Examples.two_anonymous !! None = Some (Grouping.Anonymous endpoints) →
         length requests = (length endpoints + (size Examples.two_anonymous - 1))%nat
         ∧ ∀ request,
             times request requests
             = ((if bool_decide (Examples.two_anonymous !! Some (new_bug request)
                                 = Some (Grouping.ForBug (new_range request)))
                 then 1 else 0)
                + match endpoints !! 0%nat with
                  | Some first_endpoint =>
                      if bool_decide
                           (new_bug request
                            = (λ rev, "bug-for-" ++ rev)
                                (canonical_rev (head_commit first_endpoint)))
                      then times (new_range request) endpoints else 0
                  | None => 0
                  end)%nat).
Proof.
  apply create_syncs_one_bug. split.
  - eexists. apply lookup_singleton_eq.
  - intros bug_id entry. unfold Examples.two_anonymous.
    by rewrite lookup_singleton_ne.
Defined.

(** ** A sync for an upstream pull request *)

Lemma has_metadata_keys (metadata : gmap string string) :
  FromPr.has_metadata metadata = true ↔
  is_Some (metadata !! "gecko-commit")
  ∧ is_Some (metadata !! "gecko-integration-branch")
  ∧ is_Some (metadata !! "bugzilla-url").
Proof.
  unfold FromPr.has_metadata. simpl.
  rewrite !andb_true_iff, !bool_decide_eq_true. tauto.
Qed.

(** X22: [from_pr] fails with a [KeyError] on every pull request whose
    body has the metadata and whose first commit has the three required
    entries but no [integration_branch] entry: the loop reads
    [integration_branch], which [has_metadata] does not require (it
    requires [gecko-integration-branch]). *)
Theorem from_pr_needs_integration_branch (hg2git : string → string)
    (id_from_url : string → option string) (rev_parse : string → string)
    (pr_id : Z) (body : gmap string string) (commit : FromPr.PrCommit)
    (commits : list FromPr.PrCommit) :
  FromPr.has_metadata body = true →
  FromPr.has_metadata (FromPr.pc_metadata commit) = true →
  FromPr.pc_metadata commit !! "integration_branch" = None →
  FromPr.from_pr hg2git id_from_url rev_parse pr_id body (commit :: commits)
  = Raise KeyError.
Proof.
  intros Hbody Hcommit Hmissing. unfold FromPr.from_pr. rewrite Hbody. simpl.
  rewrite Hcommit.
  apply has_metadata_keys in Hcommit as ([gc ->] & _ & [url ->]).
  by rewrite Hmissing.
Qed.

Lemma from_pr_needs_integration_branch_witness :
  FromPr.from_pr (hg2git Examples.env0) (λ _, Some "1004") (λ rev, rev) 7
    Examples.replay_metadata [Examples.pr_commit_replayed]
  = Raise KeyError.
Proof.
  apply from_pr_needs_integration_branch; vm_compute; reflexivity.
Defined.

(** What the loop has when it ends without an exception: the gecko
    commits named by a prefix of the commits, all with metadata. *)
Lemma scan_ok (hg2git : string → string) (id_from_url : string → option string)
    (commits : list FromPr.PrCommit) (gecko_commits : list string)
    (bug integration_branch : option string)
    (found : list string) (bug' : option string) :
  FromPr.scan hg2git id_from_url commits gecko_commits bug integration_branch
  = Ok (found, bug') →
  ∃ scanned rest,
    commits = (scanned ++ rest)%list
    ∧ Forall (λ commit, FromPr.has_metadata (FromPr.pc_metadata commit) = true)
             scanned
    ∧ found = (gecko_commits
               ++ ((λ commit,
                      hg2git (default "" (FromPr.pc_metadata commit
                                            !! "gecko-commit")))
                   <$> scanned))%list.
Proof.
  revert gecko_commits bug integration_branch.
  induction commits as [|commit commits IH];
    intros gecko_commits bug integration_branch; simpl.
  - intros [= <- <-]. exists [], []. simpl. rewrite app_nil_r.
    repeat split. constructor.
  - destruct (FromPr.has_metadata (FromPr.pc_metadata commit)) eqn:Hmeta.
    2: { intros [= <- <-]. exists [], (commit :: commits). simpl.
         rewrite app_nil_r. repeat split. constructor. }
    destruct (FromPr.pc_metadata commit !! "gecko-commit") as [gc|] eqn:Hgc;
      [|done].
    destruct (FromPr.pc_metadata commit !! "bugzilla-url") as [url|] eqn:Hurl;
      [|done].
    destruct (negb (bool_decide (bug = None)) && _) eqn:Hbreak.
    + intros [= <- <-]. exists [commit], commits. simpl. rewrite Hgc. simpl.
      split; [done|]. split; [by repeat constructor | done].
    + destruct (FromPr.pc_metadata commit !! "integration_branch"); [|done].
      intros Hrest.
      apply IH in Hrest as (scanned & rest & -> & Hall & ->).
      exists (commit :: scanned), rest. simpl. rewrite Hgc. simpl.
      split; [done|]. split; [by constructor|].
      by rewrite <- app_assoc.
Qed.

(** X23: when [from_pr] creates a sync, the body of the pull request has
    the metadata, the bug is not empty, the wpt base and head are the
    first and the last commit of the pull request, the gecko base and
    head are read from the first and the last commit of a non-empty
    prefix of commits that all have the metadata, and the id of the pull
    request is passed in the position of the status. *)
Theorem from_pr_call (hg2git : string → string)
    (id_from_url : string → option string) (rev_parse : string → string)
    (pr_id : Z) (body : gmap string string) (commits : list FromPr.PrCommit)
    (call : FromPr.NewCall) :
  FromPr.from_pr hg2git id_from_url rev_parse pr_id body commits = Ok (Some call) →
  FromPr.has_metadata body = true
  ∧ FromPr.status call = FromPr.PyInt pr_id
  ∧ FromPr.bug call ≠ ""
  ∧ (FromPr.pc_sha <$> commits !! 0%nat) = Some (FromPr.wpt_base call)
  ∧ (FromPr.pc_sha <$> last commits) = Some (FromPr.wpt_head call)
  ∧ ∃ scanned rest first_commit last_commit,
      commits = (scanned ++ rest)%list
      ∧ Forall (λ commit, FromPr.has_metadata (FromPr.pc_metadata commit) = true)
               scanned
      ∧ head scanned = Some first_commit
      ∧ last scanned = Some last_commit
      ∧ FromPr.gecko_base call
        = rev_parse (hg2git (default "" (FromPr.pc_metadata first_commit
                                           !! "gecko-commit")) ++ "^")
      ∧ FromPr.gecko_head call
        = rev_parse (hg2git (default "" (FromPr.pc_metadata last_commit
                                           !! "gecko-commit"))).
Proof.
  unfold FromPr.from_pr.
  destruct (FromPr.has_metadata body); simpl; [|done].
  destruct (FromPr.scan hg2git id_from_url commits [] None None)
    as [[found bug]|e] eqn:Hscan; simpl; [|done].
  apply scan_ok in Hscan as (scanned & rest & -> & Hall & ->).
  destruct scanned as [|first_commit scanned]; [done|].
  assert (∃ last_commit, last (first_commit :: scanned) = Some last_commit)
    as [last_commit Hlast].
  { destruct (last (first_commit :: scanned)) eqn:Hnone; [by eexists|].
    by apply last_None in Hnone. }
  rewrite app_nil_l, fmap_last, Hlast.
  destruct (last ((first_commit :: scanned) ++ rest)) as [last_pr|] eqn:Hlast_pr;
    simpl.
  all: destruct bug as [b|]; simpl; [|done].
  all: destruct (String.eqb b "") eqn:Hb; simpl; [done|].
  2: done.
  apply String.eqb_neq in Hb. intros [= <-]. simpl.
  split; [done|]. split; [done|]. split; [done|]. split; [done|].
  split; [done|].
  exists (first_commit :: scanned), rest, first_commit, last_commit.
  by repeat split.
Qed.

Lemma from_pr_call_witness :
  FromPr.has_metadata Examples.replay_metadata = true
  ∧ FromPr.status Examples.pr_call = FromPr.PyInt 7
  ∧ FromPr.bug Examples.pr_call ≠ ""
  ∧ (FromPr.pc_sha <$> [Examples.pr_commit_with_branch] !! 0%nat)
    = Some (FromPr.wpt_base Examples.pr_call)
  ∧ (FromPr.pc_sha <$> last [Examples.pr_commit_with_branch])
    = Some (FromPr.wpt_head Examples.pr_call)
  ∧ ∃ scanned rest first_commit last_commit,
      [Examples.pr_commit_with_branch] = (scanned ++ rest)%list
      ∧ Forall (λ commit, FromPr.has_metadata (FromPr.pc_metadata commit) = true)
               scanned
      ∧ head scanned = Some first_commit
      ∧ last scanned = Some last_commit
      ∧ FromPr.gecko_base Examples.pr_call
        = (λ rev, rev)
            (hg2git Examples.env0
               (default "" (FromPr.pc_metadata first_commit !! "gecko-commit"))
             ++ "^")
      ∧ FromPr.gecko_head Examples.pr_call
        = (λ rev, rev)
            (hg2git Examples.env0
               (default "" (FromPr.pc_metadata last_commit !! "gecko-commit"))).
Proof.
  apply (from_pr_call (hg2git Examples.env0) (λ _, Some "1004") (λ rev, rev) 7
           Examples.replay_metadata [Examples.pr_commit_with_branch]
           Examples.pr_call).
  vm_compute. reflexivity.
Defined.

(** ** Commits that need no new sync *)

Lemma process_commits_processed (env : Env) (commits : list GeckoCommit)
    (acc : Grouping.CreateSyncs * Grouping.UpdateSyncs) :
  Forall (λ commit, has_upstream_sync commit = true) commits →
  Grouping.process_commits env acc commits = Ok acc.
Proof.
  induction 1 as [|commit commits Hcommit _ IH]; simpl; [done|].
  unfold Grouping.process_commit. by rewrite Hcommit.
Qed.

(** X24: a push all of whose commits already belong to an upstream sync
    yields nothing to create and nothing to update. *)
Theorem updated_syncs_for_push_processed (env : Env)
    (enumerated : list GeckoCommit) :
  Forall (λ commit, has_upstream_sync commit = true) enumerated →
  Grouping.updated_syncs_for_push env enumerated = Ok None
  ∨ Grouping.updated_syncs_for_push env enumerated
    = Ok (Some ({[ None := Grouping.Anonymous [] ]}, ∅)).
Proof.
  intros Hall. unfold Grouping.updated_syncs_for_push.
  destruct (length (Grouping.filter_commits enumerated) =? 0)%nat; [by left|].
  destruct (length _ =? 0)%nat; [by left|]. right.
  rewrite process_commits_processed; [done|].
  unfold Backouts.remove_complete_backouts, Grouping.filter_commits.
  apply Forall_forall. intros commit Hin.
  apply list_elem_of_filter in Hin as [_ Hin].
  apply list_elem_of_filter in Hin as [_ Hin].
  by apply (proj1 (Forall_forall _ _) Hall).
Qed.

Lemma updated_syncs_for_push_processed_witness :
  Grouping.updated_syncs_for_push Examples.env0 [Examples.processed] = Ok None
  ∨ Grouping.updated_syncs_for_push Examples.env0 [Examples.processed]
    = Ok (Some ({[ None := Grouping.Anonymous [] ]}, ∅)).
Proof.
  apply updated_syncs_for_push_processed. by repeat constructor.
Defined.

(** X25: a commit whose bug has an open or incomplete sync, or was
    matched with a sync earlier in the push, is never put in a create
    bucket: grouping it leaves the syncs to create alone and changes at
    most the update recorded for its own bug. *)
Theorem group_by_bug_existing_sync (env : Env) (commit : GeckoCommit)
    (acc r : Grouping.CreateSyncs * Grouping.UpdateSyncs) :
  for_bug env (bug commit) ≠ [] ∨ is_Some (acc.2 !! bug commit) →
  Grouping.group_by_bug env commit acc = Ok r →
  r.1 = acc.1
  ∧ ∀ key, key ≠ bug commit → r.2 !! key = acc.2 !! key.
Proof.
  destruct acc as [create update]. simpl. intros Hexists.
  unfold Grouping.group_by_bug.
  match goal with
  | |- context [mbind _ ?x] => destruct x as [[sync|]|e] eqn:Hfound
  end; simpl; [| |done].
  - destruct (negb _); [|case_bool_decide]; intros [= <-]; simpl;
      (split; [done|]); intros key Hkey; by rewrite ?lookup_insert_ne.
  - exfalso. destruct (update !! bug commit) as [[sync c]|]; [done|].
    destruct Hexists as [Hsyncs|[? [=]]].
    apply sync_for_bug_first in Hfound.
    by destruct (for_bug env (bug commit)).
Qed.

Lemma group_by_bug_existing_sync_witness :
  ∃ r,
    Grouping.group_by_bug Examples.env_sync_X Examples.Y Examples.no_syncs = Ok r
    ∧ r.1 = Examples.no_syncs.1
    ∧ ∀ key, key ≠ bug Examples.Y → r.2 !! key = Examples.no_syncs.2 !! key.
Proof.
  eexists. split; [vm_compute; reflexivity|].
  apply (group_by_bug_existing_sync Examples.env_sync_X Examples.Y
           Examples.no_syncs).
  - left. vm_compute. discriminate.
  - vm_compute. reflexivity.
Defined.

(** ** After the merge *)

Lemma Closing_finish env value : Runs (emits_only closing_only) (finish env value).
Proof.
  unfold finish, base_finish, set_status.
  repeat first
    [ apply Runs_bind; [apply _ | | intros ?]
    | apply Only_modify_sync
    | apply Only_set_remote_branch
    | apply Only_emit; exact I
    | match goal with
      | |- Runs _ (if ?b then _ else _) => destruct b
      | |- Runs _ (match ?x with _ => _ end) => destruct x
      end
    | solve [eauto with runs typeclass_instances] ].
Qed.

(** X26: once the pull request of a sync with gecko commits is closed and
    merged, [update_github] neither pushes the branch nor creates a pull
    request nor sets the landed status: all it does is comment on the
    bug, change the status and delete the remote branch. *)
Theorem update_github_merged_no_push (env : Env) (st : State) (pr_id : Z) :
  pr (sync st) = Some pr_id →
  pr_id ≠ 0%Z →
  gecko_commits (sync st) ≠ [] →
  pull_state env pr_id = "closed" →
  pull_merged env pr_id = true →
  Forall closing_only (new_events st (update_github env st).2).
Proof.
  intros Hpr Hid Hgecko Hstate Hmerged. apply emits_only_new_events.
  unfold update_github. run_m. rewrite Hpr. simpl.
  apply Z.eqb_neq in Hid. rewrite Hid. simpl.
  destruct (gecko_commits (sync st)) as [|c gecko]; [done|]. simpl.
  rewrite Hstate, Hmerged. simpl.
  destruct (length (upstreamed_gecko_commits env (sync st)) =? S (length gecko))%nat;
    simpl; [|apply emits_only_sync].
  destruct (negb (bool_decide (status (sync st) ∈ ["wpt-merged"; "complete"])));
    simpl.
  - match goal with
    | |- context [finish env "complete" ?st1] =>
        pose proof (Closing_finish env "complete" st1) as Hfinish;
        destruct (finish env "complete" st1) as [[[]|e] st2]
    end; simpl in *;
      (etrans; [apply (emits_only_emit _ _ (EvBzComment (obj_id (sync st))
                                                "Upstream PR merged")); exact I
               | exact Hfinish]).
  - pose proof (Closing_finish env "complete" st) as Hfinish.
    by destruct (finish env "complete" st) as [[[]|e] st2].
Qed.

Lemma update_github_merged_no_push_witness :
  Forall closing_only
         (new_events (Examples.start Examples.sync_pushed)
                     (update_github Examples.env_merged
                        (Examples.start Examples.sync_pushed)).2).
Proof.
  apply (update_github_merged_no_push Examples.env_merged
           (Examples.start Examples.sync_pushed) 7);
    first [reflexivity | discriminate].
Defined.

#[local] Instance same_merge_sha_preorder : PreOrder same_merge_sha.
Proof.
  split; [by intros st|]. intros st1 st2 st3 H1 H2. unfold same_merge_sha in *.
  by rewrite H2.
Qed.

Lemma Same_merge_sha_finish env value : Runs same_merge_sha (finish env value).
Proof.
  unfold finish, base_finish, set_status, set_remote_branch.
  repeat first
    [ apply Runs_bind; [apply _ | | intros ?]
    | match goal with
      | |- Runs _ (modify_sync _) => by intros ?
      | |- Runs _ (emit _) => by intros ?
      | |- Runs _ (if ?b then _ else _) => destruct b
      | |- Runs _ (match ?x with _ => _ end) => destruct x
      end
    | solve [eauto with runs typeclass_instances] ].
Qed.

(** X27: [try_land_pr] returns [True] only after [merge_pull] succeeded
    for the pull request of the sync, and the sync then records the
    merge commit that [merge_pull] returned. *)
Theorem try_land_pr_true (env : Env) (st st' : State) :
  try_land_pr env st = (Ok (Some true), st') →
  ∃ pr_id sha,
    pr (sync st) = Some pr_id
    ∧ merge_pull env pr_id = inr sha
    ∧ EvMergePull pr_id ∈ new_events st st'
    ∧ merge_sha (sync st') = Some sha.
Proof.
  unfold try_land_pr. run_m.
  destruct (String.eqb (status (sync st)) "open"); simpl; [|done].
  destruct (gecko_landed env (sync st)) as [[]|e]; simpl; [|done|done].
  destruct (pr (sync st)) as [p|]; simpl; [|done].
  destruct (p =? 0)%Z; simpl; [done|].
  pose proof (Quiet_set_landed_status env st) as (ev1 & Htrace1 & _).
  destruct (set_landed_status env st) as [[[]|e] st1]; simpl in *; [|done].
  destruct (truthy_str (gh_merge_sha env p)); simpl.
  { by destruct (finish env "wpt-merged" _) as [[[]|e] st2]. }
  destruct (negb (bool_decide _)); simpl; [done|].
  destruct (is_mergeable env p); simpl; [|done].
  destruct (is_approved env p); simpl; [|done].
  destruct (merge_pull env p) as [err|sha] eqn:Hmerge; simpl; [done|].
  match goal with
  | |- context [finish env "wpt-merged" ?st2] =>
      pose proof (Quiet_finish env "wpt-merged" st2) as (ev3 & Htrace3 & _);
      pose proof (Same_merge_sha_finish env "wpt-merged" st2) as Hsha;
      destruct (finish env "wpt-merged" st2) as [[[]|e] st3]
  end; simpl in *; [|done].
  intros [= <-]. exists p, sha. split; [done|]. split; [done|]. split; [|done].
  unfold new_events. rewrite Htrace3, Htrace1, <- !app_assoc, drop_app_length.
  set_solver.
Qed.

Lemma try_land_pr_true_witness :
  ∃ st',
    try_land_pr Examples.env_landed (Examples.start Examples.sync_pushed)
    = (Ok (Some true), st')
    ∧ ∃ pr_id sha,
        pr (sync (Examples.start Examples.sync_pushed)) = Some pr_id
        ∧ merge_pull Examples.env_landed pr_id = inr sha
        ∧ EvMergePull pr_id ∈ new_events (Examples.start Examples.sync_pushed) st'
        ∧ merge_sha (sync st') = Some sha.
Proof.
  eexists. split; [vm_compute; reflexivity|].
  apply (try_land_pr_true Examples.env_landed
           (Examples.start Examples.sync_pushed)).
  vm_compute. reflexivity.
Defined.
